(** * The chain controller of eosio::chain, embedded in Rocq

    The development follows [libraries/chain/chain_controller.cpp].  The
    controller is a C++ object whose methods mutate its members (the
    versioned store [_db], the fork database [_fork_db], the block log
    [_block_log], the pending block and its session) and may throw; the
    embedding is a state-and-exception monad over a record of those
    members.  An exception leaves the members as they were when it was
    thrown, so a failing computation still carries a state. *)

From Stdlib Require Import NArith ZArith Lia Sorting.Sorted.
From stdpp Require Import base option list gmap numbers sorting.

Set Default Proof Using "Type".
Local Open Scope N_scope.

(** ** Builtin types ([contracts/eosiolib/types.h])

    [account_name], [permission_name], [scope_name] and [action_name] are
    [uint64_t]; [region_id] is [uint16_t].  Identifiers, digests, keys and
    signatures are fixed-width byte strings and are held as the number they
    spell. *)

Definition account_name := N.
Definition permission_name := N.
Definition scope_name := N.
Definition action_name := N.
Definition region_id := N.
Definition block_num_type := N.
Definition block_id_type := N.
Definition transaction_id_type := N.
Definition public_key_type := N.
Definition signature_type := N.
Definition digest_type := N.
Definition chain_id_type := N.
(** [fc::time_point]: microseconds since the epoch. *)
Definition time_point := N.

Definition uint16 (n : N) : N := n mod 2 ^ 16.
Definition uint32 (n : N) : N := n mod 2 ^ 32.
Definition uint64 (n : N) : N := n mod 2 ^ 64.

(** [block_timestamp_type] counts block intervals in its [slot] member. *)
Record block_timestamp_type := mk_timestamp { slot : N }.

(** ** Exceptions

    The kinds the controller raises.  [assert_exception] is what
    [FC_ASSERT] throws, [key_not_found] what the store's [get] throws on a
    missing object, [out_of_range] what [vector::at] throws.
    [contract_exception] is raised by contract code.  [undefined] marks a
    point where the C++ has no defined behaviour (an unchecked index past
    the end, a dereferenced empty optional). *)

Inductive exception :=
| unknown_block_exception
| pop_empty_chain
| block_validate_exception
| transaction_exception
| tx_duplicate
| tx_missing_sigs
| tx_irrelevant_sig
| tx_irrelevant_auth
| no_common_ancestor
| corrupt_log
| assert_exception
| key_not_found
| out_of_range
| contract_exception (code : N)
| undefined.

#[global] Instance exception_eq_dec : EqDecision exception.
Proof. solve_decision. Defined.

(** ** Outcomes and the state-and-exception monad *)

Inductive outcome (S A : Type) :=
| Ok (a : A) (s : S)
| Throw (e : exception) (s : S)
| Diverge.
Arguments Ok {S A} a s.
Arguments Throw {S A} e s.
Arguments Diverge {S A}.

Definition St (S A : Type) : Type := S -> outcome S A.

Definition ret {S A} (a : A) : St S A := fun s => Ok a s.

Definition bind {S A B} (m : St S A) (k : A -> St S B) : St S B :=
  fun s => match m s with
           | Ok a s' => k a s'
           | Throw e s' => Throw e s'
           | Diverge => Diverge
           end.

Definition throw {S A} (e : exception) : St S A := fun s => Throw e s.

Definition get_state {S} : St S S := fun s => Ok s s.
Definition put_state {S} (s : S) : St S unit := fun _ => Ok tt s.
Definition modify_state {S} (f : S -> S) : St S unit := fun s => Ok tt (f s).

(** [try { m } catch (const fc::exception& e) { ... }] with the exception
    handed to the continuation. *)
Definition try_catch {S A} (m : St S A) : St S (exception + A) :=
  fun s => match m s with
           | Ok a s' => Ok (inr a) s'
           | Throw e s' => Ok (inl e) s'
           | Diverge => Diverge
           end.

(** A scope guard: [after] runs when [m] leaves, normally or by exception. *)
Definition finally {S A} (m : St S A) (after : St S unit) : St S A :=
  bind (try_catch m) (fun r =>
  bind after (fun _ =>
  match r with inr a => ret a | inl e => throw e end)).

Declare Scope st_scope.
Delimit Scope st_scope with st.
Notation "x <- m ;; k" := (bind m (fun x => k))
  (at level 100, m at next level, right associativity) : st_scope.
Notation "m ;; k" := (bind m (fun _ => k))
  (at level 100, right associativity) : st_scope.
Local Open Scope st_scope.

(** [FC_ASSERT] and [EOS_ASSERT]. *)
Definition EOS_ASSERT {S} (cond : bool) (e : exception) : St S unit :=
  if cond then ret tt else throw e.
Definition FC_ASSERT {S} (cond : bool) : St S unit :=
  EOS_ASSERT cond assert_exception.

Definition when {S} (cond : bool) (m : St S unit) : St S unit :=
  if cond then m else ret tt.

(** [for (const auto& x : l) body(x);] *)
Fixpoint for_each {S A} (l : list A) (body : A -> St S unit) : St S unit :=
  match l with
  | [] => ret tt
  | x :: l' => body x ;; for_each l' body
  end.

(** A loop over [l] that carries local variables in [acc]. *)
Fixpoint fold_each {S A B} (l : list A) (acc : B) (body : B -> A -> St S B)
  : St S B :=
  match l with
  | [] => ret acc
  | x :: l' => acc' <- body acc x ;; fold_each l' acc' body
  end.

(** [for (const auto& x : l) out.push_back(f(x));] *)
Fixpoint map_each {S A B} (l : list A) (f : A -> St S B) : St S (list B) :=
  match l with
  | [] => ret []
  | x :: l' => y <- f x ;; ys <- map_each l' f ;; ret (y :: ys)
  end.

(** [while (cond()) body();] with a bound on the number of iterations;
    running out of it is [Diverge]. *)
Fixpoint while_loop {S} (fuel : nat) (cond : St S bool) (body : St S unit)
  : St S unit :=
  match fuel with
  | O => fun _ => Diverge
  | S fuel' =>
      c <- cond ;;
      if c then body ;; while_loop fuel' cond body else ret tt
  end.

(** ** Transactions and blocks *)

Record permission_level := mk_level {
  actor : account_name;
  permission : permission_name }.

Record action := mk_action {
  act_scope : scope_name;
  act_name : action_name;
  authorization : list permission_level;
  act_data : list N }.

(** [signed_transaction] extends [transaction] by [signatures]; methods
    taking a [const transaction&] read the other members only. *)
Record signed_transaction := mk_trx {
  expiration : time_point;
  ref_block_num : N;
  ref_block_prefix : N;
  read_scope : list scope_name;
  write_scope : list scope_name;
  actions : list action;
  signatures : list signature_type }.
Abbreviation transaction := signed_transaction (only parsing).

Record deferred_transaction := mk_deferred {
  dt_trx : signed_transaction;
  sender : account_name;
  sender_id : N;
  execute_after : time_point }.

Record producer_key := mk_producer_key {
  producer_name : account_name;
  block_signing_key : public_key_type }.

(** [producers] is a fixed-size array in the source; here a list whose
    length is the array's size. *)
Record producer_schedule_type := mk_schedule {
  version : N;
  producers : list producer_key }.

Inductive receipt_status := executed | soft_fail | hard_fail | delayed.

Record transaction_receipt := mk_receipt {
  status : receipt_status;
  receipt_id : transaction_id_type }.

Abbreviation shard_summary := (list transaction_receipt) (only parsing).
Abbreviation cycle := (list (list transaction_receipt)) (only parsing).

Record region_summary := mk_region {
  region : region_id;
  cycles_summary : list cycle }.

Record signed_block := mk_block {
  previous : block_id_type;
  timestamp : block_timestamp_type;
  producer : account_name;
  transaction_mroot : digest_type;
  action_mroot : digest_type;
  block_mroot : digest_type;
  new_producers : option producer_schedule_type;
  producer_signature : signature_type;
  regions : list region_summary;
  input_transactions : list signed_transaction }.

#[global] Instance block_timestamp_eq_dec : EqDecision block_timestamp_type.
Proof. solve_decision. Defined.
#[global] Instance permission_level_eq_dec : EqDecision permission_level.
Proof. solve_decision. Defined.
#[global] Instance action_eq_dec : EqDecision action.
Proof. solve_decision. Defined.
#[global] Instance signed_transaction_eq_dec : EqDecision signed_transaction.
Proof. solve_decision. Defined.
#[global] Instance producer_key_eq_dec : EqDecision producer_key.
Proof. solve_decision. Defined.
#[global] Instance producer_schedule_eq_dec : EqDecision producer_schedule_type.
Proof. solve_decision. Defined.
#[global] Instance receipt_status_eq_dec : EqDecision receipt_status.
Proof. solve_decision. Defined.

(** ** Traces *)

Record action_trace := mk_action_trace {
  receiver : account_name;
  act : action;
  console : list N;
  at_region_id : N;
  at_cycle_index : N;
  at_shard_index : N }.

Record transaction_trace := mk_trx_trace {
  tt_id : transaction_id_type;
  action_traces : list action_trace;
  deferred_transactions : list deferred_transaction }.

Record shard_trace := mk_shard_trace {
  shard_root : digest_type;
  transaction_traces : list transaction_trace }.

Record cycle_trace := mk_cycle_trace { shard_traces : list shard_trace }.
Record region_trace := mk_region_trace { cycle_traces : list cycle_trace }.

(** [block_trace] holds a reference to its block; [trace_block] is the
    block as it reads when the trace is used. *)
Record block_trace := mk_block_trace {
  trace_block : signed_block;
  region_traces : list region_trace }.

(** [transaction_metadata( trx, chain_id, region, cycle, shard )]. *)
Record transaction_metadata := mk_meta {
  meta_trx : signed_transaction;
  meta_id : transaction_id_type;
  meta_region_id : N;
  meta_cycle_index : N;
  meta_shard_index : N;
  meta_bandwidth_usage : N }.

(** ** Objects of the store *)

Record producer_object := mk_producer {
  owner : account_name;
  signing_key : public_key_type;
  last_confirmed_block_num : N;
  last_aslot : N;
  total_missed : N }.

Record chain_config := mk_chain_config {
  max_authority_depth : N;
  max_transaction_lifetime : N }.

Record global_property_object := mk_gpo {
  configuration : chain_config;
  active_producers : producer_schedule_type;
  pending_active_producers : list (block_num_type * producer_schedule_type) }.

Record dynamic_global_property_object := mk_dgp {
  head_block_number : N;
  dgp_head_block_id : block_id_type;
  dgp_time : time_point;
  current_producer : account_name;
  current_absolute_slot : N;
  recent_slots_filled : N;
  averge_block_size : N;
  dgp_last_irreversible_block_num : N;
  block_merkle_root : list digest_type }.

Record authority := mk_authority {
  threshold : N;
  auth_keys : list (public_key_type * N);
  auth_accounts : list (permission_level * N) }.

Record permission_object := mk_permission {
  perm_owner : account_name;
  perm_name : permission_name;
  perm_parent : option permission_level;
  auth : authority }.

Record transaction_object := mk_transaction_object {
  to_trx_id : transaction_id_type;
  to_expiration : time_point }.

Record generated_transaction_object := mk_generated {
  gto_trx_id : transaction_id_type;
  gto_sender : account_name;
  gto_sender_id : N;
  gto_expiration : time_point;
  gto_delay_until : time_point;
  gto_packed_trx : list N }.

(** The indices the controller registers in [_initialize_indexes], each
    keyed the way the controller looks it up. *)
Record db_objects := mk_objects {
  obj_gpo : global_property_object;
  obj_dgp : dynamic_global_property_object;
  producer_index : gmap account_name producer_object;
  producer_votes_index : list account_name;
  account_index : gset account_name;
  permission_index : gmap (account_name * permission_name) permission_object;
  permission_link_index :
    gmap (account_name * scope_name * action_name) permission_name;
  transaction_index : gmap transaction_id_type transaction_object;
  generated_transaction_index : list generated_transaction_object;
  block_summary_index : gmap N block_id_type;
  bandwidth_usage_index : gmap account_name N;
  staked_balance_index : gmap account_name N;
  contract_tables : gmap (N * N) (list N) }.

(** ** Constants and collaborators

    [config::*] and the [skip_*] bits are declared in headers of the
    library; the controller uses them by name. *)

Class Config := {
  blocks_per_round : N;
  producer_repititions : N;
  producer_count : N;
  block_interval_ms : N;
  block_timestamp_epoch_ms : N;
  percent_100 : N;
  irreversible_threshold_percent : N;
  active_name : permission_name;
  eosio_all_scope : scope_name;
  eosio_auth_scope : scope_name;
  producers_account_name : account_name;
  producers_authority_threshold : N;
  fixed_bandwidth_overhead_per_transaction : N;
  skip_producer_signature : N;
  skip_transaction_signatures : N;
  skip_transaction_dupe_check : N;
  skip_fork_db : N;
  skip_tapos_check : N;
  skip_authority_check : N;
  skip_merkle_check : N;
  skip_producer_schedule_check : N;
  skip_scope_check : N;
  received_block : N }.

(** What the controller calls and the sources do not define: hashing and
    signatures, the Merkle function, the usage accumulator, and contract
    execution ([apply_context::exec], which is handed the store). *)
Class Collaborators := {
  get_chain_id : chain_id_type;
  block_id : signed_block -> block_id_type;
  num_from_id : block_id_type -> N;
  validate_signee : signed_block -> public_key_type -> bool;
  sign : signed_block -> N -> signature_type;
  get_public_key : N -> public_key_type;
  trx_id : signed_transaction -> transaction_id_type;
  get_signature_keys :
    signed_transaction -> chain_id_type -> list public_key_type;
  verify_reference_block : signed_transaction -> block_id_type -> bool;
  merkle : list digest_type -> digest_type;
  calculate_transaction_merkle_root : signed_block -> digest_type;
  action_trace_digest : action_trace -> digest_type;
  transaction_digest : signed_transaction -> digest_type;
  pack : deferred_transaction -> list N;
  pack_size : signed_block -> N;
  deferred_id : deferred_transaction -> transaction_id_type;
  add_usage : N -> N -> time_point -> N;
  bandwidth_usage : signed_transaction -> N;
  exec : signed_transaction -> action ->
         St db_objects (list action_trace * list deferred_transaction) }.

(** [EOS_PERCENT(value, percent)]. *)
Definition EOS_PERCENT `{Config} (value percent : N) : N :=
  uint64 (value * percent) / percent_100.

(** Conversions between [fc::time_point] and [block_timestamp_type]. *)
Definition to_time_point `{Config} (t : block_timestamp_type) : time_point :=
  (slot t * block_interval_ms + block_timestamp_epoch_ms) * 1000.

Definition of_time_point `{Config} (t : time_point) : block_timestamp_type :=
  mk_timestamp (uint32 ((t / 1000 - block_timestamp_epoch_ms) / block_interval_ms)).

Definition flag_set (flags bit : N) : bool := negb (N.land flags bit =? 0).

(** ** The versioned store

    Modelled from the spec: the store (section 4.C) is an external
    collaborator.  Sessions form a stack; each holds the objects as they
    were when it was started.  [push] keeps the session on the stack,
    [squash] merges it into its parent, dropping it unpushed rolls it
    back, [undo] rewinds the last pushed session, and [commit] discards
    the undo records of all sessions up to a revision. *)

Record database := mk_db {
  objects : db_objects;
  undo_stack : list db_objects;
  revision : N }.

Definition with_objects (f : db_objects -> db_objects) (d : database) : database :=
  mk_db (f (objects d)) (undo_stack d) (revision d).

Definition start_undo_session (d : database) : database :=
  mk_db (objects d) (objects d :: undo_stack d) (revision d + 1).

Definition undo (d : database) : database :=
  match undo_stack d with
  | [] => d
  | o :: rest => mk_db o rest (revision d - 1)
  end.

Definition squash (d : database) : database :=
  match undo_stack d with
  | [] => d
  | _ :: rest => mk_db (objects d) rest (revision d - 1)
  end.

(** The record on top of the stack belongs to revision [revision d], the
    one below to [revision d - 1], and so on; [commit r] keeps those
    above [r]. *)
Definition commit (r : N) (d : database) : database :=
  mk_db (objects d) (take (N.to_nat (revision d - r)) (undo_stack d)) (revision d).

(** A session handle: [session_apply] tells whether leaving it rolls the
    session back (cleared by [push] and [squash]). *)
Record session := mk_session { session_apply : bool }.

(** ** The block log

    Modelled from the spec (section 4.A): an append-only sequence of
    blocks, oldest first.  [append] must raise the height by exactly one
    once the log has a head. *)

Section block_log.
Context `{Collaborators}.

Definition block_num (b : signed_block) : N :=
  uint32 (num_from_id (previous b) + 1).

Definition log_head (log : list signed_block) : option signed_block :=
  list.last log.

Definition read_block_by_num (log : list signed_block) (n : N)
  : option signed_block :=
  List.find (fun b => block_num b =? n) log.

Definition read_block_by_id (log : list signed_block) (id : block_id_type)
  : option signed_block :=
  List.find (fun b => block_id b =? id) log.

Definition log_append (b : signed_block) : St (list signed_block) unit :=
  fun log =>
    match log_head log with
    | Some h =>
        if block_num b =? block_num h + 1 then Ok tt (log ++ [b])
        else Throw corrupt_log log
    | None => Ok tt (log ++ [b])
    end.
End block_log.

(** ** The fork database

    Modelled from the spec (section 4.B): [fork_database] is an external
    collaborator.  Items are keyed by id and point to their parent by
    [previous_id]; the parent reference is weak, so it resolves only
    while the parent is in the index.  [push_block] inserts, moves the
    head when the new item overtakes it, and hands back the head (the
    controller relies on getting the head back for a block that is not
    higher).  [pop_block] removes the current head and makes its parent
    the head.  [set_max_size n] drops the items older than
    [head_num - n]. *)

Record fork_item := mk_item {
  data : signed_block;
  item_id : block_id_type;
  num : N }.

Definition previous_id (i : fork_item) : block_id_type := previous (data i).

Record fork_database := mk_fork_db {
  items : list fork_item;
  fork_head : option fork_item;
  max_size : N }.

Section fork_database.
Context `{Collaborators}.

Definition fetch_block (f : fork_database) (id : block_id_type)
  : option fork_item :=
  List.find (fun i => item_id i =? id) (items f).

Definition is_known_block_fork (f : fork_database) (id : block_id_type) : bool :=
  bool_decide (is_Some (fetch_block f id)).

Definition prev (f : fork_database) (i : fork_item) : option fork_item :=
  fetch_block f (previous_id i).

Definition fork_push_block (b : signed_block) (f : fork_database)
  : fork_item * fork_database :=
  let item := mk_item b (block_id b) (block_num b) in
  let items' :=
    if is_known_block_fork f (item_id item) then items f
    else items f ++ [item] in
  let head' :=
    match fork_head f with
    | Some h => if num h <? num item then item else h
    | None => item
    end in
  (head', mk_fork_db items' (Some head') (max_size f)).

Fixpoint walk_branches (fuel : nat) (f : fork_database)
    (first second : fork_item) (acc1 acc2 : list fork_item)
  : option (list fork_item * list fork_item) :=
  match fuel with
  | O => None
  | S n =>
      if num second <? num first then
        p ← prev f first; walk_branches n f p second (acc1 ++ [first]) acc2
      else if num first <? num second then
        p ← prev f second; walk_branches n f first p acc1 (acc2 ++ [second])
      else if previous_id first =? previous_id second then
        Some (acc1 ++ [first], acc2 ++ [second])
      else
        p1 ← prev f first; p2 ← prev f second;
        walk_branches n f p1 p2 (acc1 ++ [first]) (acc2 ++ [second])
  end.

(** Both branches tip first; the last item of each is the child of the
    common ancestor. *)
Definition fetch_branch_from (f : fork_database) (a b : block_id_type)
  : option (list fork_item * list fork_item) :=
  i ← fetch_block f a; j ← fetch_block f b;
  walk_branches (2 * length (items f) + 1) f i j [] [].

Definition fork_remove (id : block_id_type) (f : fork_database) : fork_database :=
  mk_fork_db (List.filter (fun i => negb (item_id i =? id)) (items f))
             (fork_head f) (max_size f).

Definition fork_pop_block (f : fork_database) : fork_database :=
  match fork_head f with
  | Some h =>
      let f' := fork_remove (item_id h) f in
      mk_fork_db (items f') (prev f h) (max_size f)
  | None => f
  end.

Definition fork_set_head (i : fork_item) (f : fork_database) : fork_database :=
  mk_fork_db (items f) (Some i) (max_size f).

Definition fork_set_max_size (n : N) (f : fork_database) : fork_database :=
  match fork_head f with
  | Some h =>
      mk_fork_db (List.filter (fun i => num h - n <=? num i) (items f))
                 (fork_head f) n
  | None => mk_fork_db (items f) None n
  end.

(** [while (block && block->num > n) block = block->prev.lock();] *)
Fixpoint walk_back (fuel : nat) (f : fork_database) (i : fork_item) (n : N)
  : option fork_item :=
  if num i <=? n then Some i
  else match fuel with
       | O => None
       | S fuel' => p ← prev f i; walk_back fuel' f p n
       end.
End fork_database.

(** ** The authority checker

    Modelled from the spec (section 4.D): [make_auth_checker] and
    [permission_object::satisfies] are defined in headers of the library.
    [satisfied] sums the weights of the provided keys the authority
    lists and of the account levels that are provided or satisfied one
    level deeper; it records the keys it used. *)

Section authority_checker.
Variable permission_to_authority : permission_level -> option authority.
Variable provided_keys : list public_key_type.
Variable provided_accounts : list account_name.

Definition key_weight (a : authority) : N :=
  foldr (fun kw acc => if bool_decide (kw.1 ∈ provided_keys) then kw.2 + acc else acc)
        0 (auth_keys a).

Definition keys_hit (a : authority) : list public_key_type :=
  List.filter (fun k => bool_decide (k ∈ provided_keys)) (map fst (auth_keys a)).

(** [None]: the permission lookup threw. *)
Fixpoint satisfied (depth : nat) (level : permission_level)
  : option (bool * list public_key_type) :=
  a ← permission_to_authority level;
  r ← foldr (fun lw acc =>
               '(w, used) ← acc;
               if bool_decide (actor lw.1 ∈ provided_accounts)
               then Some (w + lw.2, used)
               else match depth with
                    | O => Some (w, used)
                    | S d =>
                        '(ok, used') ← satisfied d lw.1;
                        Some (if ok : bool then (w + lw.2, used ++ used') else (w, used))
                    end)
            (Some (key_weight a, keys_hit a)) (auth_accounts a);
  Some (if threshold a <=? r.1 then (true, r.2) else (false, [])).

Definition all_keys_used (used : list public_key_type) : bool :=
  forallb (fun k => bool_decide (k ∈ used)) provided_keys.
End authority_checker.

(** [this->satisfies(other, index)]: same owner, and [this] is [other] or
    one of its ancestors. *)
Fixpoint is_ancestor_or_self (fuel : nat)
    (idx : gmap (account_name * permission_name) permission_object)
    (this other : permission_object) : bool :=
  if bool_decide (perm_name this = perm_name other) then true
  else match fuel, perm_parent other with
       | S n, Some p =>
           match idx !! (actor p, permission p) with
           | Some parent => is_ancestor_or_self n idx this parent
           | None => false
           end
       | _, _ => false
       end.

Definition satisfies
    (idx : gmap (account_name * permission_name) permission_object)
    (this other : permission_object) : bool :=
  bool_decide (perm_owner this = perm_owner other)
  && is_ancestor_or_self (size idx) idx this other.

(** ** Cycle scheduling

    Modelled from the spec (section 4.F): [pending_cycle_state::schedule]
    returns the shard the transaction goes into, or -1 when its scopes
    conflict with the write scopes already placed in this cycle: a write
    scope belongs to one shard, read scopes are shared. *)

Record pending_cycle_state := mk_cycle_state {
  read_scopes : list scope_name;
  write_scope_to_shard : gmap scope_name N;
  shard_count : N }.

Definition fresh_cycle_state : pending_cycle_state := mk_cycle_state [] ∅ 0.

Definition shards_touched (st : pending_cycle_state) (trx : signed_transaction)
  : list N :=
  omap (fun s => write_scope_to_shard st !! s) (write_scope trx ++ read_scope trx).

Definition schedule (trx : signed_transaction) (st : pending_cycle_state)
  : Z * pending_cycle_state :=
  if existsb (fun ws => bool_decide (ws ∈ read_scopes st)) (write_scope trx)
  then ((-1)%Z, st)
  else
    let place k :=
      mk_cycle_state (read_scope trx ++ read_scopes st)
        (foldr (fun ws m => <[ws := k]> m) (write_scope_to_shard st) (write_scope trx))
        (N.max (shard_count st) (k + 1)) in
    match shards_touched st trx with
    | [] => (Z.of_N (shard_count st), place (shard_count st))
    | k :: rest =>
        if forallb (N.eqb k) rest then (Z.of_N k, place k) else ((-1)%Z, st)
    end.

(** ** The controller's members *)

Record chain_controller := mk_controller {
  _db : database;
  _fork_db : fork_database;
  _block_log : list signed_block;
  _pending_block : option signed_block;
  _pending_block_trace : option block_trace;
  _pending_block_session : option session;
  _pending_cycle : pending_cycle_state;
  _pending_cycle_trace : option cycle_trace;
  _skip_flags : N;
  _checkpoints : gmap N block_id_type;
  _currently_applying_block : bool;
  _currently_replaying_blocks : bool }.

Abbreviation M := (St chain_controller).

Definition set_db (f : database -> database) (c : chain_controller) :=
  mk_controller (f (_db c)) (_fork_db c) (_block_log c) (_pending_block c)
    (_pending_block_trace c) (_pending_block_session c) (_pending_cycle c)
    (_pending_cycle_trace c) (_skip_flags c) (_checkpoints c)
    (_currently_applying_block c) (_currently_replaying_blocks c).
Definition set_fork_db (f : fork_database -> fork_database) (c : chain_controller) :=
  mk_controller (_db c) (f (_fork_db c)) (_block_log c) (_pending_block c)
    (_pending_block_trace c) (_pending_block_session c) (_pending_cycle c)
    (_pending_cycle_trace c) (_skip_flags c) (_checkpoints c)
    (_currently_applying_block c) (_currently_replaying_blocks c).
Definition set_block_log (l : list signed_block) (c : chain_controller) :=
  mk_controller (_db c) (_fork_db c) l (_pending_block c)
    (_pending_block_trace c) (_pending_block_session c) (_pending_cycle c)
    (_pending_cycle_trace c) (_skip_flags c) (_checkpoints c)
    (_currently_applying_block c) (_currently_replaying_blocks c).
Definition set_pending_block (b : option signed_block) (c : chain_controller) :=
  mk_controller (_db c) (_fork_db c) (_block_log c) b
    (_pending_block_trace c) (_pending_block_session c) (_pending_cycle c)
    (_pending_cycle_trace c) (_skip_flags c) (_checkpoints c)
    (_currently_applying_block c) (_currently_replaying_blocks c).
Definition set_pending_block_trace (t : option block_trace) (c : chain_controller) :=
  mk_controller (_db c) (_fork_db c) (_block_log c) (_pending_block c)
    t (_pending_block_session c) (_pending_cycle c)
    (_pending_cycle_trace c) (_skip_flags c) (_checkpoints c)
    (_currently_applying_block c) (_currently_replaying_blocks c).
Definition set_pending_block_session (s : option session) (c : chain_controller) :=
  mk_controller (_db c) (_fork_db c) (_block_log c) (_pending_block c)
    (_pending_block_trace c) s (_pending_cycle c)
    (_pending_cycle_trace c) (_skip_flags c) (_checkpoints c)
    (_currently_applying_block c) (_currently_replaying_blocks c).
Definition set_pending_cycle (s : pending_cycle_state) (c : chain_controller) :=
  mk_controller (_db c) (_fork_db c) (_block_log c) (_pending_block c)
    (_pending_block_trace c) (_pending_block_session c) s
    (_pending_cycle_trace c) (_skip_flags c) (_checkpoints c)
    (_currently_applying_block c) (_currently_replaying_blocks c).
Definition set_pending_cycle_trace (t : option cycle_trace) (c : chain_controller) :=
  mk_controller (_db c) (_fork_db c) (_block_log c) (_pending_block c)
    (_pending_block_trace c) (_pending_block_session c) (_pending_cycle c)
    t (_skip_flags c) (_checkpoints c)
    (_currently_applying_block c) (_currently_replaying_blocks c).
Definition set_skip_flags (s : N) (c : chain_controller) :=
  mk_controller (_db c) (_fork_db c) (_block_log c) (_pending_block c)
    (_pending_block_trace c) (_pending_block_session c) (_pending_cycle c)
    (_pending_cycle_trace c) s (_checkpoints c)
    (_currently_applying_block c) (_currently_replaying_blocks c).
Definition set_checkpoints (m : gmap N block_id_type) (c : chain_controller) :=
  mk_controller (_db c) (_fork_db c) (_block_log c) (_pending_block c)
    (_pending_block_trace c) (_pending_block_session c) (_pending_cycle c)
    (_pending_cycle_trace c) (_skip_flags c) m
    (_currently_applying_block c) (_currently_replaying_blocks c).
Definition set_currently_applying_block (b : bool) (c : chain_controller) :=
  mk_controller (_db c) (_fork_db c) (_block_log c) (_pending_block c)
    (_pending_block_trace c) (_pending_block_session c) (_pending_cycle c)
    (_pending_cycle_trace c) (_skip_flags c) (_checkpoints c)
    b (_currently_replaying_blocks c).

(** Setters for the indices the controller writes to. *)
Definition set_gpo (v : global_property_object) (o : db_objects) :=
  mk_objects v (obj_dgp o) (producer_index o) (producer_votes_index o)
    (account_index o) (permission_index o) (permission_link_index o)
    (transaction_index o) (generated_transaction_index o)
    (block_summary_index o) (bandwidth_usage_index o)
    (staked_balance_index o) (contract_tables o).
Definition set_dgp (v : dynamic_global_property_object) (o : db_objects) :=
  mk_objects (obj_gpo o) v (producer_index o) (producer_votes_index o)
    (account_index o) (permission_index o) (permission_link_index o)
    (transaction_index o) (generated_transaction_index o)
    (block_summary_index o) (bandwidth_usage_index o)
    (staked_balance_index o) (contract_tables o).
Definition set_producer_index (v : gmap account_name producer_object) (o : db_objects) :=
  mk_objects (obj_gpo o) (obj_dgp o) v (producer_votes_index o)
    (account_index o) (permission_index o) (permission_link_index o)
    (transaction_index o) (generated_transaction_index o)
    (block_summary_index o) (bandwidth_usage_index o)
    (staked_balance_index o) (contract_tables o).
Definition set_permission_index
    (v : gmap (account_name * permission_name) permission_object) (o : db_objects) :=
  mk_objects (obj_gpo o) (obj_dgp o) (producer_index o) (producer_votes_index o)
    (account_index o) v (permission_link_index o)
    (transaction_index o) (generated_transaction_index o)
    (block_summary_index o) (bandwidth_usage_index o)
    (staked_balance_index o) (contract_tables o).
Definition set_transaction_index
    (v : gmap transaction_id_type transaction_object) (o : db_objects) :=
  mk_objects (obj_gpo o) (obj_dgp o) (producer_index o) (producer_votes_index o)
    (account_index o) (permission_index o) (permission_link_index o)
    v (generated_transaction_index o)
    (block_summary_index o) (bandwidth_usage_index o)
    (staked_balance_index o) (contract_tables o).
Definition set_generated_transaction_index
    (v : list generated_transaction_object) (o : db_objects) :=
  mk_objects (obj_gpo o) (obj_dgp o) (producer_index o) (producer_votes_index o)
    (account_index o) (permission_index o) (permission_link_index o)
    (transaction_index o) v
    (block_summary_index o) (bandwidth_usage_index o)
    (staked_balance_index o) (contract_tables o).
Definition set_block_summary_index (v : gmap N block_id_type) (o : db_objects) :=
  mk_objects (obj_gpo o) (obj_dgp o) (producer_index o) (producer_votes_index o)
    (account_index o) (permission_index o) (permission_link_index o)
    (transaction_index o) (generated_transaction_index o)
    v (bandwidth_usage_index o)
    (staked_balance_index o) (contract_tables o).
Definition set_bandwidth_usage_index (v : gmap account_name N) (o : db_objects) :=
  mk_objects (obj_gpo o) (obj_dgp o) (producer_index o) (producer_votes_index o)
    (account_index o) (permission_index o) (permission_link_index o)
    (transaction_index o) (generated_transaction_index o)
    (block_summary_index o) v
    (staked_balance_index o) (contract_tables o).

Definition set_last_irreversible_block_num (n : N)
    (d : dynamic_global_property_object) :=
  mk_dgp (head_block_number d) (dgp_head_block_id d) (dgp_time d)
    (current_producer d) (current_absolute_slot d) (recent_slots_filled d)
    (averge_block_size d) n (block_merkle_root d).

Definition set_producers_of_gpo
    (active : producer_schedule_type)
    (pending : list (block_num_type * producer_schedule_type))
    (g : global_property_object) :=
  mk_gpo (configuration g) active pending.

(** Reading and writing the objects of [_db]. *)
Definition the_objects : M db_objects := fun c => Ok (objects (_db c)) c.
Definition modify_objects (f : db_objects -> db_objects) : M unit :=
  modify_state (set_db (with_objects f)).
Definition modify_db (f : database -> database) : M unit :=
  modify_state (set_db f).
Definition modify_fork_db (f : fork_database -> fork_database) : M unit :=
  modify_state (set_fork_db f).
Definition read {A} (f : chain_controller -> A) : M A := fun c => Ok (f c) c.

(** [vector::resize], [back()] and the like. *)
Definition resize {A} (n : nat) (d : A) (l : list A) : list A :=
  take n l ++ replicate (n - length l) d.
Definition modify_back {A} (f : A -> A) (l : list A) : list A :=
  match length l with
  | O => l
  | S n => alter f n l
  end.
(** [std::set::insert] on a sorted duplicate-free list. *)
Fixpoint set_insert (x : N) (l : list N) : list N :=
  match l with
  | [] => [x]
  | y :: l' => if x <? y then x :: l else if x =? y then l else y :: set_insert x l'
  end.
(** The numbers [first, first + 1, ..., first + count - 1]. *)
Definition N_range (first : N) (count : nat) : list N :=
  map (fun i => first + N.of_nat i) (seq 0 count).

(** [std::nth_element] under [a->last_confirmed_block_num <
    b->last_confirmed_block_num]: afterwards the element at the chosen
    position is the one a full sort would put there; the model sorts. *)
Fixpoint insert_sorted (x : N) (l : list N) : list N :=
  match l with
  | [] => [x]
  | y :: l' => if x <=? y then x :: l else y :: insert_sorted x l'
  end.
Definition nth_element (l : list N) : list N := foldr insert_sorted [] l.

(** ** The controller's methods *)

Section chain_controller.
Context `{Config, Collaborators}.

Definition is_start_of_round (block_num : block_num_type) : bool :=
  block_num mod blocks_per_round =? 0.

(** *** Read accessors that cannot throw *)

Definition get_global_properties (c : chain_controller) : global_property_object :=
  obj_gpo (objects (_db c)).
Definition get_dynamic_global_properties (c : chain_controller)
  : dynamic_global_property_object :=
  obj_dgp (objects (_db c)).
Definition head_block_time (c : chain_controller) : time_point :=
  dgp_time (get_dynamic_global_properties c).
Definition head_block_num (c : chain_controller) : N :=
  head_block_number (get_dynamic_global_properties c).
Definition head_block_id (c : chain_controller) : block_id_type :=
  dgp_head_block_id (get_dynamic_global_properties c).
Definition last_irreversible_block_num (c : chain_controller) : N :=
  dgp_last_irreversible_block_num (get_dynamic_global_properties c).

Definition is_known_block (c : chain_controller) (id : block_id_type) : bool :=
  is_known_block_fork (_fork_db c) id
  || bool_decide (is_Some (read_block_by_id (_block_log c) id)).

Definition is_known_transaction (c : chain_controller) (id : transaction_id_type)
  : bool :=
  bool_decide (is_Some (transaction_index (objects (_db c)) !! id)).

Definition fetch_block_by_id (c : chain_controller) (id : block_id_type)
  : option signed_block :=
  match fetch_block (_fork_db c) id with
  | Some b => Some (data b)
  | None => read_block_by_id (_block_log c) id
  end.

Definition fetch_block_by_number (c : chain_controller) (n : N)
  : option signed_block :=
  match read_block_by_num (_block_log c) n with
  | Some b => Some b
  | None =>
      if n <=? head_block_num c then
        block ← fork_head (_fork_db c);
        block ← walk_back (length (items (_fork_db c))) (_fork_db c) block n;
        if num block =? n then Some (data block) else None
      else None
  end.

Definition get_block_id_for_num (n : N) : M block_id_type :=
  block <- read (fun c => fetch_block_by_number c n) ;;
  match block with
  | Some b => ret (block_id b)
  | None => throw unknown_block_exception
  end.

Definition get_slot_time (c : chain_controller) (slot_num : N)
  : block_timestamp_type :=
  let slot_num := uint32 slot_num in
  if slot_num =? 0 then mk_timestamp 0
  else if head_block_num c =? 0 then
    let genesis_time := of_time_point (dgp_time (get_dynamic_global_properties c)) in
    of_time_point (to_time_point (mk_timestamp (uint32 (slot genesis_time + slot_num))))
  else
    let head_block_abs_slot := of_time_point (head_block_time c) in
    mk_timestamp (uint32 (slot head_block_abs_slot + slot_num)).

Definition get_slot_at_time (c : chain_controller) (when : block_timestamp_type) : N :=
  let first_slot_time := get_slot_time c 1 in
  if slot when <? slot first_slot_time then 0
  else uint32 (slot when + 2 ^ 32 - slot first_slot_time + 1).

Definition _head_producer_schedule (c : chain_controller) : producer_schedule_type :=
  match list.last (pending_active_producers (get_global_properties c)) with
  | Some item => item.2
  | None => active_producers (get_global_properties c)
  end.

(** [_checkpoints.rbegin()]: the entry with the greatest key. *)
Definition checkpoints_rbegin (m : gmap N block_id_type)
  : option (N * block_id_type) :=
  foldr (fun kv acc =>
           match acc with
           | Some kv' => if kv'.1 <? kv.1 then Some kv else acc
           | None => Some kv
           end) None (map_to_list m).

Definition before_last_checkpoint (c : chain_controller) : bool :=
  match checkpoints_rbegin (_checkpoints c) with
  | Some kv => head_block_num c <=? kv.1
  | None => false
  end.

(** *** Read accessors that can throw *)

(** [_db.get<producer_object, by_owner>(owner_name)]. *)
Definition get_producer (owner_name : account_name) : M producer_object :=
  o <- the_objects ;;
  match producer_index o !! owner_name with
  | Some p => if owner p =? owner_name then ret p else throw key_not_found
  | None => throw key_not_found
  end.

Definition get_permission (level : permission_level) : M permission_object :=
  o <- the_objects ;;
  match permission_index o !! (actor level, permission level) with
  | Some p => ret p
  | None => throw key_not_found
  end.

(** [slot_num] is a [uint32_t]: what the caller passes is taken modulo
    2^32. *)
Definition get_scheduled_producer (slot_num : N) : M account_name :=
  let slot_num := uint32 slot_num in
  dpo <- read get_dynamic_global_properties ;;
  let current_aslot := uint64 (current_absolute_slot dpo + slot_num) in
  gpo <- read get_global_properties ;;
  let index := current_aslot mod blocks_per_round in
  let index := index / producer_repititions in
  match producers (active_producers gpo) !! N.to_nat index with
  | Some pk => ret (producer_name pk)
  | None => throw undefined
  end.

(** *** Scoped settings ([with_skip_flags], [with_applying_block]) *)

Definition with_skip_flags {A} (skip : N) (f : M A) : M A :=
  old <- read _skip_flags ;;
  modify_state (set_skip_flags skip) ;;
  finally f (modify_state (set_skip_flags old)).

Definition with_applying_block {A} (f : M A) : M A :=
  old <- read _currently_applying_block ;;
  modify_state (set_currently_applying_block true) ;;
  finally f (modify_state (set_currently_applying_block old)).

Definition should_check_for_duplicate_transactions (c : chain_controller) : bool :=
  negb (flag_set (_skip_flags c) skip_transaction_dupe_check).
Definition should_check_tapos (c : chain_controller) : bool :=
  negb (flag_set (_skip_flags c) skip_tapos_check).

(** *** Transaction validation *)

Definition require_account (name : account_name) : M unit :=
  o <- the_objects ;;
  FC_ASSERT (bool_decide (name ∈ account_index o)).

Definition require_scope (scope : scope_name) : M unit :=
  if (scope =? eosio_all_scope) || (scope =? eosio_auth_scope) then ret tt
  else require_account scope.

Definition validate_referenced_accounts (trx : transaction) : M unit :=
  for_each (read_scope trx) require_scope ;;
  for_each (write_scope trx) require_scope ;;
  for_each (actions trx) (fun act =>
    require_account (act_scope act) ;;
    for_each (authorization act) (fun auth => require_account (actor auth))).

Definition validate_uniqueness (trx : signed_transaction) : M unit :=
  check <- read should_check_for_duplicate_transactions ;;
  if negb check then ret tt
  else
    o <- the_objects ;;
    EOS_ASSERT (bool_decide (transaction_index o !! trx_id trx = None)) tx_duplicate.

Definition record_transaction (trx : signed_transaction) : M unit :=
  modify_objects (fun o =>
    set_transaction_index
      (<[trx_id trx := mk_transaction_object (trx_id trx) (expiration trx)]>
         (transaction_index o)) o).

Definition validate_tapos (trx : transaction) : M unit :=
  check <- read should_check_tapos ;;
  if negb check then ret tt
  else
    o <- the_objects ;;
    match block_summary_index o !! uint16 (ref_block_num trx) with
    | Some tapos_block_summary =>
        EOS_ASSERT (verify_reference_block trx tapos_block_summary)
                   transaction_exception
    | None => throw key_not_found
    end.

Definition validate_expiration (trx : transaction) : M unit :=
  now <- read head_block_time ;;
  chain_configuration <- read (fun c => configuration (get_global_properties c)) ;;
  EOS_ASSERT (expiration trx
              <=? now + max_transaction_lifetime chain_configuration * 1000000)
             transaction_exception ;;
  EOS_ASSERT (now <=? expiration trx) transaction_exception.

(** *** Authorization *)

Definition lookup_minimum_permission
    (authorizer_account : account_name) (scope : scope_name)
    (act_name : action_name) : M permission_object :=
  o <- the_objects ;;
  let link := permission_link_index o !! (authorizer_account, scope, act_name) in
  let link :=
    match link with
    | Some l => Some l
    | None => permission_link_index o !! (authorizer_account, scope, 0)
    end in
  let permission_key :=
    match link with
    | Some required_permission => (authorizer_account, required_permission)
    | None => (authorizer_account, active_name)
    end in
  match permission_index o !! permission_key with
  | Some p => ret p
  | None => throw key_not_found
  end.

(** The checker object lives through both loops; [used] is what it has
    recorded so far. *)
Definition check_authorization (trx : transaction)
    (provided_keys : list public_key_type) (allow_unused_signatures : bool)
    (provided_accounts : list account_name) : M unit :=
  o <- the_objects ;;
  depth <- read (fun c => max_authority_depth (configuration (get_global_properties c))) ;;
  let lookup p := auth <$> permission_index o !! (actor p, permission p) in
  used <- fold_each (actions trx) [] (fun used act =>
    fold_each (authorization act) used (fun used declared_auth =>
      min_permission <- lookup_minimum_permission (actor declared_auth)
                          (act_scope act) (act_name act) ;;
      flags <- read _skip_flags ;;
      (if negb (flag_set flags skip_authority_check) then
         p <- get_permission declared_auth ;;
         EOS_ASSERT (satisfies (permission_index o) p min_permission)
                    tx_irrelevant_auth
       else ret tt) ;;
      if negb (flag_set flags skip_transaction_signatures) then
        match satisfied lookup provided_keys provided_accounts
                (N.to_nat depth) declared_auth with
        | Some (ok, used') =>
            EOS_ASSERT ok tx_missing_sigs ;; ret (used ++ used')
        | None => throw key_not_found
        end
      else ret used)) ;;
  flags <- read _skip_flags ;;
  if negb allow_unused_signatures
     && negb (flag_set flags skip_transaction_signatures)
  then EOS_ASSERT (all_keys_used provided_keys used) tx_irrelevant_sig
  else ret tt.

(** The keys are recovered against a default-constructed chain id
    ([chain_id_type{}], all zero). *)
Definition check_transaction_authorization (trx : signed_transaction)
    (allow_unused_signatures : bool) : M unit :=
  check_authorization trx (get_signature_keys trx 0) allow_unused_signatures [].

(** *** Block header validation *)

Definition validate_block_header (skip : N) (next_block : signed_block)
  : M producer_object :=
  hid <- read head_block_id ;;
  EOS_ASSERT (hid =? previous next_block) block_validate_exception ;;
  ht <- read head_block_time ;;
  EOS_ASSERT (ht <? to_time_point (timestamp next_block)) block_validate_exception ;;
  (if negb (block_num next_block mod blocks_per_round =? 0) then
     EOS_ASSERT (bool_decide (new_producers next_block = None))
                block_validate_exception
   else ret tt) ;;
  slot_num <- read (fun c => get_slot_at_time c (timestamp next_block)) ;;
  scheduled <- get_scheduled_producer slot_num ;;
  signing_producer <- get_producer scheduled ;;
  (if negb (flag_set skip skip_producer_signature) then
     EOS_ASSERT (validate_signee next_block (signing_key signing_producer))
                block_validate_exception
   else ret tt) ;;
  (if negb (flag_set skip skip_producer_schedule_check) then
     EOS_ASSERT (producer next_block =? owner signing_producer)
                block_validate_exception
   else ret tt) ;;
  FC_ASSERT (calculate_transaction_merkle_root next_block
             =? transaction_mroot next_block) ;;
  ret signing_producer.

(** *** Producer schedule *)

(** The loop of [_calculate_producer_schedule]: [count] advances only
    past producers whose signing key is not null. *)
Fixpoint fill_schedule (votes : list account_name) (count : nat)
    (slots : list producer_key) : M (list producer_key) :=
  match votes with
  | [] => ret slots
  | owner_name :: rest =>
      if bool_decide (count < length slots)%nat then
        p <- get_producer owner_name ;;
        let slots' := <[count := mk_producer_key owner_name (signing_key p)]> slots in
        fill_schedule rest (if signing_key p =? 0 then count else S count) slots'
      else ret slots
  end.

Definition _calculate_producer_schedule : M producer_schedule_type :=
  o <- the_objects ;;
  slots <- fill_schedule (producer_votes_index o) 0
             (replicate (N.to_nat producer_count) (mk_producer_key 0 0)) ;;
  hps <- read _head_producer_schedule ;;
  let schedule := mk_schedule (version hps) slots in
  if bool_decide (hps = schedule) then ret schedule
  else ret (mk_schedule (uint32 (version hps + 1)) slots).

Definition update_global_properties (b : signed_block) : M unit :=
  if is_start_of_round (block_num b) then
    schedule <- _calculate_producer_schedule ;;
    match new_producers b with
    | Some np => FC_ASSERT (bool_decide (schedule = np))
    | None => ret tt
    end ;;
    hps <- read _head_producer_schedule ;;
    (if negb (bool_decide (hps = schedule)) then
       FC_ASSERT (bool_decide (is_Some (new_producers b)))
     else ret tt) ;;
    modify_objects (fun o =>
      let props := obj_gpo o in
      let pending := pending_active_producers props in
      let pending' :=
        match list.last pending with
        | Some back =>
            if back.1 =? block_num b
            then modify_back (fun _ => (back.1, schedule)) pending
            else pending ++ [(block_num b, schedule)]
        | None => pending ++ [(block_num b, schedule)]
        end in
      set_gpo (set_producers_of_gpo (active_producers props) pending' props) o) ;;
    gpo <- read get_global_properties ;;
    let active_producers_authority :=
      mk_authority producers_authority_threshold []
        (map (fun name => (mk_level (producer_name name) active_name, 1))
             (producers (active_producers gpo))) in
    o <- the_objects ;;
    match permission_index o !! (producers_account_name, active_name) with
    | Some po =>
        modify_objects (fun o =>
          set_permission_index
            (<[(producers_account_name, active_name) :=
                 mk_permission (perm_owner po) (perm_name po) (perm_parent po)
                               active_producers_authority]>
               (permission_index o)) o)
    | None => throw key_not_found
    end
  else ret tt.

(** *** Bookkeeping after a block *)

Definition create_block_summary (next_block : signed_block) : M unit :=
  let sid := N.land (block_num next_block) 65535 in
  o <- the_objects ;;
  match block_summary_index o !! sid with
  | Some _ =>
      modify_objects (fun o =>
        set_block_summary_index
          (<[sid := block_id next_block]> (block_summary_index o)) o)
  | None => throw key_not_found
  end.

(** The body is commented out in the source. *)
Definition clear_expired_transactions : M unit := ret tt.

Definition sub32 (a b : N) : N := uint32 (a + 2 ^ 32 - b).

Definition update_global_dynamic_data (b : signed_block) : M unit :=
  _dgp <- read get_dynamic_global_properties ;;
  let bmroot := merkle (block_merkle_root _dgp) in
  FC_ASSERT (bmroot =? block_mroot b) ;;
  hbn <- read head_block_num ;;
  slot_num <- read (fun c =>
    get_slot_at_time c (of_time_point (to_time_point (timestamp b)))) ;;
  let missed_blocks := if hbn =? 0 then 1 else slot_num in
  (if missed_blocks =? 0 then throw undefined else ret tt) ;;
  let missed_blocks := missed_blocks - 1 in
  for_each (N_range 0 (N.to_nat missed_blocks)) (fun i =>
    scheduled <- get_scheduled_producer (i + 1) ;;
    producer_missed <- get_producer scheduled ;;
    if negb (owner producer_missed =? producer b) then
      modify_objects (fun o =>
        set_producer_index
          (alter (fun w => mk_producer (owner w) (signing_key w)
                             (last_confirmed_block_num w) (last_aslot w)
                             (uint32 (total_missed w + 1)))
                 scheduled (producer_index o)) o)
    else ret tt) ;;
  (* head_block_id() inside the modify callback reads the object being
     modified, whose head_block_id is already b.id() *)
  modify_objects (fun o =>
    let dgp := obj_dgp o in
    set_dgp
      (mk_dgp (block_num b) (block_id b) (to_time_point (timestamp b))
         (producer b)
         (uint64 (current_absolute_slot dgp + (missed_blocks + 1)))
         (if missed_blocks <? 64 then
            uint64 (uint64 (uint64 (recent_slots_filled dgp * 2) + 1)
                    * 2 ^ missed_blocks)
          else 0)
         (add_usage (averge_block_size dgp) (pack_size b)
                    (to_time_point (timestamp b)))
         (dgp_last_irreversible_block_num dgp)
         (block_merkle_root dgp ++ [block_id b])) o) ;;
  _dgp <- read get_dynamic_global_properties ;;
  modify_fork_db
    (fork_set_max_size
       (uint32 (sub32 (head_block_number _dgp)
                      (dgp_last_irreversible_block_num _dgp) + 1))).

Definition update_signing_producer (signing_producer : producer_object)
    (new_block : signed_block) : M unit :=
  dpo <- read get_dynamic_global_properties ;;
  slot_num <- read (fun c =>
    get_slot_at_time c (of_time_point (to_time_point (timestamp new_block)))) ;;
  let new_block_aslot := uint64 (current_absolute_slot dpo + slot_num) in
  modify_objects (fun o =>
    set_producer_index
      (alter (fun _wit => mk_producer (owner _wit) (signing_key _wit)
                            (block_num new_block) new_block_aslot
                            (total_missed _wit))
             (owner signing_producer) (producer_index o)) o).

(** *** Irreversibility *)

(** The loop that erases the activated entries.  [gpo] and [props]
    name the same object of the store, so the loop test and the
    [erase] see one list. *)
Definition erase_activated (fuel : nat) (new_last_irreversible_block_num : N)
  : M unit :=
  while_loop fuel
    (read (fun c =>
       negb (bool_decide (pending_active_producers (get_global_properties c) = []))))
    (gpo <- read get_global_properties ;;
     match pending_active_producers gpo with
     | front :: rest =>
         if front.1 <? new_last_irreversible_block_num then
           modify_objects (fun o =>
             set_gpo (set_producers_of_gpo (active_producers (obj_gpo o))
                        (tail (pending_active_producers (obj_gpo o)))
                        (obj_gpo o)) o)
         else ret tt
     | [] => throw undefined
     end).

Definition update_last_irreversible_block (fuel : nat) : M unit :=
  gpo <- read get_global_properties ;;
  dpo <- read get_dynamic_global_properties ;;
  producer_objs <- map_each (producers (active_producers gpo))
                     (fun pk => get_producer (producer_name pk)) ;;
  let offset :=
    EOS_PERCENT (N.of_nat (length producer_objs))
                (percent_100 - irreversible_threshold_percent) in
  let arranged := nth_element (map last_confirmed_block_num producer_objs) in
  new_last_irreversible_block_num <-
    match arranged !! N.to_nat offset with
    | Some n => ret n
    | None => throw undefined
    end ;;
  when (dgp_last_irreversible_block_num dpo <? new_last_irreversible_block_num)
    (modify_objects (fun o =>
       set_dgp (set_last_irreversible_block_num
                  new_last_irreversible_block_num (obj_dgp o)) o)) ;;
  old_last_irreversible_block <- read (fun c => log_head (_block_log c)) ;;
  let last_block_on_disk :=
    match old_last_irreversible_block with
    | Some b => block_num b
    | None => 0
    end in
  when (last_block_on_disk <? new_last_irreversible_block_num)
    (for_each
       (N_range (last_block_on_disk + 1)
          (N.to_nat (new_last_irreversible_block_num - last_block_on_disk)))
       (fun block_to_write =>
          block <- read (fun c => fetch_block_by_number c block_to_write) ;;
          match block with
          | Some b =>
              fun c =>
                match log_append b (_block_log c) with
                | Ok _ l => Ok tt (set_block_log l c)
                | Throw e _ => Throw e c
                | Diverge => Diverge
                end
          | None => throw undefined
          end)) ;;
  when (last_block_on_disk <? new_last_irreversible_block_num)
    (let new_producer_schedule :=
       foldl (fun found item =>
                if item.1 <? new_last_irreversible_block_num
                then Some item.2 else found)
             None (pending_active_producers gpo) in
     match new_producer_schedule with
     | Some new_schedule =>
         erase_activated fuel new_last_irreversible_block_num ;;
         modify_objects (fun o =>
           set_gpo (set_producers_of_gpo new_schedule
                      (pending_active_producers (obj_gpo o))
                      (obj_gpo o)) o)
     | None => ret tt
     end) ;;
  hbn <- read head_block_num ;;
  modify_fork_db
    (fork_set_max_size
       (uint32 (sub32 hbn new_last_irreversible_block_num + 1))) ;;
  modify_db (commit new_last_irreversible_block_num).

(** *** Applying transactions *)

(** Contract code runs on the objects of the store. *)
Definition on_objects {A} (m : St db_objects A) : M A :=
  fun c =>
    match m (objects (_db c)) with
    | Ok a o => Ok a (set_db (with_objects (fun _ => o)) c)
    | Throw e o => Throw e (set_db (with_objects (fun _ => o)) c)
    | Diverge => Diverge
    end.

Definition make_metadata (trx : signed_transaction) (chain_id : chain_id_type)
    (region cycle_index shard_index : N) : transaction_metadata :=
  mk_meta trx (trx_id trx) region cycle_index shard_index (bandwidth_usage trx).

Definition _apply_cycle_trace (res : cycle_trace) : M unit :=
  for_each (shard_traces res) (fun st =>
    for_each (transaction_traces st) (fun tr =>
      for_each (deferred_transactions tr) (fun dt =>
        modify_objects (fun o =>
          set_generated_transaction_index
            (generated_transaction_index o ++
               [mk_generated (deferred_id dt) (sender dt) (sender_id dt)
                  (expiration (dt_trx dt)) (execute_after dt) (pack dt)]) o)))).

Definition _apply_transaction (meta : transaction_metadata) : M transaction_trace :=
  result <- fold_each (actions (meta_trx meta)) (mk_trx_trace (meta_id meta) [] [])
    (fun result act =>
       results <- on_objects (exec (meta_trx meta) act) ;;
       let applied_actions := results.1 in
       let generated_transactions := results.2 in
       ret (mk_trx_trace (tt_id result)
              (action_traces result ++ applied_actions)
              (deferred_transactions result ++ generated_transactions))) ;;
  let result :=
    mk_trx_trace (tt_id result)
      (map (fun at_ => mk_action_trace (receiver at_) (act at_) (console at_)
                         (meta_region_id meta) (meta_cycle_index meta)
                         (at_shard_index at_))
           (action_traces result))
      (deferred_transactions result) in
  let authorizing_accounts :=
    foldl (fun accounts act =>
             foldl (fun accounts auth => set_insert (actor auth) accounts)
                   accounts (authorization act))
          [] (actions (meta_trx meta)) in
  let trx_size :=
    meta_bandwidth_usage meta + fixed_bandwidth_overhead_per_transaction in
  head_time <- read head_block_time ;;
  for_each authorizing_accounts (fun authaccnt =>
    o <- the_objects ;;
    match bandwidth_usage_index o !! authaccnt with
    | Some bytes =>
        modify_objects (fun o =>
          set_bandwidth_usage_index
            (<[authaccnt := add_usage bytes trx_size head_time]>
               (bandwidth_usage_index o)) o)
    | None => throw key_not_found
    end ;;
    o <- the_objects ;;
    match staked_balance_index o !! authaccnt with
    | Some _ => ret tt
    | None => throw key_not_found
    end) ;;
  ret result.

(** [shard_trace::append], [shard_trace::calculate_root] and
    [block_trace::calculate_action_merkle_root]. *)
Definition shard_append (res : transaction_trace) (s : shard_trace) : shard_trace :=
  mk_shard_trace (shard_root s) (transaction_traces s ++ [res]).

Definition calculate_root (s : shard_trace) : shard_trace :=
  mk_shard_trace
    (merkle (map action_trace_digest
               (concat (map action_traces (transaction_traces s)))))
    (transaction_traces s).

Definition calculate_action_merkle_root (t : block_trace) : digest_type :=
  merkle (map shard_root
            (concat (map shard_traces
                       (concat (map cycle_traces (region_traces t)))))).

(** *** Finishing a block *)

Definition _finalize_block (fuel : nat) (trace : block_trace) : M unit :=
  let b := trace_block trace in
  flags <- read _skip_flags ;;
  signing_producer <- validate_block_header flags b ;;
  update_global_properties b ;;
  update_global_dynamic_data b ;;
  update_signing_producer signing_producer b ;;
  update_last_irreversible_block fuel ;;
  create_block_summary b ;;
  clear_expired_transactions.

(** *** The pending block *)

Definition on_pending_block (f : signed_block -> signed_block) : M unit :=
  b <- read _pending_block ;;
  match b with
  | Some b => modify_state (set_pending_block (Some (f b)))
  | None => throw undefined
  end.

Definition with_regions (f : list region_summary -> list region_summary)
    (b : signed_block) : signed_block :=
  mk_block (previous b) (timestamp b) (producer b) (transaction_mroot b)
    (action_mroot b) (block_mroot b) (new_producers b) (producer_signature b)
    (f (regions b)) (input_transactions b).

Definition with_cycles (f : list cycle -> list cycle) (r : region_summary)
  : region_summary :=
  mk_region (region r) (f (cycles_summary r)).

Definition on_pending_cycle_trace (f : cycle_trace -> cycle_trace) : M unit :=
  t <- read _pending_cycle_trace ;;
  match t with
  | Some t => modify_state (set_pending_cycle_trace (Some (f t)))
  | None => throw undefined
  end.

Definition _start_pending_shard : M unit :=
  on_pending_block
    (with_regions (modify_back (with_cycles (modify_back (fun bcycle =>
       resize (length bcycle + 1) [] bcycle))))) ;;
  on_pending_cycle_trace (fun t =>
    mk_cycle_trace
      (resize (length (shard_traces t) + 1) (mk_shard_trace 0 []) (shard_traces t))).

Definition _start_pending_cycle : M unit :=
  on_pending_block (fun b =>
    let n :=
      match regions b with
      | r0 :: _ => length (cycles_summary r0)
      | [] => O
      end in
    with_regions (modify_back (with_cycles (resize (n + 1) []))) b) ;;
  modify_state (set_pending_cycle fresh_cycle_state) ;;
  modify_state (set_pending_cycle_trace (Some (mk_cycle_trace []))) ;;
  _start_pending_shard.

Definition empty_block : signed_block :=
  mk_block 0 (mk_timestamp 0) 0 0 0 0 None 0 [] [].

Definition _start_pending_block : M unit :=
  b <- read _pending_block ;;
  FC_ASSERT (negb (bool_decide (is_Some b))) ;;
  modify_state (set_pending_block (Some empty_block)) ;;
  modify_state (set_pending_block_trace (Some (mk_block_trace empty_block []))) ;;
  modify_db start_undo_session ;;
  modify_state (set_pending_block_session (Some (mk_session true))) ;;
  on_pending_block (with_regions (resize 1 (mk_region 0 []))) ;;
  modify_state (fun c =>
    set_pending_block_trace
      (option_map (fun t => mk_block_trace (trace_block t)
                              (resize 1 (mk_region_trace []) (region_traces t)))
                  (_pending_block_trace c)) c) ;;
  _start_pending_cycle.

Definition _finalize_pending_cycle : M unit :=
  on_pending_cycle_trace (fun t => mk_cycle_trace (map calculate_root (shard_traces t))) ;;
  t <- read _pending_cycle_trace ;;
  match t with
  | Some pending_cycle_trace =>
      _apply_cycle_trace pending_cycle_trace ;;
      modify_state (fun c =>
        set_pending_block_trace
          (option_map
             (fun bt => mk_block_trace (trace_block bt)
                (modify_back (fun rt => mk_region_trace
                                (cycle_traces rt ++ [pending_cycle_trace]))
                             (region_traces bt)))
             (_pending_block_trace c)) c) ;;
      modify_state (set_pending_cycle_trace None)
  | None => throw undefined
  end.

(** *** Applying a block *)

Fixpoint regions_in_order (rs : list region_summary) : bool :=
  match rs with
  | r1 :: (r2 :: _) as rest => (region r1 <? region r2) && regions_in_order rest
  | _ => true
  end.

Definition with_index {A} (l : list A) : list (N * A) :=
  zip (N_range 0 (length l)) l.

Definition __apply_block (fuel : nat) (next_block : signed_block) : M unit :=
  skip <- read _skip_flags ;;
  signing_producer <- validate_block_header skip next_block ;;
  FC_ASSERT (regions_in_order (regions next_block)) ;;
  let trx_index : gmap transaction_id_type signed_transaction :=
    foldl (fun m t => <[trx_id t := t]> m) ∅ (input_transactions next_block) in
  region_traces <- map_each (regions next_block) (fun r =>
    cycle_traces <- map_each (with_index (cycles_summary r)) (fun ic =>
      let cycle_index := ic.1 in
      shard_traces <- map_each (with_index ic.2) (fun js =>
        let shard_index := js.1 in
        s_trace <- fold_each js.2 (mk_shard_trace 0 []) (fun s_trace receipt =>
          if bool_decide (status receipt = executed) then
            match trx_index !! receipt_id receipt with
            | Some trx =>
                let mtrx := make_metadata trx get_chain_id (region r)
                              cycle_index shard_index in
                t <- _apply_transaction mtrx ;;
                ret (shard_append t s_trace)
            | None => FC_ASSERT false ;; ret s_trace
            end
          else ret s_trace) ;;
        ret (calculate_root s_trace)) ;;
      let c_trace := mk_cycle_trace shard_traces in
      _apply_cycle_trace c_trace ;;
      ret c_trace) ;;
    ret (mk_region_trace cycle_traces)) ;;
  let next_block_trace := mk_block_trace next_block region_traces in
  FC_ASSERT (action_mroot next_block
             =? calculate_action_merkle_root next_block_trace) ;;
  _finalize_block fuel next_block_trace.

Definition _apply_block (fuel : nat) (next_block : signed_block) (skip : N)
  : M unit :=
  let block_num := block_num next_block in
  checkpoints <- read _checkpoints ;;
  skip <-
    match checkpoints_rbegin checkpoints with
    | Some last_checkpoint =>
        if negb (last_checkpoint.2 =? 0) then
          match checkpoints !! block_num with
          | Some id => FC_ASSERT (block_id next_block =? id)
          | None => ret tt
          end ;;
          ret (if block_num <=? last_checkpoint.1 then 2 ^ 32 - 1 else skip)
        else ret skip
    | None => ret skip
    end ;;
  with_applying_block (with_skip_flags skip (__apply_block fuel next_block)).

(** *** Popping and clearing *)

(** [optional<session>::reset()]: a session that was neither pushed nor
    squashed rolls back when it is destroyed. *)
Definition reset_pending_block_session : M unit :=
  s <- read _pending_block_session ;;
  match s with
  | Some sess => when (session_apply sess) (modify_db undo)
  | None => ret tt
  end ;;
  modify_state (set_pending_block_session None).

Definition pop_block : M unit :=
  reset_pending_block_session ;;
  head_id <- read head_block_id ;;
  head_block <- read (fun c => fetch_block_by_id c head_id) ;;
  EOS_ASSERT (bool_decide (is_Some head_block)) pop_empty_chain ;;
  modify_fork_db fork_pop_block ;;
  modify_db undo.

Definition clear_pending : M unit :=
  modify_state (set_pending_block_trace None) ;;
  modify_state (set_pending_block None) ;;
  reset_pending_block_session.

(** *** Pushing a block *)

(** [auto session = _db.start_undo_session(true); _apply_block(b, skip);
    session.push();] -- if the block throws, the session goes out of
    scope unpushed and is rolled back. *)
Definition apply_in_session (fuel : nat) (b : signed_block) (skip : N) : M unit :=
  modify_db start_undo_session ;;
  r <- try_catch (_apply_block fuel b skip) ;;
  match r with
  | inr _ => ret tt
  | inl e => modify_db undo ;; throw e
  end.

(** [while (head_block_id() != branches.second.back()->data.previous)
    pop_block();] *)
Definition pop_to (fuel : nat) (fork_point : block_id_type) : M unit :=
  while_loop fuel (read (fun c => negb (head_block_id c =? fork_point))) pop_block.

(** The loop over [branches.first] from its root end, with the handler
    that restores [branches.second]. *)
Fixpoint push_fork_blocks (fuel : nat) (skip : N)
    (new_branch : list fork_item) (branches_second : list fork_item)
    (fork_point : block_id_type) : M unit :=
  match new_branch with
  | [] => ret tt
  | ritr :: rest =>
      except <- try_catch (apply_in_session fuel (data ritr) skip) ;;
      match except with
      | inr _ => push_fork_blocks fuel skip rest branches_second fork_point
      | inl e =>
          for_each (ritr :: rest) (fun i =>
            modify_fork_db (fork_remove (block_id (data i)))) ;;
          match branches_second with
          | front :: _ => modify_fork_db (fork_set_head front)
          | [] => throw undefined
          end ;;
          pop_to fuel fork_point ;;
          for_each (rev branches_second) (fun i =>
            apply_in_session fuel (data i) skip) ;;
          throw e
      end
  end.

Definition _push_block (fuel : nat) (new_block : signed_block) : M bool :=
  skip <- read _skip_flags ;;
  let apply_to_head :=
    r <- try_catch (apply_in_session fuel new_block skip) ;;
    match r with
    | inr _ => ret false
    | inl e => modify_fork_db (fork_remove (block_id new_block)) ;; throw e
    end in
  if negb (flag_set skip skip_fork_db) then
    new_head <- (fun c =>
      let '(h, f) := fork_push_block new_block (_fork_db c) in
      Ok h (set_fork_db (fun _ => f) c)) ;;
    hid <- read head_block_id ;;
    if negb (previous (data new_head) =? hid) then
      hbn <- read head_block_num ;;
      if hbn <? block_num (data new_head) then
        branches <- (fun c =>
          match fetch_branch_from (_fork_db c)
                  (block_id (data new_head)) (head_block_id c) with
          | Some br => Ok br c
          | None => Throw no_common_ancestor c
          end) ;;
        match list.last branches.2 with
        | Some back =>
            let fork_point := previous (data back) in
            pop_to fuel fork_point ;;
            push_fork_blocks fuel skip (rev branches.1) branches.2 fork_point ;;
            ret true
        | None => throw undefined
        end
      else ret false
    else apply_to_head
  else apply_to_head.

(** Modelled from the spec: [without_pending_transactions] is declared
    in the controller's header.  A block is pushed on the clean state of
    the head block: the pending block is cleared first (IDLE in the
    state machine of section 4.F). *)
Definition without_pending_transactions {A} (f : M A) : M A :=
  clear_pending ;; f.

(** The public operation is declared [void]: the result of
    [_push_block] is dropped. *)
Definition push_block (fuel : nat) (new_block : signed_block) (skip : N) : M unit :=
  with_skip_flags skip
    (without_pending_transactions (_push_block fuel new_block)) ;;
  ret tt.

(** *** Pushing a transaction *)

(** [schedule] returns an unsigned 32-bit shard number, -1 being its
    greatest value. *)
Definition schedule_pending (trx : signed_transaction) : M N :=
  fun c =>
    let '(shardnum, st) := schedule trx (_pending_cycle c) in
    Ok (Z.to_N (shardnum mod 2 ^ 32)) (set_pending_cycle st c).

Definition no_shard : N := 2 ^ 32 - 1.

(** [_pending_block->regions.back()] and its [cycles_summary.back()]. *)
Definition pending_back_region (c : chain_controller) : option region_summary :=
  b ← _pending_block c; list.last (regions b).
Definition pending_back_cycle (c : chain_controller) : option cycle :=
  r ← pending_back_region c; list.last (cycles_summary r).

Definition with_input_transactions
    (f : list signed_transaction -> list signed_transaction) (b : signed_block)
  : signed_block :=
  mk_block (previous b) (timestamp b) (producer b) (transaction_mroot b)
    (action_mroot b) (block_mroot b) (new_producers b) (producer_signature b)
    (regions b) (f (input_transactions b)).

Definition _push_transaction (trx : signed_transaction) : M transaction_trace :=
  pb <- read _pending_block ;;
  when (negb (bool_decide (is_Some pb))) _start_pending_block ;;
  modify_db start_undo_session ;;
  r <- try_catch (
    validate_referenced_accounts trx ;;
    check_transaction_authorization trx false ;;
    shardnum <- schedule_pending trx ;;
    back_region <-
      (r <- read pending_back_region ;;
       match r with
       | Some r => ret r
       | None => throw undefined
       end) ;;
    let cyclenum := uint64 (N.of_nat (length (cycles_summary back_region)) + 2 ^ 64 - 1) in
    let cyclenum := if shardnum =? no_shard then uint64 (cyclenum + 1) else cyclenum in
    let mtrx := make_metadata trx get_chain_id (region back_region) cyclenum 0 in
    result <- _apply_transaction mtrx ;;
    shardnum <-
      (if shardnum =? no_shard then
         _finalize_pending_cycle ;;
         _start_pending_cycle ;;
         schedule_pending trx
       else ret shardnum) ;;
    bcycle <-
      (r <- read pending_back_cycle ;;
       match r with
       | Some bcycle => ret bcycle
       | None => throw undefined
       end) ;;
    when (N.of_nat (length bcycle) <=? shardnum) _start_pending_shard ;;
    let tid := trx_id trx in
    bcycle <-
      (r <- read pending_back_cycle ;;
       match r with
       | Some bcycle => ret bcycle
       | None => throw undefined
       end) ;;
    (if bool_decide (N.to_nat shardnum < length bcycle)%nat then
       on_pending_block
         (with_regions (modify_back (with_cycles (modify_back
            (alter (fun shard => shard ++ [mk_receipt executed tid])
                   (N.to_nat shardnum))))))
     else throw out_of_range) ;;
    pct <- read _pending_cycle_trace ;;
    match pct with
    | Some t =>
        if bool_decide (N.to_nat shardnum < length (shard_traces t))%nat then
          on_pending_cycle_trace (fun t =>
            mk_cycle_trace (alter (shard_append result) (N.to_nat shardnum)
                                  (shard_traces t)))
        else throw out_of_range
    | None => throw undefined
    end ;;
    on_pending_block (with_input_transactions (fun l => l ++ [trx])) ;;
    modify_db squash ;;
    ret result) ;;
  match r with
  | inr result => ret result
  | inl e => modify_db undo ;; throw e
  end.

Definition push_transaction (trx : signed_transaction) (skip : N)
  : M transaction_trace :=
  with_skip_flags skip (_push_transaction trx).

(** *** Producing a block *)

Definition _generate_block (fuel : nat) (when_ : block_timestamp_type)
    (producer_ : account_name) (block_signing_key : N) : M signed_block :=
  skip <- read _skip_flags ;;
  slot_num <- read (fun c => get_slot_at_time c when_) ;;
  FC_ASSERT (0 <? slot_num) ;;
  scheduled_producer <- get_scheduled_producer slot_num ;;
  FC_ASSERT (scheduled_producer =? producer_) ;;
  producer_obj <- get_producer scheduled_producer ;;
  pb <- read _pending_block ;;
  when (negb (bool_decide (is_Some pb))) _start_pending_block ;;
  _finalize_pending_cycle ;;
  (if negb (flag_set skip skip_producer_signature) then
     FC_ASSERT (signing_key producer_obj =? get_public_key block_signing_key)
   else ret tt) ;;
  hid <- read head_block_id ;;
  dgp <- read get_dynamic_global_properties ;;
  trace <- read _pending_block_trace ;;
  on_pending_block (fun b =>
    let b :=
      mk_block hid when_ (owner producer_obj) (transaction_mroot b)
        (action_mroot b) (merkle (block_merkle_root dgp)) (new_producers b)
        (producer_signature b) (regions b) (input_transactions b) in
    mk_block (previous b) (timestamp b) (producer b)
      (calculate_transaction_merkle_root b)
      (match trace with
       | Some t => calculate_action_merkle_root t
       | None => action_mroot b
       end)
      (block_mroot b) (new_producers b) (producer_signature b) (regions b)
      (input_transactions b)) ;;
  (match trace with Some _ => ret tt | None => throw undefined end) ;;
  pb <- read _pending_block ;;
  (if is_start_of_round (from_option block_num 0 pb) then
     latest_producer_schedule <- _calculate_producer_schedule ;;
     hps <- read _head_producer_schedule ;;
     if negb (bool_decide (latest_producer_schedule = hps)) then
       on_pending_block (fun b =>
         mk_block (previous b) (timestamp b) (producer b) (transaction_mroot b)
           (action_mroot b) (block_mroot b) (Some latest_producer_schedule)
           (producer_signature b) (regions b) (input_transactions b))
     else ret tt
   else ret tt) ;;
  (if negb (flag_set skip skip_producer_signature) then
     on_pending_block (fun b =>
       mk_block (previous b) (timestamp b) (producer b) (transaction_mroot b)
         (action_mroot b) (block_mroot b) (new_producers b)
         (sign b block_signing_key) (regions b) (input_transactions b))
   else ret tt) ;;
  (* the trace refers to the pending block, which now has its header *)
  pb <- read _pending_block ;;
  trace <- read _pending_block_trace ;;
  match pb, trace with
  | Some b, Some t =>
      _finalize_block fuel (mk_block_trace b (region_traces t)) ;;
      (* [_pending_block_session->push()] *)
      session <- read _pending_block_session ;;
      match session with
      | Some _ => modify_state (set_pending_block_session (Some (mk_session false)))
      | None => throw undefined
      end ;;
      let result := b in
      modify_state (set_pending_block_trace None) ;;
      modify_state (set_pending_block None) ;;
      reset_pending_block_session ;;
      (if negb (flag_set skip skip_fork_db) then
         modify_fork_db (fun f => (fork_push_block result f).2)
       else ret tt) ;;
      ret result
  | _, _ => throw undefined
  end.

Definition generate_block (fuel : nat) (when_ : block_timestamp_type)
    (producer_ : account_name) (block_signing_private_key : N) (skip : N)
  : M signed_block :=
  with_skip_flags skip
    (_generate_block fuel when_ producer_ block_signing_private_key).
End chain_controller.

(** * More of the controller

    The methods of [chain_controller.cpp] the sections above leave out,
    with the library algorithms they call. *)

(** ** Scope validation *)

(** [std::lower_bound] on the positions [first .. first + count) of
    [l]: the halving loop of the library. *)
Fixpoint lower_bound (fuel : nat) (l : list N) (value : N) (first count : nat) : nat :=
  match fuel, count with
  | S fuel', S _ =>
      let step := (count / 2)%nat in
      match l !! (first + step)%nat with
      | Some x =>
          if x <? value
          then lower_bound fuel' l value (first + step + 1) (count - (step + 1))
          else lower_bound fuel' l value first step
      | None => first
      end
  | _, _ => first
  end.

(** [std::binary_search]: the element at the lower bound is not above
    [value]. *)
Definition binary_search (l : list N) (value : N) : bool :=
  match l !! lower_bound (length l) l value 0 (length l) with
  | Some x => negb (value <? x)
  | None => false
  end.

(** [std::set_intersection]: one pass over both ranges. *)
Fixpoint set_intersection (l1 : list N) : list N -> list N :=
  fix inner (l2 : list N) : list N :=
    match l1, l2 with
    | x :: l1', y :: l2' =>
        if x <? y then set_intersection l1' l2
        else if y <? x then inner l2'
        else x :: set_intersection l1' l2'
    | _, _ => []
    end.

(** The pairs [(v[i-1], v[i])] for [i = 1 .. size - 1]. *)
Definition adjacent {A} (l : list A) : list (A * A) := zip l (tail l).

Section scope_validation.
Context `{Config, Collaborators}.

Definition validate_scope (trx : transaction) : M unit :=
  for_each (adjacent (read_scope trx)) (fun p =>
    EOS_ASSERT (p.1 <? p.2) transaction_exception) ;;
  for_each (adjacent (write_scope trx)) (fun p =>
    EOS_ASSERT (p.1 <? p.2) transaction_exception) ;;
  let has_write_scope s := binary_search (write_scope trx) s in
  for_each (actions trx) (fun a =>
    for_each (authorization a) (fun auth =>
      FC_ASSERT (has_write_scope (actor auth)))) ;;
  let intersection := set_intersection (read_scope trx) (write_scope trx) in
  FC_ASSERT (bool_decide (length intersection = 0%nat)).
End scope_validation.

(** ** Participation, handlers, checkpoints *)

(** [__builtin_popcountll]: the number of bits set among the low 64. *)
Definition popcountll (n : N) : N :=
  N.of_nat (length (List.filter (N.testbit n) (N_range 0 64))).

(** [_apply_handlers]: per contract, the handlers by scope and action. *)
Abbreviation apply_handlers V :=
  (gmap account_name (gmap (scope_name * action_name) V)) (only parsing).

(** [_apply_handlers[contract][make_pair(scope,action)] = v;] *)
Definition _set_apply_handler {V} (contract : account_name) (scope : scope_name)
    (action : action_name) (v : V) (h : apply_handlers V) : apply_handlers V :=
  <[contract := <[(scope, action) := v]> (default ∅ (h !! contract))]> h.

Definition find_apply_handler {V} (h : apply_handlers V) (receiver : account_name)
    (scope : scope_name) (act : action_name) : option V :=
  match h !! receiver with
  | Some native_handler_scope => native_handler_scope !! (scope, act)
  | None => None
  end.

Definition set_currently_replaying_blocks (b : bool) (c : chain_controller) :=
  mk_controller (_db c) (_fork_db c) (_block_log c) (_pending_block c)
    (_pending_block_trace c) (_pending_block_session c) (_pending_cycle c)
    (_pending_cycle_trace c) (_skip_flags c) (_checkpoints c)
    (_currently_applying_block c) b.

(** [_db.set_revision]. *)
Definition set_revision (r : N) (d : database) : database :=
  mk_db (objects d) (undo_stack d) r.

Section participation_and_replay.
Context `{Config, Collaborators}.

Definition producer_participation_rate (c : chain_controller) : N :=
  let dpo := get_dynamic_global_properties c in
  uint32 (uint64 (uint64 percent_100 * popcountll (recent_slots_filled dpo)) / 64).

(** [for (const auto& i : checkpts) _checkpoints[i.first] = i.second;] *)
Definition add_checkpoints (checkpts : gmap N block_id_type) : M unit :=
  modify_state (fun c => set_checkpoints (checkpts ∪ _checkpoints c) c).

Definition head_block_producer (c : chain_controller) : account_name :=
  match fetch_block (_fork_db c) (head_block_id c) with
  | Some b => producer (data b)
  | None =>
      match fetch_block_by_id c (head_block_id c) with
      | Some head_block => producer head_block
      | None => 0
      end
  end.

(** The flags [replay] applies the blocks of the log with. *)
Definition replay_flags : N :=
  N.lor skip_producer_signature
    (N.lor skip_transaction_signatures
       (N.lor skip_transaction_dupe_check
          (N.lor skip_tapos_check
             (N.lor skip_producer_schedule_check
                (N.lor skip_authority_check received_block))))).

(** [on_exit] clears [_currently_replaying_blocks] however the function
    is left. *)
Definition replay (fuel : nat) : M unit :=
  modify_state (set_currently_replaying_blocks true) ;;
  finally
    (last_block <- read (fun c => log_head (_block_log c)) ;;
     match last_block with
     | None => ret tt
     | Some last_block =>
         let last_block_num := block_num last_block in
         for_each (N_range 1 (N.to_nat last_block_num)) (fun i =>
           block <- read (fun c => read_block_by_num (_block_log c) i) ;;
           match block with
           | Some b => _apply_block fuel b replay_flags
           | None => throw assert_exception
           end) ;;
         hbn <- read head_block_num ;;
         modify_db (set_revision hbn)
     end)
    (modify_state (set_currently_replaying_blocks false)).
End participation_and_replay.

(** * Specification vocabulary

    The notions the claims are phrased in, read off the store and the
    other members. *)

(** [v] is the [k]-th smallest of [l], counting from zero: at most [k]
    entries are below [v] and more than [k] are not above it. *)
Definition is_kth_smallest (k : nat) (v : N) (l : list N) : Prop :=
  (length (filter (fun x => N.lt x v) l) <= k
   /\ k < length (filter (fun x => N.le x v) l))%nat.

Section vocabulary.
Context `{Config, Collaborators}.

(** What [_db.get<producer_object, by_owner>( n )] finds. *)
Definition registered (o : db_objects) (n : account_name) : option producer_object :=
  match producer_index o !! n with
  | Some p => if owner p =? n then Some p else None
  | None => None
  end.

Definition active_producer_objects (c : chain_controller)
  : option (list producer_object) :=
  mapM (fun pk => registered (objects (_db c)) (producer_name pk))
       (producers (active_producers (get_global_properties c))).

(** [(100 - irreversible_threshold_percent) * L / 100]. *)
Definition irreversible_offset (L : nat) : N :=
  EOS_PERCENT (N.of_nat L) (percent_100 - irreversible_threshold_percent).

(** The height of the head of the block log, 0 when it is empty. *)
Definition last_block_on_disk (c : chain_controller) : N :=
  match log_head (_block_log c) with
  | Some b => block_num b
  | None => 0
  end.

(** The block at height [n] on the fork database's head branch. *)
Definition fork_block_at (c : chain_controller) (n : N) : option signed_block :=
  block ← fork_head (_fork_db c);
  block ← walk_back (length (items (_fork_db c))) (_fork_db c) block n;
  if num block =? n then Some (data block) else None.

Definition pending_of (c : chain_controller)
  : list (block_num_type * producer_schedule_type) :=
  pending_active_producers (get_global_properties c).

Definition set_pending (l : list (block_num_type * producer_schedule_type))
    (c : chain_controller) : chain_controller :=
  set_db (with_objects (fun o =>
    set_gpo (set_producers_of_gpo (active_producers (obj_gpo o)) l (obj_gpo o)) o)) c.

Definition set_lib (n : N) (c : chain_controller) : chain_controller :=
  set_db (with_objects (fun o =>
    set_dgp (set_last_irreversible_block_num n (obj_dgp o)) o)) c.

(** The pending schedules for which the erasing loop of
    [update_last_irreversible_block] comes to an end: all of them are
    below the new irreversible height, or none is. *)
Definition pending_settles (new_lib : N)
    (pending : list (block_num_type * producer_schedule_type)) : Prop :=
  Forall (fun item => item.1 < new_lib) pending
  \/ Forall (fun item => new_lib <= item.1) pending.

(** The body of the loop that writes the newly irreversible blocks. *)
Definition append_fetched (block_to_write : N) : M unit :=
  block <- read (fun c => fetch_block_by_number c block_to_write) ;;
  match block with
  | Some b =>
      fun c =>
        match log_append b (_block_log c) with
        | Ok _ l => Ok tt (set_block_log l c)
        | Throw e _ => Throw e c
        | Diverge => Diverge
        end
  | None => throw undefined
  end.

(** The producer [get_scheduled_producer( slot_num )] names. *)
Definition scheduled_producer (c : chain_controller) (slot_num : N)
  : option account_name :=
  producer_name <$>
    producers (active_producers (get_global_properties c))
      !! N.to_nat (uint64 (current_absolute_slot (get_dynamic_global_properties c)
                           + uint32 slot_num)
                   mod blocks_per_round / producer_repititions).

(** What the spec lists for an acceptable header, [name] being the
    scheduled producer and [p] its producer object. *)
Record header_conditions (skip : N) (b : signed_block) (c : chain_controller)
    (name : account_name) (p : producer_object) : Prop := {
  on_head : previous b = head_block_id c;
  later : head_block_time c < to_time_point (timestamp b);
  at_round_start :
    new_producers b <> None -> block_num b mod blocks_per_round = 0;
  by_scheduled :
    flag_set skip skip_producer_schedule_check = false -> producer b = name;
  signed :
    flag_set skip skip_producer_signature = false ->
    validate_signee b (signing_key p) = true;
  mroot : calculate_transaction_merkle_root b = transaction_mroot b }.


(** The controller after [_pending_block_session.reset()] on an open
    session: the store rolled back, the handle gone. *)
Definition rolled_back (c : chain_controller) : chain_controller :=
  set_pending_block_session None (set_db undo c).
End vocabulary.

(** * Relations between the state before and after a computation *)

(** Every outcome of [m] that carries a state carries one related to
    the state [m] started in. *)
Definition preserves {S : Type} (R : relation S) {A} (m : St S A) : Prop :=
  forall s, match m s with
            | Ok _ s' | Throw _ s' => R s s'
            | Diverge => True
            end.

(** [dgp.last_irreversible_block_num] of a store. *)
Definition lib_of (o : db_objects) : N :=
  dgp_last_irreversible_block_num (obj_dgp o).

(** What applying a block on top of the head keeps: the irreversible
    height does not go down, the fork database learns no block, the
    pending session handle stays, the undo stack only loses its oldest
    records, and the block log only grows. *)
Record applied_on_top (c c' : chain_controller) : Prop := {
  lib_kept : lib_of (objects (_db c)) <= lib_of (objects (_db c'));
  items_kept : items (_fork_db c') ⊆ items (_fork_db c);
  session_kept : _pending_block_session c' = _pending_block_session c;
  stack_kept : exists n, undo_stack (_db c') = take n (undo_stack (_db c));
  revision_kept : revision (_db c') = revision (_db c);
  log_kept : _block_log c `prefix_of` _block_log c' }.

Definition never_lowers_lib (c c' : chain_controller) : Prop :=
  lib_of (objects (_db c)) <= lib_of (objects (_db c')).

(** Contract code does not lower the stored irreversible height. *)
Definition contracts_keep_lib `{Config, Collaborators} : Prop :=
  forall trx act o,
    match exec trx act o with
    | Ok _ o' | Throw _ o' => lib_of o <= lib_of o'
    | Diverge => True
    end.

(** One step that extends the chain at its head: the irreversibility
    update, a pushed block that is applied without a fork switch, or a
    generated block. *)
Inductive extends_head `{Config, Collaborators} (c c' : chain_controller) : Prop :=
| extends_by_update fuel :
    update_last_irreversible_block fuel c = Ok tt c' -> extends_head c c'
| extends_by_block fuel b :
    _push_block fuel b c = Ok false c' -> extends_head c c'
| extends_by_generate fuel when_ producer_ key b :
    _generate_block fuel when_ producer_ key c = Ok b c' -> extends_head c c'.

(** One public operation that does not switch forks: the
    irreversibility update, [push_block] whose [_push_block] reports no
    switch (the body of [push_block] before the flag is dropped), or
    [generate_block]. *)
Inductive operates `{Config, Collaborators} (c c' : chain_controller) : Prop :=
| operates_by_update fuel :
    update_last_irreversible_block fuel c = Ok tt c' -> operates c c'
| operates_by_push_block fuel b skip :
    with_skip_flags skip (without_pending_transactions (_push_block fuel b)) c
    = Ok false c' ->
    operates c c'
| operates_by_generate_block fuel when_ producer_ key skip b :
    generate_block fuel when_ producer_ key skip c = Ok b c' -> operates c c'.

(** * Vocabulary of the further properties *)

(** [m] returns in the state it started in, or throws there an
    exception in [E]. *)
Definition checks {S} (E : exception -> Prop) (m : St S unit) : Prop :=
  forall s, m s = Ok tt s \/ exists e, E e /\ m s = Throw e s.

Section vocabulary_of_checks.
Context `{Config, Collaborators}.

(** The slot of the head block's timestamp. *)
Definition head_slot (c : chain_controller) : N :=
  slot (of_time_point (head_block_time c)).

(** What [validate_scope] asks of a transaction: both scope lists
    strictly ascending, every authorizing account in the write scope,
    and no scope in both lists. *)
Definition well_scoped (trx : transaction) : Prop :=
  StronglySorted N.lt (read_scope trx)
  /\ StronglySorted N.lt (write_scope trx)
  /\ Forall (fun a => Forall (fun auth => actor auth ∈ write_scope trx) (authorization a))
            (actions trx)
  /\ forall s, s ∈ read_scope trx -> s ∉ write_scope trx.

Definition scope_error (e : exception) : Prop :=
  e = transaction_exception \/ e = assert_exception.

Definition is_account (c : chain_controller) (n : account_name) : Prop :=
  n ∈ account_index (objects (_db c)).

(** A built-in scope or an account. *)
Definition is_scope (c : chain_controller) (s : scope_name) : Prop :=
  s = eosio_all_scope \/ s = eosio_auth_scope \/ is_account c s.

(** What [validate_referenced_accounts] asks of a transaction. *)
Definition accounts_exist (c : chain_controller) (trx : transaction) : Prop :=
  Forall (is_scope c) (read_scope trx)
  /\ Forall (is_scope c) (write_scope trx)
  /\ Forall (fun act =>
              is_account c (act_scope act)
              /\ Forall (fun auth => is_account c (actor auth)) (authorization act))
            (actions trx).
(** The checker of [check_authorization], given [keys] and no
    accounts, finds the authority [level] satisfied. *)
Definition authority_satisfied (c : chain_controller) (keys : list public_key_type)
    (level : permission_level) : Prop :=
  exists used,
    satisfied
      (fun p => auth <$> permission_index (objects (_db c)) !! (actor p, permission p))
      keys []
      (N.to_nat (max_authority_depth (configuration (get_global_properties c))))
      level
    = Some (true, used).

End vocabulary_of_checks.

(** The same collaborators with another chain id: what
    [get_chain_id()] returns is [id], everything else is as in [K]. *)
Definition with_chain_id (id : chain_id_type) (K : Collaborators) : Collaborators := {|
  get_chain_id := id;
  block_id := @block_id K;
  num_from_id := @num_from_id K;
  validate_signee := @validate_signee K;
  sign := @sign K;
  get_public_key := @get_public_key K;
  trx_id := @trx_id K;
  get_signature_keys := @get_signature_keys K;
  verify_reference_block := @verify_reference_block K;
  merkle := @merkle K;
  calculate_transaction_merkle_root := @calculate_transaction_merkle_root K;
  action_trace_digest := @action_trace_digest K;
  transaction_digest := @transaction_digest K;
  pack := @pack K;
  pack_size := @pack_size K;
  deferred_id := @deferred_id K;
  add_usage := @add_usage K;
  bandwidth_usage := @bandwidth_usage K;
  exec := @exec K |}.


(** * Frames: what a computation leaves alone *)

(** Only the objects of the store and the fork database's index and
    size limit may differ. *)
Record store_only (c c' : chain_controller) : Prop := {
  so_stack : undo_stack (_db c') = undo_stack (_db c);
  so_revision : revision (_db c') = revision (_db c);
  so_items : items (_fork_db c') ⊆ items (_fork_db c);
  so_fork_head : fork_head (_fork_db c') = fork_head (_fork_db c);
  so_log : _block_log c' = _block_log c;
  so_pending_block : _pending_block c' = _pending_block c;
  so_pending_block_trace : _pending_block_trace c' = _pending_block_trace c;
  so_pending_block_session : _pending_block_session c' = _pending_block_session c;
  so_pending_cycle : _pending_cycle c' = _pending_cycle c;
  so_pending_cycle_trace : _pending_cycle_trace c' = _pending_cycle_trace c;
  so_skip_flags : _skip_flags c' = _skip_flags c;
  so_checkpoints : _checkpoints c' = _checkpoints c;
  so_applying : _currently_applying_block c' = _currently_applying_block c;
  so_replaying : _currently_replaying_blocks c' = _currently_replaying_blocks c }.

(** What applying a block leaves alone: the pending block and its
    session, the checkpoints and the flags stay; the fork database
    learns no block, the undo stack only loses its oldest records and
    the block log only grows. *)
Record block_frame (c c' : chain_controller) : Prop := {
  bf_stack : exists n, undo_stack (_db c') = take n (undo_stack (_db c));
  bf_revision : revision (_db c') = revision (_db c);
  bf_items : items (_fork_db c') ⊆ items (_fork_db c);
  bf_fork_head : fork_head (_fork_db c') = fork_head (_fork_db c);
  bf_log : _block_log c `prefix_of` _block_log c';
  bf_pending_block : _pending_block c' = _pending_block c;
  bf_pending_block_trace : _pending_block_trace c' = _pending_block_trace c;
  bf_pending_block_session : _pending_block_session c' = _pending_block_session c;
  bf_pending_cycle : _pending_cycle c' = _pending_cycle c;
  bf_pending_cycle_trace : _pending_cycle_trace c' = _pending_cycle_trace c;
  bf_skip_flags : _skip_flags c' = _skip_flags c;
  bf_checkpoints : _checkpoints c' = _checkpoints c;
  bf_applying : _currently_applying_block c' = _currently_applying_block c;
  bf_replaying : _currently_replaying_blocks c' = _currently_replaying_blocks c }.

(** The dynamic properties but for the irreversible height. *)
Definition head_of (c : chain_controller) : dynamic_global_property_object :=
  set_last_irreversible_block_num 0 (obj_dgp (objects (_db c))).

Definition head_kept (c c' : chain_controller) : Prop := head_of c' = head_of c.

Definition dgp_kept (c c' : chain_controller) : Prop :=
  obj_dgp (objects (_db c')) = obj_dgp (objects (_db c)).

(** What a producer object says apart from its count of missed blocks. *)
Definition standing (w : producer_object) : N * N * N * N :=
  (owner w, signing_key w, last_confirmed_block_num w, last_aslot w).

(** The producer [spared] is as it was, and every producer is but for
    its count of missed blocks. *)
Record charges_others (spared : account_name) (c c' : chain_controller) : Prop := {
  spared_kept :
    producer_index (objects (_db c')) !! spared
    = producer_index (objects (_db c)) !! spared;
  standing_kept : forall n,
    standing <$> producer_index (objects (_db c')) !! n
    = standing <$> producer_index (objects (_db c)) !! n }.

(** The undo records and the revision are as they were. *)
Definition same_undo (c c' : chain_controller) : Prop :=
  undo_stack (_db c') = undo_stack (_db c) /\ revision (_db c') = revision (_db c).

(** The block summary at position [sid] of the ring is there. *)
Definition has_summary (sid : N) (o : db_objects) : Prop :=
  is_Some (block_summary_index o !! sid).

Definition summary_kept (sid : N) (c c' : chain_controller) : Prop :=
  has_summary sid (objects (_db c)) -> has_summary sid (objects (_db c')).

(** Contract code deletes no block summary. *)
Definition contracts_keep_summaries `{Config, Collaborators} : Prop :=
  forall trx act sid o,
    has_summary sid o ->
    match exec trx act o with
    | Ok _ o' | Throw _ o' => has_summary sid o'
    | Diverge => True
    end.

(** A run of [m] that throws from a state with [P] leaves the undo
    records alone. *)
Definition unwinds {A} (P : chain_controller -> Prop) (m : M A) : Prop :=
  forall c e c', P c -> m c = Throw e c' -> same_undo c c'.

(** The objects of the store are as they were. *)
Definition objects_kept (c c' : chain_controller) : Prop :=
  objects (_db c') = objects (_db c).

(** The pending block keeps its place in the chain: parent, time and
    producer. *)
Definition header_kept (c c' : chain_controller) : Prop :=
  forall b, _pending_block c = Some b ->
    exists b', _pending_block c' = Some b'
               /\ previous b' = previous b
               /\ timestamp b' = timestamp b
               /\ producer b' = producer b.

(** The undo records, the revision and the session of the pending
    block are as they were. *)
Definition open_kept (c c' : chain_controller) : Prop :=
  same_undo c c' /\ _pending_block_session c' = _pending_block_session c.

(** What pushing a block leaves alone: the pending block, its trace
    and cycle, the checkpoints and the flags stay, no block session is
    opened, and the block log only grows. *)
Record push_frame (c c' : chain_controller) : Prop := {
  pf_log : _block_log c `prefix_of` _block_log c';
  pf_pending_block : _pending_block c' = _pending_block c;
  pf_pending_block_trace : _pending_block_trace c' = _pending_block_trace c;
  pf_pending_block_session :
    _pending_block_session c' = _pending_block_session c
    \/ _pending_block_session c' = None;
  pf_pending_cycle : _pending_cycle c' = _pending_cycle c;
  pf_pending_cycle_trace : _pending_cycle_trace c' = _pending_cycle_trace c;
  pf_skip_flags : _skip_flags c' = _skip_flags c;
  pf_checkpoints : _checkpoints c' = _checkpoints c;
  pf_applying : _currently_applying_block c' = _currently_applying_block c;
  pf_replaying : _currently_replaying_blocks c' = _currently_replaying_blocks c }.

Section vocabulary_of_blocks.
Context `{Config, Collaborators}.

(** Where the head is once a block is finalized. *)
Definition head_is (b : signed_block) (c : chain_controller) : Prop :=
  head_block_id c = block_id b
  /\ head_block_num c = block_num b
  /\ head_block_time c = to_time_point (timestamp b)
  /\ current_producer (get_dynamic_global_properties c) = producer b.

(** The slots the block [b] skipped: those between the head and
    [b]'s own. *)
Definition missed_slots (b : signed_block) (c : chain_controller) : N :=
  (if head_block_num c =? 0 then 1
   else get_slot_at_time c (of_time_point (to_time_point (timestamp b)))) - 1.

Definition summary_of (b : signed_block) (c : chain_controller) : Prop :=
  has_summary (N.land (block_num b) 65535) (objects (_db c)).

End vocabulary_of_blocks.

(** * Concrete chains

    A small instance of the constants and collaborators on which the
    controller runs by computation: three producers taking turns, a
    block id that spells the height above a digest, signatures that name
    the key and the chain id they were made for, and a contract that
    leaves a trace and changes nothing. *)

Module Toy.
Definition merkle_of (l : list N) : N := foldr (fun d acc => d + 2 * acc + 1) 0 l.
Definition height_of_id (id : N) : N := id / 1000.
Definition id_of_block (b : signed_block) : N :=
  (height_of_id (previous b) + 1) * 1000 + slot (timestamp b) mod 1000.
Definition id_of_trx (t : signed_transaction) : N := expiration t + ref_block_num t.
(** A signature is [key * 1000 + chain id]; recovered against another
    chain id it yields a key nobody holds. *)
Definition sign_with (key chain_id : N) : N := key * 1000 + chain_id.
Definition recover (chain_id s : N) : N :=
  if s mod 1000 =? chain_id then s / 1000 else s + 1.
Definition run_contract (t : signed_transaction) (a : action)
  : St db_objects (list action_trace * list deferred_transaction) :=
  fun o => Ok ([mk_action_trace (act_scope a) a [] 0 0 0], []) o.

#[export] Instance collaborators : Collaborators := {|
  get_chain_id := 7;
  block_id := id_of_block;
  num_from_id := height_of_id;
  validate_signee b k := producer_signature b =? k;
  sign b k := k + 100;
  get_public_key k := k + 100;
  trx_id := id_of_trx;
  get_signature_keys t chain_id := map (recover chain_id) (signatures t);
  verify_reference_block t id := true;
  merkle := merkle_of;
  calculate_transaction_merkle_root b := merkle_of (map id_of_trx (input_transactions b));
  action_trace_digest a := receiver a;
  transaction_digest := id_of_trx;
  pack d := [];
  pack_size b := 0;
  deferred_id d := 0;
  add_usage u n t := u + n;
  bandwidth_usage t := 0;
  exec := run_contract |}.

Definition flags (producers_ per_round : N) : Config := {|
  blocks_per_round := per_round; producer_repititions := 1;
  producer_count := producers_;
  block_interval_ms := 500; block_timestamp_epoch_ms := 0;
  percent_100 := 100; irreversible_threshold_percent := 66;
  active_name := 1; eosio_all_scope := 2; eosio_auth_scope := 3;
  producers_account_name := 4; producers_authority_threshold := 2;
  fixed_bandwidth_overhead_per_transaction := 100;
  skip_producer_signature := 1; skip_transaction_signatures := 2;
  skip_transaction_dupe_check := 4; skip_fork_db := 8;
  skip_tapos_check := 32; skip_authority_check := 64;
  skip_merkle_check := 128; skip_producer_schedule_check := 1024;
  skip_scope_check := 4096; received_block := 65536 |}.

Definition key (p : N) : N := p + 100.

(** An empty block on [prev] at [slot] by [p]; [roots] are the ids the
    chain has accumulated so far. *)
Definition blk (prev s p : N) (roots : list N) : signed_block :=
  mk_block prev (mk_timestamp s) p (merkle_of []) (merkle_of []) (merkle_of roots)
    None (key p) [] [].

Definition item_of (b : signed_block) : fork_item :=
  mk_item b (id_of_block b) (height_of_id (previous b) + 1).

(** The block summaries of the heights the examples reach. *)
Definition ring : gmap N block_id_type :=
  list_to_map (map (fun i => (i, 0)) (N_range 0 32)).

Definition controller (o : db_objects) (stack : list db_objects) (rev : N)
    (fork : list signed_block) (fork_head : option signed_block)
    (log : list signed_block) : chain_controller :=
  mk_controller (mk_db o stack rev)
    (mk_fork_db (map item_of fork) (item_of <$> fork_head) 2)
    log None None None fresh_cycle_state None 0 ∅ false false.
End Toy.

(** ** Three producers *)

Module Three.
Import Toy.
#[export] Instance config : Config := flags 3 3.

Definition A : N := 10.
Definition B : N := 11.
Definition C : N := 12.
Definition abc : producer_schedule_type :=
  mk_schedule 0 [mk_producer_key A (key A); mk_producer_key B (key B);
                 mk_producer_key C (key C)].

Definition store (pending : list (block_num_type * producer_schedule_type))
    (head : signed_block) (head_num aslot lib : N) (roots : list N)
    (confirmed_A confirmed_B confirmed_C : N) : db_objects :=
  mk_objects
    (mk_gpo (mk_chain_config 6 3600) abc pending)
    (mk_dgp head_num (id_of_block head) (slot (timestamp head) * 500000)
       (producer head) aslot 7 0 lib roots)
    (list_to_map [(A, mk_producer A (key A) confirmed_A 0 0);
                  (B, mk_producer B (key B) confirmed_B 0 0);
                  (C, mk_producer C (key C) confirmed_C 0 0)])
    [A; B; C] (list_to_set [A; B; C])
    (list_to_map [((4, 1), mk_permission 4 1 None (mk_authority 2 [] []))])
    ∅ ∅ [] ring ∅ ∅ ∅.

(** The chain [b1; b2; b3], produced by B, C and A in consecutive
    slots. *)
Definition b1 := blk 0 97 B [].
Definition b2 := blk (id_of_block b1) 98 C [id_of_block b1].
Definition b3 := blk (id_of_block b2) 99 A [id_of_block b1; id_of_block b2].
Definition roots3 := [id_of_block b1; id_of_block b2; id_of_block b3].

(** *** A fork at height 3

    Head [b3], blocks 1 and 2 irreversible and in the log.  [X] is B's
    block in the next slot.  [Y] is A's block two slots later on the
    same parent, [Y'] its child, also by A. *)
Definition at_b3 : chain_controller :=
  controller (store [] b3 3 6 2 roots3 3 2 0) [] 3 [b3] (Some b3) [b1; b2].
Definition X := blk (id_of_block b3) 100 B roots3.
Definition Y := blk (id_of_block b3) 102 A roots3.
Definition Y' := blk (id_of_block Y) 105 A (roots3 ++ [id_of_block Y]).
(** [Y'] with a transaction Merkle root that does not match. *)
Definition Y'_bad : signed_block :=
  mk_block (previous Y') (timestamp Y') (producer Y') 999 (action_mroot Y')
    (block_mroot Y') None (producer_signature Y') [] [].

Definition state_of {A} (o : outcome chain_controller A) (otherwise : chain_controller)
  : chain_controller :=
  match o with
  | Ok _ c | Throw _ c => c
  | Diverge => otherwise
  end.

(** After [X], and after [X] and then [Y]. *)
Definition after_X : chain_controller :=
  state_of (push_block 8 X 0 at_b3) at_b3.
Definition after_X_Y : chain_controller :=
  state_of (push_block 8 Y 0 after_X) at_b3.

(** *** A fork at height 4 with a schedule pending

    Head [b4] by B; the schedule announced at height 3 (a start of
    round) is pending, block 3 is irreversible. *)
Definition b4 := blk (id_of_block b3) 100 B roots3.
Definition roots4 := roots3 ++ [id_of_block b4].
Definition at_b4 : chain_controller :=
  controller (store [(3, abc)] b4 4 7 3 roots4 3 4 1) [] 4 [b4] (Some b4)
    [b1; b2; b3].
Definition X5 := blk (id_of_block b4) 101 C roots4.
Definition Y5 := blk (id_of_block b4) 102 A roots4.
Definition Y6 := blk (id_of_block Y5) 105 A (roots4 ++ [id_of_block Y5]).
Definition Y6_bad : signed_block :=
  mk_block (previous Y6) (timestamp Y6) (producer Y6) 999 (action_mroot Y6)
    (block_mroot Y6) None (producer_signature Y6) [] [].
Definition after_X5 : chain_controller :=
  state_of (push_block 8 X5 0 at_b4) at_b4.
Definition after_X5_Y5 : chain_controller :=
  state_of (push_block 8 Y5 0 after_X5) at_b4.

(** *** Seven blocks with two schedules pending

    A alone produced blocks 1 to 6, so nothing became irreversible and
    the schedules announced at heights 3 and 6 are both pending.  B's
    block 7 has just been accounted to B: this is the state in which
    [_finalize_block] calls [update_last_irreversible_block]. *)
Definition extend (l : list signed_block) (s p : N) : list signed_block :=
  l ++ [blk (from_option id_of_block 0 (list.last l)) s p (map id_of_block l)].
Definition chain (turns : list (N * N)) : list signed_block :=
  foldl (fun l sp => extend l sp.1 sp.2) [] turns.
Definition seven : list signed_block :=
  chain [(3, A); (6, A); (9, A); (12, A); (15, A); (18, A); (19, B)].
Definition at_seven : chain_controller :=
  match list.last seven with
  | Some a7 =>
      controller (store [(3, abc); (6, abc)] a7 7 19 0 (map id_of_block seven) 6 7 0)
        [] 7 seven (Some a7) []
  | None => at_b3
  end.

(** *** An empty chain with an account

    [alice] and the contract account [currency] exist; [alice@active]
    is a single key of weight 1. *)
Definition alice : N := 20.
Definition currency : N := 30.
Definition alice_key : N := 520.
Definition genesis_store : db_objects :=
  mk_objects
    (mk_gpo (mk_chain_config 6 3600) abc [])
    (mk_dgp 0 0 (96 * 500000) 0 0 (2 ^ 64 - 1) 0 0 [])
    (list_to_map [(A, mk_producer A (key A) 0 0 0);
                  (B, mk_producer B (key B) 0 0 0);
                  (C, mk_producer C (key C) 0 0 0)])
    [A; B; C] (list_to_set [A; B; C; alice; currency])
    (list_to_map
       [((4, 1), mk_permission 4 1 None (mk_authority 2 [] []));
        ((alice, 1), mk_permission alice 1 None
                       (mk_authority 1 [(alice_key, 1)] []))])
    ∅ ∅ [] ring (list_to_map [(alice, 0)]) (list_to_map [(alice, 1000)]) ∅.
Definition at_genesis : chain_controller :=
  controller genesis_store [] 0 [] None [].

(** A transfer by [alice], signed for chain id [chain_id]. *)
Definition transfer (chain_id : N) : signed_transaction :=
  mk_trx (97 * 500000) 0 0 [] [alice]
    [mk_action currency 5 [mk_level alice 1] [1; 2; 3]]
    [sign_with alice_key chain_id].
End Three.

(** ** Twenty-one producers

    Producers 100 to 120.  Seven of them last confirmed block 8, one
    block 15, the others blocks 16 to 20; block 10 is irreversible and
    heads the log, blocks 11 to 20 are in the fork database. *)

Module TwentyOne.
Import Toy.
#[export] Instance config : Config := flags 21 21.

Definition names : list N := N_range 100 21.
Definition confirmed (i : N) : N :=
  if i <? 7 then 8 else if i =? 7 then 15 else 16 + i mod 5.
Definition producer_objects : list producer_object :=
  map (fun n => mk_producer n (key n) (confirmed (n - 100)) 0 0) names.
Definition schedule : producer_schedule_type :=
  mk_schedule 0 (map (fun n => mk_producer_key n (key n)) names).
Definition twenty : list signed_block :=
  Three.chain (map (fun i => (200 + i, 100 + i)) (N_range 0 20)).
Definition store : db_objects :=
  mk_objects
    (mk_gpo (mk_chain_config 6 3600) schedule [])
    (mk_dgp 20 (from_option id_of_block 0 (list.last twenty)) (219 * 500000)
       119 40 7 0 10 (map id_of_block twenty))
    (list_to_map (map (fun p => (owner p, p)) producer_objects))
    names (list_to_set names) ∅ ∅ ∅ [] ring ∅ ∅ ∅.
Definition at_twenty : chain_controller :=
  controller store (replicate 10 store) 20 (drop 10 twenty) (list.last twenty)
    (take 10 twenty).
End TwentyOne.

(** ** Further blocks and states of the three-producer chain *)

Module More.
Import Toy Three.

(** [X] with an action Merkle root that does not match: the mismatch
    is found once the block's cycles have been applied. *)
Definition X_bad : signed_block :=
  mk_block (previous X) (timestamp X) (producer X) (transaction_mroot X) 999
    (block_mroot X) None (producer_signature X) [] [].

(** [at_b3] with [X] in the fork database. *)
Definition with_X : chain_controller :=
  set_fork_db (fun f => (fork_push_block X f).2) at_b3.

(** The empty chain with [b1] and [b2] in its log, and the chain
    replayed from it. *)
Definition at_start : chain_controller :=
  controller genesis_store [] 0 [] None [b1; b2].
Definition at_b2 : chain_controller :=
  state_of (replay 8 at_start) at_start.

(** [at_b3] with B's producer object removed from the store; B is
    still in the active schedule. *)
Definition at_b3_without_B : chain_controller :=
  set_db (with_objects (fun o =>
    set_producer_index (delete B (producer_index o)) o)) at_b3.

(** Both producer checks skipped. *)
Definition skip_producer_checks : N :=
  N.lor skip_producer_signature skip_producer_schedule_check.

(** A's producer object on top of [b3]. *)
Definition producer_A : producer_object := mk_producer A (key A) 3 0 0.
End More.

(** * Lemmas on the monad *)

Lemma bind_ok {S A B} (m : St S A) (k : A -> St S B) s a s' :
  m s = Ok a s' -> bind m k s = k a s'.
Proof. unfold bind. intros ->. reflexivity. Qed.
Lemma bind_throw {S A B} (m : St S A) (k : A -> St S B) s e s' :
  m s = Throw e s' -> bind m k s = Throw e s'.
Proof. unfold bind. intros ->. reflexivity. Qed.
Lemma bind_diverge {S A B} (m : St S A) (k : A -> St S B) s :
  m s = Diverge -> bind m k s = Diverge.
Proof. unfold bind. intros ->. reflexivity. Qed.
Lemma bind_read {A B} (f : chain_controller -> A) (k : A -> M B) s :
  bind (read f) k s = k (f s) s.
Proof. reflexivity. Qed.
Lemma bind_ret {S A B} (a : A) (k : A -> St S B) s :
  bind (ret a) k s = k a s.
Proof. reflexivity. Qed.
Lemma bind_modify_state {S B} (f : S -> S) (k : unit -> St S B) s :
  bind (modify_state f) k s = k tt (f s).
Proof. reflexivity. Qed.

(** * The k-th smallest entry *)

Lemma insert_sorted_perm x l : insert_sorted x l ≡ₚ x :: l.
Proof.
  induction l as [|y l IH]; [reflexivity|]. cbn.
  destruct (x <=? y); [reflexivity|]. rewrite IH. apply Permutation_swap.
Qed.

Lemma nth_element_perm l : nth_element l ≡ₚ l.
Proof.
  induction l as [|x l IH]; [reflexivity|]. cbn.
  rewrite insert_sorted_perm. by rewrite IH.
Qed.

Lemma insert_sorted_sorted x l :
  StronglySorted N.le l -> StronglySorted N.le (insert_sorted x l).
Proof.
  induction 1 as [|y l Hs IH Hy]; cbn.
  - repeat constructor.
  - destruct (N.leb_spec x y) as [Hxy|Hxy].
    + constructor; [by constructor|]. constructor; [done|].
      eapply List.Forall_impl; [|exact Hy]. cbn. intros; lia.
    + constructor; [done|]. rewrite insert_sorted_perm. constructor; [lia|done].
Qed.

Lemma nth_element_sorted l : StronglySorted N.le (nth_element l).
Proof.
  induction l as [|x l IH]; cbn; [constructor|]. by apply insert_sorted_sorted.
Qed.

Lemma sorted_lookup_split (s : list N) k v :
  StronglySorted N.le s -> s !! k = Some v ->
  Forall (fun x => x <= v) (take k s) /\ Forall (fun x => v <= x) (drop (S k) s).
Proof.
  intros Hs. revert k. induction Hs as [|y s Hs IH Hy]; intros k Hk; [done|].
  destruct k as [|k]; cbn in *.
  - injection Hk as ->. split; [constructor|done].
  - destruct (IH _ Hk) as [H1 H2]. split; [|done].
    constructor; [|done].
    rewrite Forall_forall in Hy. apply Hy. eapply list_elem_of_lookup_2, Hk.
Qed.

Lemma filter_none {A} (P : A -> Prop) `{!forall x, Decision (P x)} (l : list A) :
  Forall (fun x => ~ P x) l -> filter P l = [].
Proof.
  induction 1 as [|x l Hx _ IH]; [done|]. rewrite filter_cons, IH.
  by destruct (decide (P x)).
Qed.

Lemma filter_all {A} (P : A -> Prop) `{!forall x, Decision (P x)} (l : list A) :
  Forall P l -> filter P l = l.
Proof.
  induction 1 as [|x l Hx _ IH]; [done|]. rewrite filter_cons, IH.
  by destruct (decide (P x)).
Qed.

Lemma sorted_lookup_kth (s : list N) k v :
  StronglySorted N.le s -> s !! k = Some v -> is_kth_smallest k v s.
Proof.
  intros Hs Hk. destruct (sorted_lookup_split s k v Hs Hk) as [Hlo Hhi].
  pose proof (take_drop_middle s k v Hk) as Hsplit.
  pose proof (lookup_lt_Some _ _ _ Hk) as Hlen.
  unfold is_kth_smallest. rewrite <- Hsplit at 1 2.
  rewrite !filter_app, !filter_cons, !length_app.
  destruct (decide (v < v)) as [?|_]; [lia|].
  destruct (decide (v <= v)) as [_|?]; [|lia].
  split.
  - assert (filter (fun x => x < v) (drop (S k) s) = []) as ->.
    { apply filter_none. eapply List.Forall_impl; [|exact Hhi]. cbn. intros; lia. }
    pose proof (length_filter (fun x => x < v) (take k s)).
    rewrite length_take in *. cbn. lia.
  - assert (filter (fun x => x <= v) (take k s) = take k s) as ->.
    { apply filter_all. exact Hlo. }
    rewrite length_take. cbn. lia.
Qed.

Lemma is_kth_smallest_perm k v l l' :
  l ≡ₚ l' -> is_kth_smallest k v l -> is_kth_smallest k v l'.
Proof. unfold is_kth_smallest. intros Hp. by rewrite Hp. Qed.

Lemma nth_element_kth l k v :
  nth_element l !! k = Some v -> is_kth_smallest k v l.
Proof.
  intros Hk. eapply is_kth_smallest_perm; [apply nth_element_perm|].
  apply sorted_lookup_kth; [apply nth_element_sorted|done].
Qed.

Lemma is_kth_smallest_unique k v v' l :
  is_kth_smallest k v l -> is_kth_smallest k v' l -> v = v'.
Proof.
  unfold is_kth_smallest. intros [H1 H2] [H3 H4].
  destruct (N.lt_trichotomy v v') as [Hlt|[->|Hlt]]; [exfalso|done|exfalso].
  - assert (length (filter (fun x => N.le x v) l) <= length (filter (fun x => N.lt x v') l))%nat; [|lia].
    clear -Hlt. induction l as [|x l IH]; [done|]. rewrite !filter_cons.
    destruct (decide (x <= v)), (decide (x < v')); cbn; lia.
  - assert (length (filter (fun x => N.le x v') l) <= length (filter (fun x => N.lt x v) l))%nat; [|lia].
    clear -Hlt. induction l as [|x l IH]; [done|]. rewrite !filter_cons.
    destruct (decide (x <= v')), (decide (x < v)); cbn; lia.
Qed.

(** * Irreversibility *)

Section irreversibility.
Context `{Config, Collaborators}.

Lemma get_producer_registered n c :
  get_producer n c =
  match registered (objects (_db c)) n with
  | Some p => Ok p c
  | None => Throw key_not_found c
  end.
Proof.
  unfold get_producer, registered, bind, the_objects.
  destruct (producer_index _ !! n) as [p|]; [|reflexivity].
  destruct (owner p =? n); reflexivity.
Qed.

Lemma map_each_get_producer pks c objs :
  mapM (fun pk => registered (objects (_db c)) (producer_name pk)) pks = Some objs ->
  map_each pks (fun pk => get_producer (producer_name pk)) c = Ok objs c.
Proof.
  revert objs. induction pks as [|pk pks IH]; intros objs Hm.
  - cbn in Hm. injection Hm as <-. reflexivity.
  - cbn in Hm. destruct (registered _ (producer_name pk)) as [p|] eqn:Hp; [|discriminate].
    cbn in Hm.
    destruct (mapM _ pks) as [ps|] eqn:Hps; [|discriminate].
    cbn in Hm. injection Hm as <-.
    cbn [map_each]. erewrite bind_ok; [|rewrite get_producer_registered, Hp; reflexivity].
    erewrite bind_ok; [|apply IH; reflexivity]. reflexivity.
Qed.

Lemma erase_activated_stuck fuel new_lib c front rest :
  pending_of c = front :: rest -> new_lib <= front.1 ->
  erase_activated fuel new_lib c = Diverge.
Proof.
  intros Hp Hge. induction fuel as [|fuel IH]; [reflexivity|].
  unfold erase_activated in *. cbn [while_loop].
  unfold bind at 1. unfold read at 1. fold (pending_of c). rewrite Hp.
  rewrite bool_decide_eq_false_2 by discriminate. cbn [negb].
  unfold bind at 1. unfold bind at 1. unfold read at 1.
  fold (pending_of c). rewrite Hp.
  destruct (N.ltb_spec front.1 new_lib) as [Hlt|_]; [lia|].
  cbn [ret]. exact IH.
Qed.

Lemma set_pending_id l c : pending_of c = l -> set_pending l c = c.
Proof.
  unfold pending_of, get_global_properties, set_pending.
  destruct c as [[[[cfg act pend] ? ? ? ? ? ? ? ? ? ? ? ?] st rev] ? ? ? ? ? ? ? ? ? ? ?].
  cbn. intros ->. reflexivity.
Qed.

Lemma pending_of_set_pending l c : pending_of (set_pending l c) = l.
Proof. reflexivity. Qed.
Lemma set_pending_set_pending l l' c : set_pending l (set_pending l' c) = set_pending l c.
Proof. reflexivity. Qed.

Lemma erase_activated_step fuel new_lib c front rest :
  pending_of c = front :: rest -> front.1 < new_lib ->
  erase_activated (S fuel) new_lib c =
  erase_activated fuel new_lib (set_pending rest c).
Proof.
  intros Hp Hlt. unfold erase_activated. cbn [while_loop].
  unfold bind at 1. unfold read at 1. fold (pending_of c). rewrite Hp.
  rewrite bool_decide_eq_false_2 by discriminate. cbn [negb].
  unfold bind at 1. unfold bind at 1. unfold read at 1.
  fold (pending_of c). rewrite Hp.
  destruct (N.ltb_spec front.1 new_lib) as [_|Hge]; [|lia].
  unfold modify_objects, modify_state.
  replace (set_db _ c) with (set_pending rest c); [reflexivity|].
  unfold set_pending, set_db, with_objects.
  unfold pending_of, get_global_properties in Hp. cbn. rewrite Hp. reflexivity.
Qed.

Lemma erase_activated_done fuel new_lib c :
  pending_of c = [] -> erase_activated (S fuel) new_lib c = Ok tt c.
Proof.
  intros Hp. unfold erase_activated. cbn [while_loop].
  unfold bind at 1. unfold read at 1. fold (pending_of c). rewrite Hp.
  rewrite bool_decide_eq_true_2 by reflexivity. reflexivity.
Qed.

Lemma erase_activated_all fuel new_lib c :
  Forall (fun item => item.1 < new_lib) (pending_of c) ->
  (length (pending_of c) < fuel)%nat ->
  erase_activated fuel new_lib c = Ok tt (set_pending [] c).
Proof.
  remember (pending_of c) as l eqn:Hl. revert c fuel Hl.
  induction l as [|front rest IH]; intros c fuel Hl Hall Hfuel.
  - destruct fuel; [cbn in Hfuel; lia|].
    rewrite erase_activated_done by congruence.
    rewrite set_pending_id by congruence. reflexivity.
  - destruct fuel as [|fuel]; [cbn in Hfuel; lia|].
    inversion Hall as [|? ? Hfront Hrest]; subst.
    rewrite (erase_activated_step _ _ _ front rest) by (congruence || assumption).
    rewrite (IH (set_pending rest c) fuel); [reflexivity|reflexivity|exact Hrest|].
    cbn in Hfuel. lia.
Qed.

(** Once an entry at or past [new_lib] is at the front, the loop
    spins. *)
Lemma erase_activated_diverges fuel new_lib c before front rest :
  pending_of c = before ++ front :: rest ->
  Forall (fun item => item.1 < new_lib) before ->
  new_lib <= front.1 ->
  erase_activated fuel new_lib c = Diverge.
Proof.
  revert c fuel. induction before as [|b before IH]; intros c fuel Hp Hall Hge.
  - eapply erase_activated_stuck; eassumption.
  - destruct fuel as [|fuel]; [reflexivity|].
    inversion Hall; subst.
    rewrite (erase_activated_step _ _ _ b (before ++ front :: rest)) by assumption.
    apply IH; auto.
Qed.

Lemma N_range_S first k : N_range first (S k) = first :: N_range (first + 1) k.
Proof.
  unfold N_range. cbn [seq map]. f_equal; [lia|].
  rewrite <- seq_shift, map_map. apply map_ext. intros i. lia.
Qed.

Lemma set_block_log_id c : set_block_log (_block_log c) c = c.
Proof. destruct c; reflexivity. Qed.

Lemma read_block_by_num_None log n :
  Forall (fun b => block_num b < n) log -> read_block_by_num log n = None.
Proof.
  unfold read_block_by_num. induction 1 as [|b log Hb _ IH]; [reflexivity|].
  cbn. destruct (N.eqb_spec (block_num b) n); [lia|exact IH].
Qed.

Lemma fetch_block_by_number_fork c n b :
  Forall (fun b => block_num b < n) (_block_log c) ->
  n <= head_block_num c -> fork_block_at c n = Some b ->
  fetch_block_by_number c n = Some b.
Proof.
  intros Hlog Hn Hf. unfold fetch_block_by_number.
  rewrite read_block_by_num_None by assumption.
  destruct (N.leb_spec n (head_block_num c)); [exact Hf|lia].
Qed.

Lemma last_block_on_disk_snoc c l b :
  last_block_on_disk (set_block_log (l ++ [b]) c) = block_num b.
Proof. unfold last_block_on_disk, log_head. cbn. rewrite last_snoc. reflexivity. Qed.

Lemma append_fetched_ok c n b :
  last_block_on_disk c + 1 = n ->
  Forall (fun b => block_num b < n) (_block_log c) ->
  n <= head_block_num c -> fork_block_at c n = Some b -> block_num b = n ->
  append_fetched n c = Ok tt (set_block_log (_block_log c ++ [b]) c).
Proof.
  intros Hlast Hlog Hn Hf Hb. unfold append_fetched.
  erewrite bind_ok; [|unfold read; erewrite fetch_block_by_number_fork; eauto].
  unfold log_append. unfold last_block_on_disk in Hlast.
  destruct (log_head (_block_log c)) as [h|]; [|reflexivity].
  destruct (N.eqb_spec (block_num b) (block_num h + 1)); [reflexivity|lia].
Qed.

Lemma append_loop k : forall first c bs,
  last_block_on_disk c + 1 = first ->
  Forall (fun b => block_num b < first) (_block_log c) ->
  Forall2 (fun n b => n <= head_block_num c /\ fork_block_at c n = Some b
                      /\ block_num b = n) (N_range first k) bs ->
  for_each (N_range first k) append_fetched c
  = Ok tt (set_block_log (_block_log c ++ bs) c).
Proof.
  induction k as [|k IH]; intros first c bs Hlast Hlog Hall.
  - inversion Hall; subst. cbn. rewrite app_nil_r, set_block_log_id. reflexivity.
  - rewrite N_range_S in *.
    apply Forall2_cons_inv_l in Hall as (b & bs' & (Hn & Hf & Hb) & Hrest & ->).
    cbn [for_each]. erewrite bind_ok; [|apply append_fetched_ok; eauto].
    rewrite (IH (first + 1) _ bs').
    + cbn. rewrite <- app_assoc. reflexivity.
    + rewrite last_block_on_disk_snoc. lia.
    + cbn. apply Forall_app. split.
      * eapply List.Forall_impl; [|exact Hlog]. cbn. intros; lia.
      * constructor; [cbn; lia|constructor].
    + exact Hrest.
Qed.

Lemma candidate_lookup objs cand :
  is_kth_smallest (N.to_nat (irreversible_offset (length objs))) cand
    (map last_confirmed_block_num objs) ->
  nth_element (map last_confirmed_block_num objs)
    !! N.to_nat (irreversible_offset (length objs)) = Some cand.
Proof.
  intros Hk. set (k := N.to_nat _) in *. set (l := map _ objs) in *.
  destruct (nth_element l !! k) as [v|] eqn:Hv.
  - f_equal. eapply is_kth_smallest_unique; [|exact Hk]. by apply nth_element_kth.
  - exfalso. apply lookup_ge_None in Hv. rewrite (Permutation_length (nth_element_perm l)) in Hv.
    destruct Hk as [_ Hk]. pose proof (length_filter (fun x => N.le x cand) l). lia.
Qed.

Lemma foldl_none_found new_lib (pending : list (block_num_type * producer_schedule_type)) :
  Forall (fun item => new_lib <= item.1) pending ->
  foldl (fun found item => if item.1 <? new_lib then Some item.2 else found) None pending
  = None.
Proof.
  induction 1 as [|item l Hi _ IH]; [done|]. cbn.
  destruct (N.ltb_spec item.1 new_lib); [lia|done].
Qed.


Lemma foldl_found_keeps new_lib (pending : list (block_num_type * producer_schedule_type)) acc :
  is_Some acc ->
  is_Some (foldl (fun found item => if item.1 <? new_lib then Some item.2 else found)
                 acc pending).
Proof.
  revert acc. induction pending as [|item l IH]; intros acc Hacc; [done|].
  cbn. apply IH. case_match; [exact (mk_is_Some _ _ eq_refl)|done].
Qed.

Lemma foldl_found new_lib (pending : list (block_num_type * producer_schedule_type)) acc :
  Exists (fun item => item.1 < new_lib) pending ->
  is_Some (foldl (fun found item => if item.1 <? new_lib then Some item.2 else found)
                 acc pending).
Proof.
  intros Hex. revert acc. induction Hex as [item l Hi|item l _ IH]; intros acc.
  - cbn. apply foldl_found_keeps.
    case_match eqn:Hlt; [exact (mk_is_Some _ _ eq_refl)|].
    apply N.ltb_ge in Hlt. lia.
  - cbn. apply IH.
Qed.

Theorem update_last_irreversible_block_spins fuel c objs cand bs before front rest :
  active_producer_objects c = Some objs ->
  is_kth_smallest (N.to_nat (irreversible_offset (length objs))) cand
    (map last_confirmed_block_num objs) ->
  last_block_on_disk c < cand ->
  Forall (fun b => block_num b <= last_block_on_disk c) (_block_log c) ->
  Forall2 (fun n b => n <= head_block_num c /\ fork_block_at c n = Some b
                      /\ block_num b = n)
          (N_range (last_block_on_disk c + 1)
                   (N.to_nat (cand - last_block_on_disk c))) bs ->
  pending_of c = before ++ front :: rest ->
  Forall (fun item => item.1 < cand) before ->
  cand <= front.1 ->
  Exists (fun item => item.1 < cand) (pending_of c) ->
  update_last_irreversible_block fuel c = Diverge.
Proof.
  intros Hobjs Hkth Hlt Hlog Hfetch Hp Hbefore Hfront Hex.
  unfold update_last_irreversible_block.
  rewrite !bind_read.
  erewrite bind_ok; [|apply map_each_get_producer; exact Hobjs].
  fold (irreversible_offset (length objs)).
  rewrite (candidate_lookup objs cand Hkth).
  rewrite bind_ret.
  set (c1 := if dgp_last_irreversible_block_num (get_dynamic_global_properties c) <? cand
             then set_lib cand c else c).
  assert (Hc1 : _block_log c1 = _block_log c /\ pending_of c1 = pending_of c
                /\ head_block_num c1 = head_block_num c
                /\ _fork_db c1 = _fork_db c).
  { subst c1. destruct (_ <? cand); repeat split. }
  destruct Hc1 as (Hlog1 & Hp1 & Hh1 & Hf1).
  erewrite bind_ok with (s' := c1); cycle 1.
  { subst c1. destruct (_ <? cand); reflexivity. }
  rewrite bind_read.
  change (match log_head (_block_log c1) with
          | Some b => block_num b | None => 0 end) with (last_block_on_disk c1).
  assert (Hl1 : last_block_on_disk c1 = last_block_on_disk c).
  { unfold last_block_on_disk. by rewrite Hlog1. }
  rewrite Hl1.
  destruct (N.ltb_spec (last_block_on_disk c) cand) as [_|?]; [|lia]. cbn [when].
  change (for_each ?ns _) with (for_each ns append_fetched).
  erewrite bind_ok; cycle 1.
  { apply append_loop; [by rewrite Hl1| |].
    - rewrite Hlog1. eapply List.Forall_impl; [|exact Hlog]. cbn. intros; lia.
    - unfold fork_block_at. rewrite Hh1, Hf1. exact Hfetch. }
  change (pending_active_producers (get_global_properties c)) with (pending_of c).
  destruct (foldl_found cand (pending_of c) None Hex) as [new_schedule Hfound].
  rewrite Hfound.
  apply bind_diverge, bind_diverge.
  eapply erase_activated_diverges; [|exact Hbefore|exact Hfront].
  change (pending_of (set_block_log _ c1)) with (pending_of c1). by rewrite Hp1.
Qed.

End irreversibility.

(** * Block header validation *)

Section header.
Context `{Config, Collaborators}.

Lemma get_scheduled_producer_spec slot_num c :
  get_scheduled_producer slot_num c =
  match scheduled_producer c slot_num with
  | Some n => Ok n c
  | None => Throw undefined c
  end.
Proof.
  unfold get_scheduled_producer, scheduled_producer. rewrite !bind_read.
  destruct (producers _ !! _); reflexivity.
Qed.

Lemma registered_owner o n p : registered o n = Some p -> owner p = n.
Proof.
  unfold registered. destruct (producer_index o !! n) as [q|]; [|discriminate].
  destruct (N.eqb_spec (owner q) n); [|discriminate]. intros [= <-]. assumption.
Qed.

Lemma EOS_ASSERT_bind {A} cond e (k : unit -> M A) c :
  bind (EOS_ASSERT cond e) k c = if cond then k tt c else Throw e c.
Proof. destruct cond; reflexivity. Qed.

(** With the scheduled producer [name] of the block's slot and its
    producer object [p] at hand, the header is accepted exactly under
    the conditions listed. *)
Lemma validate_block_header_with_producer skip b c name p :
  scheduled_producer c (get_slot_at_time c (timestamp b)) = Some name ->
  registered (objects (_db c)) name = Some p ->
  ((exists r c', validate_block_header skip b c = Ok r c')
   <-> header_conditions skip b c name p)
  /\ (forall r c', validate_block_header skip b c = Ok r c' -> r = p /\ c' = c).
Proof.
  intros Hsched Hreg. pose proof (registered_owner _ _ _ Hreg) as Hown.
  unfold validate_block_header. rewrite bind_read, EOS_ASSERT_bind.
  destruct (N.eqb_spec (head_block_id c) (previous b)) as [Hprev|Hprev]; cycle 1.
  { split; [split|]; [intros (r & c' & [=])|intros []; congruence|intros r c' [=]]. }
  rewrite bind_read, EOS_ASSERT_bind.
  destruct (N.ltb_spec (head_block_time c) (to_time_point (timestamp b))) as [Hlater|Hlater]; cycle 1.
  { split; [split|]; [intros (r & c' & [=])|intros []; lia|intros r c' [=]]. }
  assert (Hround :
    forall A (k : unit -> M A),
      bind (if negb (block_num b mod blocks_per_round =? 0)
            then EOS_ASSERT (bool_decide (new_producers b = None)) block_validate_exception
            else ret tt) k c
      = if bool_decide (new_producers b <> None -> block_num b mod blocks_per_round = 0)
        then k tt c else Throw block_validate_exception c).
  { intros A k. destruct (N.eqb_spec (block_num b mod blocks_per_round) 0) as [Hz|Hz]; cbn [negb].
    - rewrite bind_ret, bool_decide_eq_true_2; [reflexivity|auto].
    - rewrite EOS_ASSERT_bind. destruct (new_producers b) as [np|].
      + rewrite bool_decide_eq_false_2 by discriminate.
        rewrite bool_decide_eq_false_2; [reflexivity|]. intros Hc. apply Hz, Hc. discriminate.
      + rewrite bool_decide_eq_true_2 by reflexivity.
        rewrite bool_decide_eq_true_2; [reflexivity|]. intros Hc. exfalso. by apply Hc. }
  rewrite Hround. clear Hround.
  destruct (bool_decide_reflect (new_producers b <> None -> block_num b mod blocks_per_round = 0))
    as [Hround|Hround]; cycle 1.
  { split; [split|]; [intros (r & c' & [=])|intros []; contradiction|intros r c' [=]]. }
  rewrite bind_read.
  erewrite bind_ok; [|rewrite get_scheduled_producer_spec, Hsched; reflexivity].
  erewrite bind_ok; [|rewrite get_producer_registered, Hreg; reflexivity].
  destruct (flag_set skip skip_producer_signature) eqn:Hsig; cbn [negb];
    [rewrite bind_ret|rewrite EOS_ASSERT_bind;
      destruct (validate_signee b (signing_key p)) eqn:Hv; cycle 1].
  2:{ split; [split|]; [intros (r & c' & [=])|intros []; intuition congruence|intros r c' [=]]. }
  all: destruct (flag_set skip skip_producer_schedule_check) eqn:Hsc; cbn [negb];
    [rewrite bind_ret|rewrite EOS_ASSERT_bind;
      destruct (N.eqb_spec (producer b) (owner p)) as [Hp|Hp]; cycle 1].
  all: try (split; [split|]; [intros (r & c' & [=])|intros []; intuition congruence|intros r c' [=]]; fail).
  all: unfold FC_ASSERT; rewrite EOS_ASSERT_bind;
    destruct (N.eqb_spec (calculate_transaction_merkle_root b) (transaction_mroot b)) as [Hm|Hm]; cycle 1.
  all: try (split; [split|]; [intros (r & c' & [=])|intros []; intuition congruence|intros r c' [=]]; fail).
  all: split; [split|]; [intros _; constructor; try done; try congruence
                        |intros _; eauto
                        |intros r c' [= <- <-]; done].
Qed.

(** The producer of the slot is looked up before any check that can
    be skipped is made: a header is accepted only if that producer is
    in the schedule and has a producer object. *)
Lemma validate_block_header_finds_producer skip b c r c' :
  validate_block_header skip b c = Ok r c' ->
  exists name,
    scheduled_producer c (get_slot_at_time c (timestamp b)) = Some name
    /\ registered (objects (_db c)) name = Some r
    /\ c' = c.
Proof.
  destruct (scheduled_producer c (get_slot_at_time c (timestamp b))) as [name|] eqn:Hsched.
  - destruct (registered (objects (_db c)) name) as [p|] eqn:Hreg.
    + intros Hrun.
      destruct (validate_block_header_with_producer skip b c name p Hsched Hreg)
        as [_ Hret].
      destruct (Hret _ _ Hrun) as [-> ->]. eauto.
    + unfold validate_block_header. rewrite bind_read, EOS_ASSERT_bind.
      destruct (head_block_id c =? previous b); [|discriminate].
      rewrite bind_read, EOS_ASSERT_bind.
      destruct (head_block_time c <? to_time_point (timestamp b)); [|discriminate].
      destruct (negb (block_num b mod blocks_per_round =? 0));
        [rewrite EOS_ASSERT_bind; destruct (bool_decide (new_producers b = None));
           [|discriminate]
        |rewrite bind_ret].
      all: rewrite bind_read.
      all: erewrite bind_ok; [|rewrite get_scheduled_producer_spec, Hsched; reflexivity].
      all: erewrite bind_throw; [discriminate|].
      all: rewrite get_producer_registered, Hreg; reflexivity.
  - unfold validate_block_header. rewrite bind_read, EOS_ASSERT_bind.
    destruct (head_block_id c =? previous b); [|discriminate].
    rewrite bind_read, EOS_ASSERT_bind.
    destruct (head_block_time c <? to_time_point (timestamp b)); [|discriminate].
    destruct (negb (block_num b mod blocks_per_round =? 0));
      [rewrite EOS_ASSERT_bind; destruct (bool_decide (new_producers b = None));
         [|discriminate]
      |rewrite bind_ret].
    all: rewrite bind_read.
    all: erewrite bind_throw; [discriminate|].
    all: rewrite get_scheduled_producer_spec, Hsched; reflexivity.
Qed.

(** C5.  [validate_block_header] returns normally if and only if the
    producer scheduled for the block's slot has a producer object
    (the lookup is made before the skip flags are tested, so also when
    both producer checks are skipped) and the block builds on the
    head, is later than the head, carries new producers only at a
    start of round, is by the scheduled producer (unless the schedule
    check is skipped), is signed with that producer's key (unless
    signatures are skipped) and has a matching transaction Merkle
    root; it then returns that producer object and leaves the
    controller as it was. *)
Theorem validate_block_header_accepts_iff skip b c :
  ((exists r c', validate_block_header skip b c = Ok r c')
   <-> exists name p,
         scheduled_producer c (get_slot_at_time c (timestamp b)) = Some name
         /\ registered (objects (_db c)) name = Some p
         /\ header_conditions skip b c name p)
  /\ (forall r c', validate_block_header skip b c = Ok r c' ->
        c' = c
        /\ exists name,
             scheduled_producer c (get_slot_at_time c (timestamp b)) = Some name
             /\ registered (objects (_db c)) name = Some r).
Proof.
  split; [split|].
  - intros (r & c' & Hrun).
    destruct (validate_block_header_finds_producer _ _ _ _ _ Hrun)
      as (name & Hsched & Hreg & _).
    exists name, r. split; [done|]. split; [done|].
    apply (validate_block_header_with_producer skip b c name r Hsched Hreg). eauto.
  - intros (name & p & Hsched & Hreg & Hcond).
    by apply (validate_block_header_with_producer skip b c name p Hsched Hreg).
  - intros r c' Hrun.
    destruct (validate_block_header_finds_producer _ _ _ _ _ Hrun)
      as (name & Hsched & Hreg & ->).
    eauto.
Qed.
End header.

(** * Popping a block *)

Section popping.
Context `{Config, Collaborators}.

Lemma reset_open_session c :
  _pending_block_session c = Some (mk_session true) ->
  reset_pending_block_session c = Ok tt (rolled_back c).
Proof.
  intros Hsession. unfold reset_pending_block_session.
  rewrite bind_read, Hsession. reflexivity.
Qed.

(** C10.  [pop_block] resets the pending block session first and looks
    for the head block afterwards.  With a session open and no head
    block to be found, the call raises [pop_empty_chain] and leaves
    the controller with the session gone and the store rolled back to
    where the session started: the changes of the pending
    transactions are discarded although the call failed. *)
Theorem pop_block_rolls_back_before_failing c o rest :
  _pending_block_session c = Some (mk_session true) ->
  undo_stack (_db c) = o :: rest ->
  fetch_block_by_id (rolled_back c) (head_block_id (rolled_back c)) = None ->
  pop_block c = Throw pop_empty_chain (rolled_back c)
  /\ objects (_db (rolled_back c)) = o
  /\ _pending_block_session (rolled_back c) = None.
Proof.
  intros Hsession Hstack Hempty. split; [|split; [|reflexivity]].
  - unfold pop_block.
    erewrite bind_ok; [|by apply reset_open_session].
    rewrite !bind_read, Hempty. reflexivity.
  - cbn. unfold undo. rewrite Hstack. reflexivity.
Qed.
End popping.

(** * Relations every step of a computation keeps *)

(** The lemmas below depend on the section's hypotheses their proofs use. *)
Unset Default Proof Using.

Section preserves.
Context {S : Type} (R : relation S) `{!Reflexive R, !Transitive R}.

Lemma preserves_ret {A} (a : A) : preserves R (ret a).
Proof. intros s. cbn. reflexivity. Qed.

Lemma preserves_throw {A} e : preserves R (throw e : St S A).
Proof. intros s. cbn. reflexivity. Qed.

Lemma preserves_bind {A B} (m : St S A) (k : A -> St S B) :
  preserves R m -> (forall a, preserves R (k a)) -> preserves R (bind m k).
Proof.
  intros Hm Hk s. unfold bind. specialize (Hm s).
  destruct (m s) as [a s'| |]; [|assumption..].
  specialize (Hk a s'). destruct (k a s'); try etransitivity; eauto.
Qed.

Lemma preserves_modify_state (f : S -> S) :
  (forall s, R s (f s)) -> preserves R (modify_state f).
Proof. intros Hf s. apply Hf. Qed.

Lemma preserves_EOS_ASSERT cond e : preserves R (EOS_ASSERT cond e).
Proof. destruct cond; [apply preserves_ret|apply preserves_throw]. Qed.

Lemma preserves_FC_ASSERT cond : preserves R (FC_ASSERT cond).
Proof. apply preserves_EOS_ASSERT. Qed.

Lemma preserves_when cond m : preserves R m -> preserves R (when cond m).
Proof. destruct cond; [auto|intros; apply preserves_ret]. Qed.

Lemma preserves_for_each {A} (l : list A) body :
  (forall x, preserves R (body x)) -> preserves R (for_each l body).
Proof.
  intros Hb. induction l as [|x l IH]; cbn [for_each];
    [apply preserves_ret|apply preserves_bind; auto].
Qed.

Lemma preserves_map_each {A B} (l : list A) (f : A -> St S B) :
  (forall x, preserves R (f x)) -> preserves R (map_each l f).
Proof.
  intros Hf. induction l as [|x l IH]; cbn [map_each]; [apply preserves_ret|].
  apply preserves_bind; [auto|intros y].
  apply preserves_bind; [auto|intros ys]. apply preserves_ret.
Qed.

Lemma preserves_fold_each {A B} (l : list A) (acc : B) body :
  (forall acc x, preserves R (body acc x)) -> preserves R (fold_each l acc body).
Proof.
  intros Hb. revert acc. induction l as [|x l IH]; intros acc; cbn [fold_each];
    [apply preserves_ret|apply preserves_bind; auto].
Qed.

Lemma preserves_while_loop fuel cond body :
  preserves R cond -> preserves R body -> preserves R (while_loop fuel cond body).
Proof.
  intros Hc Hb. induction fuel as [|fuel IH]; cbn [while_loop]; [intros s; exact I|].
  apply preserves_bind; [auto|intros [|]]; [|apply preserves_ret].
  apply preserves_bind; auto.
Qed.

Lemma preserves_try_catch {A} (m : St S A) : preserves R m -> preserves R (try_catch m).
Proof. intros Hm s. unfold try_catch. specialize (Hm s). destruct (m s); auto. Qed.

Lemma preserves_finally {A} (m : St S A) after :
  preserves R m -> preserves R after -> preserves R (finally m after).
Proof.
  intros Hm Ha. unfold finally. apply preserves_bind; [by apply preserves_try_catch|].
  intros r. apply preserves_bind; [auto|intros _].
  destruct r; [apply preserves_throw|apply preserves_ret].
Qed.
End preserves.

Lemma preserves_weaken {S A} (R R' : relation S) (m : St S A) :
  (forall s s', R s s' -> R' s s') -> preserves R m -> preserves R' m.
Proof. intros HR Hm s. specialize (Hm s). destruct (m s); auto. Qed.

(** * What applying a block on top of the head keeps *)

#[export] Instance applied_on_top_refl : Reflexive applied_on_top.
Proof.
  intros c. constructor; try reflexivity.
  exists (length (undo_stack (_db c))). by rewrite firstn_all.
Qed.

#[export] Instance applied_on_top_trans : Transitive applied_on_top.
Proof.
  intros c1 c2 c3 [Hl1 Hi1 Hs1 [n Hn] Hr1 Hp1] [Hl2 Hi2 Hs2 [m Hm] Hr2 Hp2].
  constructor.
  - lia.
  - set_solver.
  - congruence.
  - exists (m `min` n)%nat. rewrite Hm, Hn. apply take_take.
  - congruence.
  - etransitivity; eassumption.
Qed.

#[export] Instance never_lowers_lib_refl : Reflexive never_lowers_lib.
Proof. intros c. unfold never_lowers_lib. lia. Qed.
#[export] Instance never_lowers_lib_trans : Transitive never_lowers_lib.
Proof. intros c1 c2 c3. unfold never_lowers_lib. lia. Qed.

Ltac same_stack :=
  lazymatch goal with
  | |- exists n, ?s = take n ?s => exists (length s); by rewrite firstn_all
  end.

(** The fields the update does not touch are as they were. *)
Ltac unchanged :=
  constructor; cbn;
  first [reflexivity | same_stack | (unfold lib_of; cbn; lia)
        | (eexists; reflexivity) | idtac].

Lemma preserves_read (R : relation chain_controller) `{!Reflexive R} {A}
    (f : chain_controller -> A) : preserves R (read f).
Proof. intros c. cbn. reflexivity. Qed.

Lemma preserves_the_objects (R : relation chain_controller) `{!Reflexive R} :
  preserves R the_objects.
Proof. intros c. cbn. reflexivity. Qed.

Create HintDb preserve.

(** Takes a computation apart along its binds, loops and case
    distinctions; [solver] shows that a state update keeps the
    relation. *)
Ltac preserve_step solver :=
  first
    [ progress intros
    | solve [auto 1 with preserve nocore]
    | lazymatch goal with
      | |- preserves _ (ret _) => apply preserves_ret
      | |- preserves _ (throw _) => apply preserves_throw
      | |- preserves _ (EOS_ASSERT _ _) => apply preserves_EOS_ASSERT
      | |- preserves _ (FC_ASSERT _) => apply preserves_FC_ASSERT
      | |- preserves _ (read _) => apply preserves_read
      | |- preserves _ the_objects => apply preserves_the_objects
      | |- preserves _ (bind _ _) => apply preserves_bind
      | |- preserves _ (when _ _) => apply preserves_when
      | |- preserves _ (for_each _ _) => apply preserves_for_each
      | |- preserves _ (map_each _ _) => apply preserves_map_each
      | |- preserves _ (fold_each _ _ _) => apply preserves_fold_each
      | |- preserves _ (while_loop _ _ _) => apply preserves_while_loop
      | |- preserves _ (finally _ _) => apply preserves_finally
      | |- preserves _ (try_catch _) => apply preserves_try_catch
      | |- preserves _ (modify_objects _) => unfold modify_objects
      | |- preserves _ (modify_db _) => unfold modify_db
      | |- preserves _ (modify_fork_db _) => unfold modify_fork_db
      | |- preserves _ (modify_state _) =>
          apply preserves_modify_state; intros ?; solver
      | |- preserves _ (match ?x with _ => _ end) => destruct x
      | |- preserves _ (let _ := _ in _) => cbv zeta
      | |- Reflexive _ => exact _
      | |- Transitive _ => exact _
      end ].

Ltac preserve_with solver := repeat (preserve_step solver).

Ltac on_top := preserve_with unchanged.

Section on_top.
Context `{Config, Collaborators}.


Lemma on_top_set_max_size n : preserves applied_on_top (modify_fork_db (fork_set_max_size n)).
Proof.
  intros c. cbn. unchanged.
  unfold fork_set_max_size. destruct (fork_head (_fork_db c)); cbn; [|reflexivity].
  intros i Hi. apply list_elem_of_In, filter_In in Hi as [Hi _]. by apply list_elem_of_In.
Qed.

Lemma on_top_on_objects {A} (m : St db_objects A) :
  (forall o, match m o with
             | Ok _ o' | Throw _ o' => lib_of o <= lib_of o'
             | Diverge => True
             end) ->
  preserves applied_on_top (on_objects m).
Proof.
  intros Hm c. unfold on_objects. specialize (Hm (objects (_db c))).
  destruct (m (objects (_db c))); [| |exact I]; unchanged; exact Hm.
Qed.

Lemma on_top_get_producer n : preserves applied_on_top (get_producer n).
Proof. unfold get_producer. on_top. Qed.

Lemma on_top_get_permission l : preserves applied_on_top (get_permission l).
Proof. unfold get_permission. on_top. Qed.

Lemma on_top_get_scheduled_producer n : preserves applied_on_top (get_scheduled_producer n).
Proof. unfold get_scheduled_producer. on_top. Qed.

Hint Resolve on_top_set_max_size on_top_get_producer on_top_get_permission
  on_top_get_scheduled_producer : preserve.

Lemma on_top_validate_block_header skip b :
  preserves applied_on_top (validate_block_header skip b).
Proof. unfold validate_block_header. on_top. Qed.

Lemma on_top_fill_schedule votes : forall count slots,
  preserves applied_on_top (fill_schedule votes count slots).
Proof. induction votes as [|v votes IH]; intros count slots; cbn [fill_schedule]; on_top. Qed.

Hint Resolve on_top_validate_block_header on_top_fill_schedule : preserve.

Lemma on_top_calculate_producer_schedule :
  preserves applied_on_top _calculate_producer_schedule.
Proof. unfold _calculate_producer_schedule. on_top. Qed.

Hint Resolve on_top_calculate_producer_schedule : preserve.

Lemma on_top_update_global_properties b :
  preserves applied_on_top (update_global_properties b).
Proof. unfold update_global_properties. on_top. Qed.

Lemma on_top_create_block_summary b : preserves applied_on_top (create_block_summary b).
Proof. unfold create_block_summary. on_top. Qed.

Lemma on_top_clear_expired_transactions : preserves applied_on_top clear_expired_transactions.
Proof. unfold clear_expired_transactions. on_top. Qed.

Lemma on_top_update_global_dynamic_data b :
  preserves applied_on_top (update_global_dynamic_data b).
Proof. unfold update_global_dynamic_data. on_top. Qed.

Lemma on_top_update_signing_producer p b :
  preserves applied_on_top (update_signing_producer p b).
Proof. unfold update_signing_producer. on_top. Qed.

Lemma on_top_erase_activated fuel n : preserves applied_on_top (erase_activated fuel n).
Proof. unfold erase_activated. on_top. Qed.

Lemma on_top_apply_cycle_trace t : preserves applied_on_top (_apply_cycle_trace t).
Proof. unfold _apply_cycle_trace. on_top. Qed.

Hint Resolve on_top_update_global_properties on_top_create_block_summary
  on_top_clear_expired_transactions on_top_update_global_dynamic_data
  on_top_update_signing_producer on_top_erase_activated
  on_top_apply_cycle_trace : preserve.

Lemma on_top_append_fetched n : preserves applied_on_top (append_fetched n).
Proof.
  unfold append_fetched. on_top. intros c. unfold log_append.
  destruct (log_head (_block_log c)); [destruct (_ =? _)|]; cbn;
    try reflexivity; unchanged; by apply prefix_app_r.
Qed.

Hint Resolve on_top_append_fetched : preserve.

(** The producers are looked up without touching the controller. *)
Lemma map_each_get_producer_const pks c :
  (exists objs, map_each pks (fun pk => get_producer (producer_name pk)) c = Ok objs c)
  \/ (exists e, map_each pks (fun pk => get_producer (producer_name pk)) c = Throw e c).
Proof.
  induction pks as [|pk pks IH]; cbn [map_each]; [left; by eexists|].
  destruct (registered (objects (_db c)) (producer_name pk)) as [p|] eqn:Hp.
  - erewrite bind_ok; [|rewrite get_producer_registered, Hp; reflexivity].
    destruct IH as [[objs Ho]|[e He]].
    + left. eexists. erewrite bind_ok by exact Ho. reflexivity.
    + right. eexists. erewrite bind_throw by exact He. reflexivity.
  - right. eexists. erewrite bind_throw; [reflexivity|].
    rewrite get_producer_registered, Hp. reflexivity.
Qed.

Lemma on_top_update_last_irreversible_block fuel :
  preserves applied_on_top (update_last_irreversible_block fuel).
Proof.
  intros c. unfold update_last_irreversible_block. rewrite !bind_read.
  destruct (map_each_get_producer_const
              (producers (active_producers (get_global_properties c))) c)
    as [[objs Ho]|[e He]]; cycle 1.
  { erewrite bind_throw by exact He. reflexivity. }
  erewrite bind_ok by exact Ho.
  match goal with |- context [nth_element ?l !! ?k] => destruct (nth_element l !! k) as [n|] end;
    cycle 1.
  { cbn. reflexivity. }
  rewrite bind_ret.
  set (c1 := if dgp_last_irreversible_block_num (get_dynamic_global_properties c) <? n
             then set_lib n c else c).
  assert (Hc1 : applied_on_top c c1).
  { subst c1. destruct (N.ltb_spec (dgp_last_irreversible_block_num
                                      (get_dynamic_global_properties c)) n);
      [|reflexivity].
    unchanged. unfold lib_of, get_dynamic_global_properties in *. cbn. lia. }
  erewrite bind_ok with (s' := c1); cycle 1.
  { subst c1. destruct (_ <? n); reflexivity. }
  match goal with
  | |- match ?m c1 with _ => _ end =>
      assert (Hrest : preserves applied_on_top m); [|specialize (Hrest c1); destruct (m c1)]
  end.
  { change (for_each ?ns _) with (for_each ns append_fetched). on_top. }
  all: try etransitivity; eauto.
Qed.

Lemma on_top_apply_transaction meta :
  contracts_keep_lib -> preserves applied_on_top (_apply_transaction meta).
Proof.
  intros Hexec. unfold _apply_transaction. on_top.
  apply on_top_on_objects. intros o. apply Hexec.
Qed.

Hint Resolve on_top_update_last_irreversible_block : preserve.

Lemma on_top_finalize_block fuel trace :
  preserves applied_on_top (_finalize_block fuel trace).
Proof. unfold _finalize_block. on_top. Qed.

Hint Resolve on_top_finalize_block : preserve.

Lemma on_top___apply_block fuel b :
  contracts_keep_lib -> preserves applied_on_top (__apply_block fuel b).
Proof.
  intros Hexec. unfold __apply_block. on_top. by apply on_top_apply_transaction.
Qed.

Lemma on_top_with_skip_flags {A} skip (m : M A) :
  preserves applied_on_top m -> preserves applied_on_top (with_skip_flags skip m).
Proof. intros Hm. unfold with_skip_flags. on_top. Qed.

Lemma on_top_with_applying_block {A} (m : M A) :
  preserves applied_on_top m -> preserves applied_on_top (with_applying_block m).
Proof. intros Hm. unfold with_applying_block. on_top. Qed.

Lemma on_top_apply_block fuel b skip :
  contracts_keep_lib -> preserves applied_on_top (_apply_block fuel b skip).
Proof.
  intros Hexec. unfold _apply_block. on_top.
  all: apply on_top_with_applying_block, on_top_with_skip_flags.
  all: by apply on_top___apply_block.
Qed.
End on_top.

#[export] Hint Resolve on_top_set_max_size on_top_get_producer on_top_get_permission
  on_top_get_scheduled_producer on_top_validate_block_header on_top_fill_schedule
  on_top_calculate_producer_schedule on_top_update_global_properties
  on_top_create_block_summary on_top_clear_expired_transactions
  on_top_update_global_dynamic_data on_top_update_signing_producer
  on_top_erase_activated on_top_apply_cycle_trace on_top_append_fetched
  on_top_update_last_irreversible_block on_top_finalize_block : preserve.


(** * The irreversible height along steps that undo nothing *)

Lemma bind_Ok_inv {S A B} (m : St S A) (k : A -> St S B) s b s' :
  bind m k s = Ok b s' -> exists a s1, m s = Ok a s1 /\ k a s1 = Ok b s'.
Proof. unfold bind. destruct (m s) as [a s1| |]; [eauto|discriminate..]. Qed.

Lemma try_catch_inv {S A} (m : St S A) s r s' :
  try_catch m s = Ok r s' ->
  match r with
  | inr a => m s = Ok a s'
  | inl e => m s = Throw e s'
  end.
Proof. unfold try_catch. destruct (m s); intros [= <- <-]; reflexivity. Qed.

Lemma finally_Ok_inv {S A} (m : St S A) after s a s' :
  finally m after s = Ok a s' -> exists s1, m s = Ok a s1 /\ after s1 = Ok tt s'.
Proof.
  unfold finally. intros Hf.
  apply bind_Ok_inv in Hf as (r & s1 & Htry & Hf).
  apply bind_Ok_inv in Hf as ([] & s2 & Hafter & Hf).
  apply try_catch_inv in Htry. destruct r as [e|a']; [discriminate|].
  injection Hf as <- <-. eauto.
Qed.

Ltac lib_update := unfold never_lowers_lib, lib_of; cbn; lia.
Ltac keeps_lib := preserve_with lib_update.

Lemma lib_of_on_top {A} (m : M A) :
  preserves applied_on_top m -> preserves never_lowers_lib m.
Proof. apply preserves_weaken. intros c c' []. assumption. Qed.

Section lib.
Context `{Config, Collaborators}.
Hypothesis contracts : contracts_keep_lib.

Lemma apply_in_session_Ok fuel b skip c c' :
  apply_in_session fuel b skip c = Ok tt c' ->
  _apply_block fuel b skip (set_db start_undo_session c) = Ok tt c'.
Proof.
  unfold apply_in_session, modify_db. rewrite bind_modify_state. intros Ha.
  apply bind_Ok_inv in Ha as (r & c1 & Htry & Ha). apply try_catch_inv in Htry.
  destruct r as [e|[]].
  - apply bind_Ok_inv in Ha as (? & ? & _ & Ha). discriminate.
  - injection Ha as <-. assumption.
Qed.

Lemma apply_in_session_keeps_lib fuel b skip c c' :
  apply_in_session fuel b skip c = Ok tt c' -> never_lowers_lib c c'.
Proof.
  intros Ha. apply apply_in_session_Ok in Ha.
  pose proof (on_top_apply_block fuel b skip contracts (set_db start_undo_session c)) as Hp.
  rewrite Ha in Hp. destruct Hp as [Hl _ _ _ _ _]. exact Hl.
Qed.

Lemma apply_to_head_keeps_lib fuel b skip c c' r :
  (r <- try_catch (apply_in_session fuel b skip) ;;
   match r with
   | inr _ => ret false
   | inl e => modify_fork_db (fork_remove (block_id b)) ;; throw e
   end) c = Ok r c' ->
  never_lowers_lib c c'.
Proof.
  intros Ha. apply bind_Ok_inv in Ha as (x & c1 & Htry & Ha).
  apply try_catch_inv in Htry. destruct x as [e|[]].
  - apply bind_Ok_inv in Ha as (? & ? & _ & Ha). discriminate.
  - injection Ha as _ <-. by eapply apply_in_session_keeps_lib.
Qed.

Lemma push_block_without_switch_keeps_lib fuel b c c' :
  _push_block fuel b c = Ok false c' -> never_lowers_lib c c'.
Proof.
  unfold _push_block. rewrite bind_read.
  destruct (flag_set (_skip_flags c) skip_fork_db); cbn [negb];
    [apply apply_to_head_keeps_lib|].
  intros Hp. apply bind_Ok_inv in Hp as (new_head & c1 & Hpush & Hp).
  assert (Hc1 : never_lowers_lib c c1).
  { destruct (fork_push_block b (_fork_db c)) as [h f] eqn:Hf.
    injection Hpush as _ <-. lib_update. }
  rewrite bind_read in Hp.
  destruct (previous (data new_head) =? head_block_id c1); cbn [negb] in Hp.
  { etransitivity; [exact Hc1|]. eapply apply_to_head_keeps_lib, Hp. }
  rewrite bind_read in Hp.
  destruct (head_block_num c1 <? block_num (data new_head)).
  - exfalso. apply bind_Ok_inv in Hp as (br & c2 & _ & Hp).
    destruct (list.last br.2); [|discriminate].
    apply bind_Ok_inv in Hp as ([] & c3 & _ & Hp).
    apply bind_Ok_inv in Hp as ([] & c4 & _ & Hp). discriminate.
  - injection Hp as <-. exact Hc1.
Qed.

Lemma lib_on_pending_block f : preserves never_lowers_lib (on_pending_block f).
Proof. unfold on_pending_block. keeps_lib. Qed.

Lemma lib_on_pending_cycle_trace f : preserves never_lowers_lib (on_pending_cycle_trace f).
Proof. unfold on_pending_cycle_trace. keeps_lib. Qed.

Hint Resolve lib_on_pending_block lib_on_pending_cycle_trace : preserve.

Lemma lib_start_pending_shard : preserves never_lowers_lib _start_pending_shard.
Proof. unfold _start_pending_shard. keeps_lib. Qed.

Hint Resolve lib_start_pending_shard : preserve.

Lemma lib_start_pending_cycle : preserves never_lowers_lib _start_pending_cycle.
Proof. unfold _start_pending_cycle. keeps_lib. Qed.

Hint Resolve lib_start_pending_cycle : preserve.

Lemma lib_start_pending_block : preserves never_lowers_lib _start_pending_block.
Proof. unfold _start_pending_block. keeps_lib. Qed.

Lemma lib_finalize_pending_cycle : preserves never_lowers_lib _finalize_pending_cycle.
Proof.
  unfold _finalize_pending_cycle. keeps_lib.
  apply lib_of_on_top, on_top_apply_cycle_trace.
Qed.

Hint Resolve lib_start_pending_block lib_finalize_pending_cycle : preserve.

Lemma reset_closed_session c :
  session_apply <$> _pending_block_session c <> Some true ->
  reset_pending_block_session c = Ok tt (set_pending_block_session None c).
Proof.
  intros Hs. unfold reset_pending_block_session. rewrite bind_read.
  destruct (_pending_block_session c) as [[[|]]|]; [by destruct Hs|reflexivity..].
Qed.

(** After [push()] the session no longer rolls back, so the [reset()]
    that ends [_generate_block] undoes nothing. *)
Lemma lib_generate_tail skip (result : signed_block) :
  preserves never_lowers_lib
    (session <- read _pending_block_session ;;
     match session with
     | Some _ => modify_state (set_pending_block_session (Some (mk_session false)))
     | None => throw undefined
     end ;;
     modify_state (set_pending_block_trace None) ;;
     modify_state (set_pending_block None) ;;
     reset_pending_block_session ;;
     (if negb (flag_set skip skip_fork_db) then
        modify_fork_db (fun f => (fork_push_block result f).2)
      else ret tt) ;;
     ret result).
Proof.
  intros c. rewrite bind_read. destruct (_pending_block_session c); [|cbn; reflexivity].
  rewrite !bind_modify_state.
  erewrite bind_ok; cycle 1.
  { apply reset_closed_session. discriminate. }
  destruct (negb (flag_set skip skip_fork_db)); cbn; lib_update.
Qed.

Lemma generate_block_keeps_lib fuel when_ producer_ key :
  preserves never_lowers_lib (_generate_block fuel when_ producer_ key).
Proof.
  unfold _generate_block.
  repeat first
    [ apply lib_generate_tail
    | apply lib_of_on_top; solve [auto 1 with preserve nocore]
    | preserve_step lib_update ].
Qed.
End lib.

Section monotone.
Context `{Config, Collaborators}.

(** X12.  Along every sequence of steps each of which is a
    returning [update_last_irreversible_block], a [_push_block] that
    returns without having switched forks, or a returning
    [_generate_block], the stored [last_irreversible_block_num] at the
    end is at least the one at the start, provided contract code does
    not lower it. *)
Theorem lib_never_decreases_without_undo c c' :
  contracts_keep_lib ->
  rtc extends_head c c' ->
  last_irreversible_block_num c <= last_irreversible_block_num c'.
Proof.
  intros Hexec Hsteps. change (never_lowers_lib c c').
  induction Hsteps as [c|c c1 c' Hstep _ IH]; [reflexivity|].
  etransitivity; [|exact IH]. clear IH.
  destruct Hstep as [fuel Hu|fuel b Hb|fuel when_ producer_ key b Hg].
  - pose proof (lib_of_on_top _ (on_top_update_last_irreversible_block fuel) c) as Hp.
    by rewrite Hu in Hp.
  - by eapply push_block_without_switch_keeps_lib.
  - pose proof (generate_block_keeps_lib fuel when_ producer_ key c) as Hp.
    by rewrite Hg in Hp.
Qed.
End monotone.


(** * The claims about irreversibility, on concrete chains *)

Module IrreversibilityFacts.
Import Toy.


(** C9 fails on the code.  A alone produced blocks 1 to 6, the
    schedules of heights 3 and 6 are pending, and B's block 7 makes
    block 6 irreversible.  The schedule of height 3 is activated and
    erased; the one of height 6 is then at the front, it is not below
    the new irreversible height, and the loop
    [while( gpo.pending_active_producers.size() )] erases nothing and
    never ends: whatever the bound on its iterations, the call does
    not return. *)
Theorem update_last_irreversible_block_never_returns :
  forall fuel,
    @update_last_irreversible_block Three.config collaborators fuel Three.at_seven
    = Diverge.
Proof.
  intros fuel.
  apply (@update_last_irreversible_block_spins Three.config collaborators
           fuel Three.at_seven
           [mk_producer Three.A (key Three.A) 6 0 0;
            mk_producer Three.B (key Three.B) 7 0 0;
            mk_producer Three.C (key Three.C) 0 0 0]
           6 (take 6 Three.seven) [(3, Three.abc)] (6, Three.abc) []).
  - vm_compute. reflexivity.
  - split; vm_compute; lia.
  - vm_compute. reflexivity.
  - vm_compute. constructor.
  - vm_compute. repeat constructor; discriminate.
  - reflexivity.
  - repeat constructor.
  - vm_compute. discriminate.
  - constructor. vm_compute. reflexivity.
Qed.
End IrreversibilityFacts.

(** * The claims on the three-producer chains *)

Module ThreeFacts.
Import Toy Three.

(** C10, instance.  On the empty chain with [alice]'s transfer
    pending, [pop_block] fails with [pop_empty_chain] and the store is
    back at genesis: the bandwidth charged to [alice] is gone. *)
Lemma pop_block_rolls_back_before_failing_witness :
  let pending := state_of (push_transaction (transfer 0) 0 at_genesis) at_genesis in
  pop_block pending = Throw pop_empty_chain (rolled_back pending)
  /\ objects (_db (rolled_back pending)) = genesis_store
  /\ _pending_block_session (rolled_back pending) = None.
Proof.
  apply (pop_block_rolls_back_before_failing
           (state_of (push_transaction (transfer 0) 0 at_genesis) at_genesis)
           genesis_store []);
    vm_compute; reflexivity.
Defined.


(** C5, instance.  [X] is B's block in B's slot on top of [b3]: B is
    scheduled and registered, all conditions hold and the header is
    accepted. *)
Lemma validate_block_header_accepts_iff_witness :
  exists r c', validate_block_header 0 X at_b3 = Ok r c'.
Proof.
  apply (proj1 (validate_block_header_accepts_iff 0 X at_b3)).
  exists B, (mk_producer B (key B) 2 0 0).
  split; [vm_compute; reflexivity|]. split; [vm_compute; reflexivity|].
  constructor; try (vm_compute; (reflexivity || discriminate)).
  intros Hnew. exfalso. apply Hnew. reflexivity.
Defined.

(** C5, counterexample to the claim as the spec words it.  B's
    producer object is missing from the store and both producer checks
    are skipped.  [X] builds on the head, is later than the head,
    carries no new producers and has a matching transaction Merkle
    root; with the checks skipped nothing is asked of the producer or
    the signature.  Every condition the spec lists holds, whatever
    producer and producer object they are read with, and the header is
    refused with [key_not_found]: the producer object is fetched before
    the flags are looked at. *)
Lemma header_without_producer_object_is_refused :
  (forall name p,
     header_conditions More.skip_producer_checks X More.at_b3_without_B name p)
  /\ scheduled_producer More.at_b3_without_B
       (get_slot_at_time More.at_b3_without_B (timestamp X)) = Some B
  /\ validate_block_header More.skip_producer_checks X More.at_b3_without_B
     = Throw key_not_found More.at_b3_without_B.
Proof.
  split; [|split; vm_compute; reflexivity].
  intros name p. constructor; try (vm_compute; (reflexivity || discriminate)).
  - intros Hnew. exfalso. apply Hnew. reflexivity.
Qed.

(** C7 fails on the code.  Pushing [Y'] after [X] and [Y] switches
    forks: [_push_block] returns [true].  The public [push_block] is
    declared [void] and hands back nothing, although its comment
    promises "@return true if we switched forks as a result of this
    push". *)
Theorem push_block_drops_the_switch_flag :
  exists c',
    with_skip_flags 0 (without_pending_transactions (_push_block 8 Y')) after_X_Y
    = Ok true c'
    /\ push_block 8 Y' 0 after_X_Y = Ok tt c'
    /\ head_block_id c' = id_of_block Y'.
Proof.
  exists (state_of (push_block 8 Y' 0 after_X_Y) at_b3).
  split; [|split]; vm_compute; reflexivity.
Qed.

(** C4 fails on the code.  [alice]'s transfer is pushed twice with
    no check skipped; both pushes succeed, and the transaction is not
    in the dedup index afterwards: [_push_transaction] calls neither
    [validate_uniqueness] nor [record_transaction]. *)
Theorem second_push_is_accepted :
  exists t1 c1 t2 c2,
    push_transaction (transfer 0) 0 at_genesis = Ok t1 c1
    /\ push_transaction (transfer 0) 0 c1 = Ok t2 c2
    /\ is_known_transaction c2 (id_of_trx (transfer 0)) = false
    /\ validate_uniqueness (transfer 0) c2 = Ok tt c2.
Proof.
  pose (r1 := push_transaction (transfer 0) 0 at_genesis).
  pose (c1 := state_of r1 at_genesis).
  pose (r2 := push_transaction (transfer 0) 0 c1).
  exists (mk_trx_trace (id_of_trx (transfer 0))
            [mk_action_trace currency (mk_action currency 5 [mk_level alice 1] [1; 2; 3])
               [] 0 0 0] []).
  exists c1.
  exists (mk_trx_trace (id_of_trx (transfer 0))
            [mk_action_trace currency (mk_action currency 5 [mk_level alice 1] [1; 2; 3])
               [] 0 0 0] []).
  exists (state_of r2 at_genesis).
  split; [|split; [|split]]; vm_compute; reflexivity.
Qed.


(** C8 fails on the code.  The transaction of a receipt in region 5,
    cycle 2, shard 1 is applied with the metadata [__apply_block]
    builds for it.  The action trace comes back with region 5 and
    cycle 2 and with the shard index the contract context left in it
    (0), not 1: [_apply_transaction] stamps [region_id] and
    [cycle_index] only. *)
Theorem shard_index_is_not_stamped :
  exists t c',
    _apply_transaction (make_metadata (transfer 0) get_chain_id 5 2 1) at_genesis
    = Ok t c'
    /\ map at_region_id (action_traces t) = [5]
    /\ map at_cycle_index (action_traces t) = [2]
    /\ map at_shard_index (action_traces t) = [0].
Proof.
  exists (mk_trx_trace (id_of_trx (transfer 0))
            [mk_action_trace currency (mk_action currency 5 [mk_level alice 1] [1; 2; 3])
               [] 5 2 0] []).
  exists (state_of (_apply_transaction (make_metadata (transfer 0) get_chain_id 5 2 1)
                      at_genesis) at_genesis).
  split; [|split; [|split]]; vm_compute; reflexivity.
Qed.
End ThreeFacts.

(** * Fork switches on the three-producer chain *)

Module ForkFacts.
Import Toy Three.


(** X12, instance.  [X] is applied on top of [b3] and [Y]
    is stored beside it; neither step undoes anything and the stored
    irreversible height goes from 2 to 3. *)
Lemma lib_never_decreases_without_undo_witness :
  last_irreversible_block_num at_b3
  <= last_irreversible_block_num
       (state_of (_push_block 8 Y (state_of (_push_block 8 X at_b3) at_b3)) at_b3).
Proof.
  apply lib_never_decreases_without_undo.
  - intros trx act o. cbn. unfold lib_of. lia.
  - apply (rtc_l _ _ (state_of (_push_block 8 X at_b3) at_b3)).
    + apply (extends_by_block _ _ 8 X). vm_compute. reflexivity.
    + apply rtc_once.
      apply (extends_by_block _ _ 8 Y). vm_compute. reflexivity.
Defined.
(** C1 fails on the code.  Head [b4], block 3 irreversible, the
    schedule announced at height 3 pending.  C's block [X5] of height
    5 makes block 4 irreversible: block 4 is appended to the block log
    and the pending schedule is activated and erased.  A's block [Y5]
    of height 5 is stored beside it.  Its child [Y6_bad] has a
    transaction Merkle root that does not match: [push_block] pops
    [X5], applies [Y5], fails on [Y6_bad], removes it from the fork
    database, pops [Y5], applies [X5] again and rethrows.  The head is
    [X5] as before, but the store is not what it was after [X5] alone:
    undoing [X5] brought the pending schedule back, and on the second
    application block 4 is already in the block log, which no undo
    touches, so the activation is skipped and the schedule stays
    pending. *)
Theorem failed_switch_is_not_a_round_trip :
  exists c',
    push_block 8 X5 0 at_b4 = Ok tt after_X5
    /\ push_block 8 Y5 0 after_X5 = Ok tt after_X5_Y5
    /\ push_block 8 Y6_bad 0 after_X5_Y5 = Throw assert_exception c'
    /\ head_block_id c' = head_block_id after_X5
    /\ fetch_block (_fork_db c') (block_id Y6_bad) = None
    /\ objects (_db after_X5_Y5) = objects (_db after_X5)
    /\ pending_of after_X5 = []
    /\ pending_of c' = [(3, abc)]
    /\ objects (_db c') <> objects (_db after_X5).
Proof.
  exists (state_of (push_block 8 Y6_bad 0 after_X5_Y5) at_b4).
  split; [vm_compute; reflexivity|].
  split; [vm_compute; reflexivity|].
  split; [vm_compute; reflexivity|].
  split; [vm_compute; reflexivity|].
  split; [vm_compute; reflexivity|].
  split; [vm_compute; reflexivity|].
  split; [vm_compute; reflexivity|].
  split; [vm_compute; reflexivity|].
  intros Heq.
  assert (pending_of (state_of (push_block 8 Y6_bad 0 after_X5_Y5) at_b4)
          = pending_of after_X5) as Hp
    by (unfold pending_of, get_global_properties; by rewrite Heq).
  vm_compute in Hp. discriminate.
Qed.
End ForkFacts.

(** * Computations that only check *)

Lemma checks_weaken {S} (E E' : exception -> Prop) (m : St S unit) :
  (forall e, E e -> E' e) -> checks E m -> checks E' m.
Proof. intros HE Hm s. destruct (Hm s) as [?|(e & ? & ?)]; eauto. Qed.

Lemma checks_ret {S} E : checks E (ret tt : St S unit).
Proof. intros s. by left. Qed.

Lemma checks_EOS_ASSERT {S} (E : exception -> Prop) cond e :
  E e -> checks E (EOS_ASSERT cond e : St S unit).
Proof. intros He s. destruct cond; [by left|right; by eexists]. Qed.

Lemma checks_bind {S} E (m k : St S unit) :
  checks E m -> checks E k -> checks E (m ;; k).
Proof.
  intros Hm Hk s. unfold bind. destruct (Hm s) as [->|(e & ? & ->)]; [apply Hk|].
  right. by eexists.
Qed.

Lemma bind_check_ok {S} E (m k : St S unit) s :
  checks E m -> (m ;; k) s = Ok tt s <-> m s = Ok tt s /\ k s = Ok tt s.
Proof.
  intros Hm. unfold bind. destruct (Hm s) as [->|(e & ? & ->)]; [tauto|].
  split; [discriminate|intros [? _]; discriminate].
Qed.

Lemma checks_for_each {S A} E (l : list A) (body : A -> St S unit) :
  (forall x, checks E (body x)) -> checks E (for_each l body).
Proof.
  intros Hb. induction l as [|x l IH]; cbn [for_each];
    [apply checks_ret|by apply checks_bind].
Qed.

Lemma for_each_check_ok {S A} E (l : list A) (body : A -> St S unit) s :
  (forall x, checks E (body x)) ->
  for_each l body s = Ok tt s <-> Forall (fun x => body x s = Ok tt s) l.
Proof.
  intros Hb. induction l as [|x l IH]; cbn [for_each].
  - split; [constructor|done].
  - rewrite (bind_check_ok E) by done. rewrite Forall_cons. tauto.
Qed.

Lemma EOS_ASSERT_ok {S} cond e (s : S) : EOS_ASSERT cond e s = Ok tt s <-> cond = true.
Proof. destruct cond; cbn; split; done. Qed.

(** * The library algorithms on sorted ranges *)

Lemma sorted_lookup (l : list N) i j x y :
  StronglySorted N.lt l -> (i < j)%nat ->
  l !! i = Some x -> l !! j = Some y -> x < y.
Proof.
  intros Hs. revert i j. induction Hs as [|a l _ IH Ha]; intros i j Hij Hi Hj; [done|].
  destruct j as [|j]; [lia|]. cbn in Hj.
  destruct i as [|i]; cbn in Hi.
  - injection Hi as <-. rewrite Forall_forall in Ha. apply Ha.
    by eapply list_elem_of_lookup_2.
  - eapply (IH i j); [lia|done..].
Qed.

Lemma sorted_lookup_le (l : list N) i j x y :
  StronglySorted N.lt l -> (i <= j)%nat ->
  l !! i = Some x -> l !! j = Some y -> x <= y.
Proof.
  intros Hs Hij Hi Hj. destruct (decide (i = j)) as [->|].
  - rewrite Hi in Hj. injection Hj as <-. lia.
  - apply N.lt_le_incl. eapply sorted_lookup; [done| |done..]. lia.
Qed.

Lemma lower_bound_spec fuel (l : list N) v : forall first count,
  StronglySorted N.lt l ->
  (count <= fuel)%nat -> (first + count <= length l)%nat ->
  let i := lower_bound fuel l v first count in
  (first <= i <= first + count)%nat
  /\ (forall j x, (first <= j < i)%nat -> l !! j = Some x -> x < v)
  /\ (forall j x, (i <= j < first + count)%nat -> l !! j = Some x -> v <= x).
Proof.
  induction fuel as [|fuel IH]; intros first count Hs Hf Hl; cbn zeta.
  - assert (count = 0%nat) as -> by lia. cbn. repeat split; intros; lia.
  - destruct count as [|count']; [cbn; repeat split; intros; lia|].
    cbn [lower_bound]. set (count := S count') in *. set (step := (count / 2)%nat).
    assert (step < count)%nat as Hstep by (apply Nat.div_lt; lia).
    destruct (lookup_lt_is_Some_2 l (first + step)) as [x Hx]; [lia|]. rewrite Hx.
    destruct (N.ltb_spec x v) as [Hlt|Hge].
    + destruct (IH (first + step + 1)%nat (count - (step + 1))%nat Hs) as (Hi & Hlo & Hhi);
        [lia..|].
      split; [lia|]. split.
      * intros j y Hj Hy. destruct (decide (j <= first + step)%nat).
        -- pose proof (sorted_lookup_le l j (first + step) y x Hs ltac:(lia) Hy Hx). lia.
        -- apply (Hlo j); [lia|done].
      * intros j y Hj Hy. apply (Hhi j); [lia|done].
    + destruct (IH first step Hs) as (Hi & Hlo & Hhi); [lia..|].
      split; [lia|]. split.
      * intros j y Hj Hy. apply (Hlo j); [lia|done].
      * intros j y Hj Hy. destruct (decide (j < first + step)%nat).
        -- apply (Hhi j); [lia|done].
        -- pose proof (sorted_lookup_le l (first + step) j x y Hs ltac:(lia) Hx Hy). lia.
Qed.

Lemma binary_search_elem_of (l : list N) v :
  StronglySorted N.lt l -> binary_search l v = true <-> v ∈ l.
Proof.
  intros Hs. unfold binary_search.
  destruct (lower_bound_spec (length l) l v 0 (length l) Hs) as (Hi & Hlo & Hhi); [lia..|].
  set (i := lower_bound _ _ _ _ _) in *. split.
  - destruct (l !! i) as [x|] eqn:Hx; [|done].
    destruct (N.ltb_spec v x); [done|]. intros _.
    pose proof (Hhi i x) as Hv. apply lookup_lt_Some in Hx as Hlen.
    assert (x = v) as -> by (specialize (Hv ltac:(lia) Hx); lia).
    by eapply list_elem_of_lookup_2.
  - intros (j & Hj)%list_elem_of_lookup_1. apply lookup_lt_Some in Hj as Hlen.
    destruct (decide (j < i)%nat) as [Hji|Hji].
    { specialize (Hlo j v ltac:(lia) Hj). lia. }
    destruct (lookup_lt_is_Some_2 l i) as [x Hx]; [lia|]. rewrite Hx.
    pose proof (sorted_lookup_le l i j x v Hs ltac:(lia) Hx Hj).
    specialize (Hhi i x ltac:(lia) Hx).
    destruct (N.ltb_spec v x); [lia|done].
Qed.

Lemma set_intersection_nil_r l1 : set_intersection l1 [] = [].
Proof. by destruct l1. Qed.

Lemma elem_of_set_intersection (l1 l2 : list N) v :
  StronglySorted N.lt l1 -> StronglySorted N.lt l2 ->
  v ∈ set_intersection l1 l2 <-> v ∈ l1 /\ v ∈ l2.
Proof.
  intros Hs1. revert l2. induction Hs1 as [|x l1 Hs1 IH1 Hx]; intros l2 Hs2.
  { cbn. destruct l2; split; [inversion 1|intros [[]%elem_of_nil _]
                             |inversion 1|intros [[]%elem_of_nil _]]. }
  induction Hs2 as [|y l2 Hs2 IH2 Hy].
  { cbn. split; [inversion 1|intros [_ []%elem_of_nil]]. }
  rewrite Forall_forall in Hx, Hy.
  cbn [set_intersection]. destruct (N.ltb_spec x y) as [Hxy|Hxy].
  - rewrite IH1 by (by constructor; [|apply Forall_forall]).
    rewrite !elem_of_cons. split; [tauto|].
    intros [[->|?] [->|Hv]]; try tauto; try lia.
    specialize (Hy _ Hv). lia.
  - destruct (N.ltb_spec y x) as [Hyx|Hyx].
    + change ((fix inner (l2 : list N) : list N :=
                 match l2 with
                 | [] => []
                 | y :: l2' =>
                     if x <? y then set_intersection l1 l2
                     else if y <? x then inner l2' else x :: set_intersection l1 l2'
                 end) l2) with (set_intersection (x :: l1) l2).
      rewrite IH2. rewrite !elem_of_cons. split; [tauto|].
      intros [[->|Hv] [->|?]]; try tauto; try lia.
      specialize (Hx _ Hv). lia.
    + assert (x = y) as <- by lia.
      rewrite !elem_of_cons, IH1 by done. split; [tauto|].
      intros [[->|Hv] [Hv'|Hv']]; auto.
Qed.

Lemma adjacent_cons {A} (a b : A) l : adjacent (a :: b :: l) = (a, b) :: adjacent (b :: l).
Proof. reflexivity. Qed.

Lemma adjacent_sorted (l : list N) :
  Forall (fun p => (p.1 <? p.2) = true) (adjacent l) <-> StronglySorted N.lt l.
Proof.
  split.
  - intros Ha. apply Sorted_StronglySorted; [intros ???; lia|].
    induction l as [|a [|b l] IH]; [constructor|repeat constructor|].
    rewrite adjacent_cons in Ha. apply Forall_cons in Ha as [Hab Ha].
    constructor; [auto|]. constructor. by apply N.ltb_lt.
  - intros Hs%StronglySorted_Sorted.
    induction l as [|a [|b l] IH]; [constructor|constructor|].
    rewrite adjacent_cons. apply Sorted_inv in Hs as [Hs Hd]. constructor; [|auto].
    apply HdRel_inv in Hd. by apply N.ltb_lt.
Qed.

Section validation.
Context `{Config, Collaborators}.

Lemma checks_sorted (l : list N) :
  checks (S := chain_controller) scope_error
    (for_each (adjacent l) (fun p => EOS_ASSERT (p.1 <? p.2) transaction_exception)).
Proof. apply checks_for_each. intros. apply checks_EOS_ASSERT. by left. Qed.

Lemma checks_has_write_scope (trx : transaction) (a : action) :
  checks (S := chain_controller) scope_error
    (for_each (authorization a) (fun auth =>
       FC_ASSERT (binary_search (write_scope trx) (actor auth)))).
Proof. apply checks_for_each. intros. apply checks_EOS_ASSERT. by right. Qed.

(** X4.  [validate_scope] returns exactly for the transactions whose
    read and write scopes are strictly ascending, whose authorizing
    accounts are all in the write scope, and whose read and write
    scopes share no entry.  Otherwise it throws
    [transaction_exception] or an assertion failure; it never changes
    the controller. *)
Theorem validate_scope_accepts_iff trx c :
  (validate_scope trx c = Ok tt c <-> well_scoped trx)
  /\ (validate_scope trx c = Ok tt c
      \/ validate_scope trx c = Throw transaction_exception c
      \/ validate_scope trx c = Throw assert_exception c).
Proof.
  pose proof checks_sorted as Hsorted. pose proof (checks_has_write_scope trx) as Hauth.
  split.
  - unfold validate_scope, well_scoped. cbv zeta.
    rewrite !(bind_check_ok scope_error) by (done || by apply checks_for_each).
    rewrite !(for_each_check_ok scope_error)
      by (done || intros; apply checks_EOS_ASSERT; by left).
    setoid_rewrite EOS_ASSERT_ok. rewrite !adjacent_sorted.
    rewrite bool_decide_eq_true.
    split.
    + intros (Hr & Hw & Ha & Hi). repeat split; [done..| |].
      * eapply List.Forall_impl; [|exact Ha]. intros a Hb. cbn in Hb.
        apply (for_each_check_ok scope_error) in Hb;
          [|intros; apply checks_EOS_ASSERT; by right].
        eapply List.Forall_impl; [|exact Hb]. intros auth Hc. cbn in Hc.
        apply EOS_ASSERT_ok in Hc. by apply binary_search_elem_of in Hc.
      * intros s Hs1 Hs2. apply nil_length_inv in Hi.
        assert (s ∈ set_intersection (read_scope trx) (write_scope trx)) as Hin
          by by apply elem_of_set_intersection.
        rewrite Hi in Hin. by apply elem_of_nil in Hin.
    + intros (Hr & Hw & Ha & Hi). repeat split; [done..| |].
      * eapply List.Forall_impl; [|exact Ha]. intros a Hb. cbn in Hb.
        apply (for_each_check_ok scope_error); [intros; apply checks_EOS_ASSERT; by right|].
        eapply List.Forall_impl; [|exact Hb]. intros auth Hc. cbn in Hc.
        apply EOS_ASSERT_ok. by apply binary_search_elem_of.
      * destruct (set_intersection _ _) as [|s l] eqn:Hl; [done|].
        assert (s ∈ set_intersection (read_scope trx) (write_scope trx)) as Hin
          by (rewrite Hl; left).
        apply elem_of_set_intersection in Hin as [? ?]; [|done..]. by destruct (Hi s).
  - assert (checks scope_error (validate_scope trx)) as Hc.
    { unfold validate_scope. cbv zeta.
      repeat apply checks_bind; try done; [by apply checks_for_each|].
      apply checks_EOS_ASSERT. by right. }
    destruct (Hc c) as [?|(e & [->| ->] & ?)]; auto.
Qed.

Lemma checks_require_account name :
  checks (eq assert_exception) (require_account name).
Proof.
  intros c. unfold require_account, bind, the_objects.
  case_bool_decide; [by left|right; eauto].
Qed.

Lemma require_account_ok name c : require_account name c = Ok tt c <-> is_account c name.
Proof.
  unfold require_account, bind, the_objects, is_account.
  case_bool_decide; split; done.
Qed.

Lemma checks_require_scope s : checks (eq assert_exception) (require_scope s).
Proof.
  unfold require_scope. destruct (_ || _); [apply checks_ret|apply checks_require_account].
Qed.

Lemma require_scope_ok s c : require_scope s c = Ok tt c <-> is_scope c s.
Proof.
  unfold require_scope, is_scope.
  destruct (N.eqb_spec s eosio_all_scope) as [->|Hn1]; cbn [orb]; [split; auto|].
  destruct (N.eqb_spec s eosio_auth_scope) as [->|Hn2]; cbn [orb]; [split; auto|].
  rewrite require_account_ok. split; [auto|]. by intros [?|[?|?]].
Qed.

Lemma checks_action_accounts (act : action) :
  checks (eq assert_exception)
    (require_account (act_scope act) ;;
     for_each (authorization act) (fun auth => require_account (actor auth))).
Proof.
  apply checks_bind; [apply checks_require_account|].
  apply checks_for_each. intros. apply checks_require_account.
Qed.

(** X5.  [validate_referenced_accounts] returns exactly when every
    read and write scope is a built-in scope or an account, and the
    scope and every authorizing actor of every action is an account.
    Otherwise it fails an assertion; it never changes the
    controller. *)
Theorem validate_referenced_accounts_accepts_iff trx c :
  (validate_referenced_accounts trx c = Ok tt c <-> accounts_exist c trx)
  /\ (validate_referenced_accounts trx c = Ok tt c
      \/ validate_referenced_accounts trx c = Throw assert_exception c).
Proof.
  split.
  - unfold validate_referenced_accounts, accounts_exist.
    rewrite !(bind_check_ok (eq assert_exception))
      by (apply checks_for_each; intros; apply checks_require_scope).
    rewrite !(for_each_check_ok (eq assert_exception))
      by (intros; apply checks_require_scope).
    rewrite (for_each_check_ok (eq assert_exception))
      by (intros; apply checks_action_accounts).
    setoid_rewrite require_scope_ok.
    assert (forall act : action,
      (require_account (act_scope act) ;;
       for_each (authorization act) (fun auth => require_account (actor auth))) c = Ok tt c
      <-> is_account c (act_scope act)
          /\ Forall (fun auth => is_account c (actor auth)) (authorization act)) as Hact.
    { intros act. rewrite (bind_check_ok (eq assert_exception))
        by apply checks_require_account.
      rewrite (for_each_check_ok (eq assert_exception))
        by (intros; apply checks_require_account).
      rewrite require_account_ok. by setoid_rewrite require_account_ok. }
    by setoid_rewrite Hact.
  - assert (checks (eq assert_exception) (validate_referenced_accounts trx)) as Hc.
    { unfold validate_referenced_accounts.
      repeat apply checks_bind; apply checks_for_each; intros;
        first [apply checks_require_scope|apply checks_action_accounts]. }
    destruct (Hc c) as [?|(e & <- & ?)]; auto.
Qed.

(** ** The dedup index *)

(** X6.  After [record_transaction] the transaction is known, and
    [validate_uniqueness] rejects it with [tx_duplicate] unless the
    duplicate check is skipped; transactions with another id are known
    exactly if they were before. *)
Theorem recorded_transaction_is_duplicate trx c :
  exists c',
    record_transaction trx c = Ok tt c'
    /\ is_known_transaction c' (trx_id trx) = true
    /\ validate_uniqueness trx c'
       = (if should_check_for_duplicate_transactions c
          then Throw tx_duplicate c' else Ok tt c')
    /\ forall trx', trx_id trx' <> trx_id trx ->
         is_known_transaction c' (trx_id trx') = is_known_transaction c (trx_id trx').
Proof.
  eexists. split; [reflexivity|]. cbn. split; [|split].
  - unfold is_known_transaction. cbn. rewrite lookup_insert_eq. by apply bool_decide_eq_true.
  - unfold validate_uniqueness, bind, read, the_objects,
      should_check_for_duplicate_transactions. cbn.
    destruct (negb (flag_set _ _)); cbn; [|done].
    rewrite lookup_insert_eq. rewrite bool_decide_eq_false_2 by done. done.
  - intros trx' Hne. unfold is_known_transaction. cbn. by rewrite lookup_insert_ne.
Qed.

(** ** Block summaries and TaPoS *)

Lemma land_65535 n : N.land n 65535 = uint16 n.
Proof. change 65535 with (N.ones 16). apply N.land_ones. Qed.

(** X7.  [create_block_summary] and [validate_tapos] agree on the
    ring position: after the summary of block [b] is written, a
    transaction whose [ref_block_num] has the low 16 bits of [b]'s
    number is checked against [b]'s id, and passes without a look at
    the ring when the TaPoS check is skipped. *)
Theorem summary_is_what_tapos_checks b trx c c' :
  create_block_summary b c = Ok tt c' ->
  uint16 (ref_block_num trx) = uint16 (block_num b) ->
  validate_tapos trx c'
  = if should_check_tapos c then
      if verify_reference_block trx (block_id b) then Ok tt c'
      else Throw transaction_exception c'
    else Ok tt c'.
Proof.
  unfold create_block_summary, bind, the_objects. rewrite land_65535.
  destruct (block_summary_index _ !! _) eqn:Hs; [|discriminate].
  cbn. intros [= <-] Href.
  unfold validate_tapos, bind, read, the_objects, should_check_tapos. cbn.
  destruct (negb (flag_set _ _)); cbn; [|done].
  rewrite Href, lookup_insert_eq. by destruct (verify_reference_block _ _).
Qed.

(** ** Known blocks *)

(** X8.  [is_known_block] answers true exactly for the ids
    [fetch_block_by_id] finds a block for. *)
Theorem known_blocks_can_be_fetched c id :
  is_known_block c id = bool_decide (is_Some (fetch_block_by_id c id)).
Proof.
  unfold is_known_block, fetch_block_by_id, is_known_block_fork.
  destruct (fetch_block (_fork_db c) id) as [i|]; [|done].
  rewrite (bool_decide_eq_true_2 (is_Some (Some i))) by by eexists.
  symmetry. apply bool_decide_eq_true. by eexists.
Qed.
End validation.

(** ** Apply handlers *)

(** X9.  [find_apply_handler] finds what [_set_apply_handler] stored
    under the same contract, scope and action, and for every other key
    what it found before. *)
Theorem find_apply_handler_set {V} (h : apply_handlers V) contract scope action v
    receiver scope' act' :
  find_apply_handler (_set_apply_handler contract scope action v h) receiver scope' act'
  = if decide ((receiver, scope', act') = (contract, scope, action)) then Some v
    else find_apply_handler h receiver scope' act'.
Proof.
  unfold find_apply_handler, _set_apply_handler.
  destruct (decide (receiver = contract)) as [->|Hr].
  - rewrite lookup_insert_eq. cbv beta iota.
    destruct (decide ((scope', act') = (scope, action))) as [[= -> ->]|Hsa].
    + rewrite lookup_insert_eq. by rewrite decide_True.
    + rewrite lookup_insert_ne by done.
      rewrite decide_False by congruence.
      destruct (h !! contract); [done|]. apply lookup_empty.
  - rewrite lookup_insert_ne by done. rewrite decide_False by congruence. done.
Qed.

(** * Slots, participation and the pending schedules *)

Lemma popcountll_le n : popcountll n <= 64.
Proof.
  unfold popcountll.
  pose proof (List.filter_length_le (N.testbit n) (N_range 0 64)) as Hl.
  change (length (N_range 0 64)) with 64%nat in Hl. lia.
Qed.

Section slots.
Context `{Config, Collaborators}.

Lemma uint32_small n : n < 2 ^ 32 -> uint32 n = n.
Proof. intros. unfold uint32. by apply N.mod_small. Qed.

Lemma uint32_lt n : uint32 n < 2 ^ 32.
Proof. unfold uint32. apply N.mod_lt. lia. Qed.

Lemma of_to_time_point t :
  0 < block_interval_ms -> slot t < 2 ^ 32 ->
  of_time_point (to_time_point t) = t.
Proof.
  intros Hi Hs. destruct t as [s]. cbn in *. unfold of_time_point, to_time_point. cbn.
  f_equal. rewrite N.div_mul by lia.
  replace (s * block_interval_ms + block_timestamp_epoch_ms - block_timestamp_epoch_ms)
    with (s * block_interval_ms) by lia.
  rewrite N.div_mul by lia. by apply uint32_small.
Qed.

Lemma head_slot_lt c : head_slot c < 2 ^ 32.
Proof. unfold head_slot, of_time_point. cbn. apply uint32_lt. Qed.

Lemma get_slot_time_spec c n :
  0 < block_interval_ms -> n <> 0 -> n < 2 ^ 32 ->
  get_slot_time c n = mk_timestamp (uint32 (head_slot c + n)).
Proof.
  intros Hi Hn Hr. unfold get_slot_time. cbv zeta. rewrite (uint32_small n) by done.
  destruct (N.eqb_spec n 0) as [|_]; [done|].
  destruct (head_block_num c =? 0); [|done].
  rewrite of_to_time_point; [done|done|]. cbn. apply uint32_lt.
Qed.

(** X1.  Slot numbers and slot times are inverse to each other:
    for a slot number [n] of at least 1 whose time still fits the
    32-bit timestamp, [get_slot_at_time (get_slot_time n)] is [n]. *)
Theorem slot_of_slot_time c n :
  0 < block_interval_ms -> 0 < n -> head_slot c + n < 2 ^ 32 ->
  get_slot_at_time c (get_slot_time c n) = n.
Proof.
  intros Hi Hn Hr. unfold get_slot_at_time.
  rewrite (get_slot_time_spec c n), (get_slot_time_spec c 1) by lia. cbn [slot].
  rewrite (uint32_small (head_slot c + n)), (uint32_small (head_slot c + 1)) by lia.
  destruct (N.ltb_spec (head_slot c + n) (head_slot c + 1)); [lia|].
  replace (head_slot c + n + 2 ^ 32 - (head_slot c + 1) + 1) with (n + 1 * 2 ^ 32) by lia.
  unfold uint32. rewrite N.Div0.mod_add. apply N.mod_small. lia.
Qed.

(** X2.  With a positive block interval, a head block whose slot is
    below 2^32 - 1 and a timestamp [t] whose slot fits 32 bits: if [t]
    is not after the head block's slot it is in slot 0, whether it is
    the head's own or an older one; if it is later, [t] is the time of
    its slot, [get_slot_time (get_slot_at_time t) = t]. *)
Theorem slot_time_of_slot c t :
  0 < block_interval_ms -> slot t < 2 ^ 32 -> head_slot c + 1 < 2 ^ 32 ->
  (slot t <= head_slot c -> get_slot_at_time c t = 0)
  /\ (head_slot c < slot t -> get_slot_time c (get_slot_at_time c t) = t).
Proof.
  intros Hi Ht Hr. unfold get_slot_at_time.
  rewrite (get_slot_time_spec c 1) by lia. cbn [slot]. rewrite (uint32_small (_ + 1)) by lia.
  split; intros Hs.
  - destruct (N.ltb_spec (slot t) (head_slot c + 1)); [done|lia].
  - destruct (N.ltb_spec (slot t) (head_slot c + 1)); [lia|].
    assert (uint32 (slot t + 2 ^ 32 - (head_slot c + 1) + 1) = slot t - head_slot c) as ->.
    { replace (slot t + 2 ^ 32 - (head_slot c + 1) + 1)
        with (slot t - head_slot c + 1 * 2 ^ 32) by lia.
      unfold uint32. rewrite N.Div0.mod_add. apply N.mod_small. lia. }
    rewrite get_slot_time_spec by lia. destruct t as [s]; cbn in *. f_equal.
    rewrite uint32_small; lia.
Qed.

(** X3.  The schedule repeats every [blocks_per_round] slots: as
    long as the slot number stays below 2^32, the width of the
    parameter, and the absolute slot does not overflow 64 bits,
    [get_scheduled_producer] answers for [slot_num + blocks_per_round]
    what it answers for [slot_num], the producer or the failure. *)
Theorem get_scheduled_producer_periodic slot_num c :
  slot_num + blocks_per_round < 2 ^ 32 ->
  current_absolute_slot (get_dynamic_global_properties c) + slot_num + blocks_per_round
    < 2 ^ 64 ->
  get_scheduled_producer (slot_num + blocks_per_round) c = get_scheduled_producer slot_num c.
Proof.
  intros Hs Hr. unfold get_scheduled_producer, bind, read. cbn.
  rewrite (uint32_small (slot_num + blocks_per_round)), (uint32_small slot_num) by lia.
  unfold uint64.
  rewrite (N.mod_small (_ + (slot_num + blocks_per_round))), (N.mod_small (_ + slot_num)) by lia.
  replace (current_absolute_slot (get_dynamic_global_properties c)
           + (slot_num + blocks_per_round))
    with (current_absolute_slot (get_dynamic_global_properties c) + slot_num
          + 1 * blocks_per_round) by lia.
  by rewrite N.Div0.mod_add.
Qed.

(** X10.  With [percent_100] below 2^32,
    [producer_participation_rate] is at most [percent_100]; it is
    [percent_100] when all 64 recent slots are filled (the value set
    at genesis) and 0 when none is. *)
Theorem producer_participation_rate_bounded c :
  percent_100 < 2 ^ 32 ->
  producer_participation_rate c <= percent_100
  /\ (recent_slots_filled (get_dynamic_global_properties c) = 2 ^ 64 - 1 ->
      producer_participation_rate c = percent_100)
  /\ (recent_slots_filled (get_dynamic_global_properties c) = 0 ->
      producer_participation_rate c = 0).
Proof.
  intros Hp. unfold producer_participation_rate. cbv zeta.
  set (k := popcountll _). pose proof (popcountll_le (recent_slots_filled
    (get_dynamic_global_properties c))) as Hk. fold k in Hk.
  assert (uint64 percent_100 = percent_100) as ->
    by (unfold uint64; apply N.mod_small; lia).
  assert (percent_100 * k <= percent_100 * 64) as Hm by (apply N.mul_le_mono_l; lia).
  assert (uint64 (percent_100 * k) = percent_100 * k) as ->
    by (unfold uint64; apply N.mod_small; lia).
  assert (percent_100 * k / 64 <= percent_100) as Hd.
  { apply N.Div0.div_le_upper_bound. lia. }
  assert (uint32 (percent_100 * k / 64) = percent_100 * k / 64) as ->
    by (unfold uint32; apply N.mod_small; lia).
  split; [done|]. split; intros Hr; subst k; rewrite Hr.
  - change (popcountll (2 ^ 64 - 1)) with 64. by rewrite N.div_mul.
  - change (popcountll 0) with 0. by rewrite N.mul_0_r.
Qed.

Lemma not_all_below (new_lib : N) (l : list (block_num_type * producer_schedule_type)) :
  ~ Forall (fun item => item.1 < new_lib) l ->
  exists before front rest,
    l = before ++ front :: rest
    /\ Forall (fun item => item.1 < new_lib) before /\ new_lib <= front.1.
Proof.
  induction l as [|a l IH]; intros Hn; [destruct Hn; constructor|].
  destruct (decide (a.1 < new_lib)) as [Ha|Ha].
  - destruct IH as (before & front & rest & -> & Hb & Hf).
    { intros Hl. apply Hn. by constructor. }
    exists (a :: before), front, rest. repeat split; [by constructor|done].
  - exists [], a, l. repeat split; [constructor|lia].
Qed.

(** X11.  The loop of [update_last_irreversible_block] that erases
    the activated pending schedules returns, for some bound on its
    iterations, exactly when every pending entry is below the new
    irreversible height; it then leaves the list empty, and it never
    throws. *)
Theorem erase_activated_returns_iff new_lib c :
  ((exists fuel r c', erase_activated fuel new_lib c = Ok r c')
   <-> Forall (fun item => item.1 < new_lib) (pending_of c))
  /\ (forall fuel r c', erase_activated fuel new_lib c = Ok r c' ->
        c' = set_pending [] c)
  /\ (forall fuel e c', erase_activated fuel new_lib c <> Throw e c').
Proof.
  assert (forall fuel,
            Forall (fun item => item.1 < new_lib) (pending_of c) ->
            erase_activated fuel new_lib c = Diverge
            \/ erase_activated fuel new_lib c = Ok tt (set_pending [] c)) as Hall.
  { intros fuel Hb. remember (pending_of c) as l eqn:Hl. revert c fuel Hl Hb.
    induction l as [|front rest IH]; intros c fuel Hl Hb.
    - destruct fuel; [by left|]. right. rewrite erase_activated_done by done.
      f_equal. unfold set_pending. destruct c as [[o ? ?] ? ? ? ? ? ? ? ? ? ? ?]. cbn.
      unfold pending_of, get_global_properties in Hl. cbn in Hl.
      destruct o as [[? ? ?] ? ? ? ? ? ? ? ? ? ? ? ?]. cbn in *. by subst.
    - destruct fuel; [by left|]. apply Forall_cons in Hb as [Hf Hrest].
      rewrite (erase_activated_step _ _ _ front rest) by done.
      destruct (IH (set_pending rest c) fuel) as [->| ->];
        [by destruct c as [[[[]]]]|done| |].
      + by left.
      + by right. }
  assert (forall fuel,
            ~ Forall (fun item => item.1 < new_lib) (pending_of c) ->
            erase_activated fuel new_lib c = Diverge) as Hstuck.
  { intros fuel (before & front & rest & Hp & Hb & Hf)%not_all_below.
    by eapply erase_activated_diverges. }
  split; [split|split].
  - intros (fuel & r & c' & Hok).
    destruct (decide (Forall (fun item => item.1 < new_lib) (pending_of c))) as [|Hn];
      [done|]. rewrite Hstuck in Hok by done. discriminate.
  - intros Hb. exists (S (length (pending_of c))), tt, (set_pending [] c).
    apply erase_activated_all; [done|lia].
  - intros fuel r c' Hok.
    destruct (decide (Forall (fun item => item.1 < new_lib) (pending_of c))) as [Hb|Hn].
    + destruct (Hall fuel Hb) as [Hd|Hd]; rewrite Hd in Hok; congruence.
    + rewrite Hstuck in Hok by done. discriminate.
  - intros fuel e c' Hth.
    destruct (decide (Forall (fun item => item.1 < new_lib) (pending_of c))) as [Hb|Hn].
    + destruct (Hall fuel Hb) as [Hd|Hd]; rewrite Hd in Hth; congruence.
    + rewrite Hstuck in Hth by done. discriminate.
Qed.
End slots.

(** * The frames of the controller's methods *)


(** ** Frames *)

#[export] Instance store_only_refl : Reflexive store_only.
Proof. intros c. by constructor. Qed.

#[export] Instance store_only_trans : Transitive store_only.
Proof.
  intros c1 c2 c3 [] []. constructor; try congruence. set_solver.
Qed.

#[export] Instance block_frame_refl : Reflexive block_frame.
Proof.
  intros c. constructor; try reflexivity.
  exists (length (undo_stack (_db c))). by rewrite firstn_all.
Qed.

#[export] Instance block_frame_trans : Transitive block_frame.
Proof.
  intros c1 c2 c3 [[n Hn] ? ? ? ? ? ? ? ? ? ? ? ? ?] [[m Hm] ? ? ? ? ? ? ? ? ? ? ? ? ?].
  constructor; try congruence.
  - exists (m `min` n)%nat. rewrite Hm, Hn. apply take_take.
  - set_solver.
  - etransitivity; eassumption.
Qed.

Lemma store_only_block_frame c c' : store_only c c' -> block_frame c c'.
Proof.
  intros []. constructor; try done.
  - exists (length (undo_stack (_db c))). rewrite firstn_all. done.
  - by rewrite so_log0.
Qed.

(** ** Computations that only read *)

Lemma preserves_of_reads {S A} (R : relation S) `{!Reflexive R} (m : St S A) :
  preserves eq m -> preserves R m.
Proof. intros Hm s. specialize (Hm s). destruct (m s); subst; done. Qed.

Create HintDb reads.

Ltac frame_step solver :=
  first
    [ progress intros
    | solve [auto 1 with preserve nocore]
    | solve [apply preserves_of_reads; [exact _|solve [auto 1 with reads nocore]]]
    | preserve_step solver ].

Ltac frame_with solver := repeat (frame_step solver).

Ltac only_reads := frame_with ltac:(idtac).

Ltac so_field :=
  first [ reflexivity | done ].

Ltac touches_store_only :=
  frame_with ltac:(constructor; cbn; so_field).

Section reads.
Context `{Config, Collaborators}.

Lemma get_producer_reads n : preserves eq (get_producer n).
Proof. unfold get_producer. only_reads. Qed.

Lemma get_permission_reads l : preserves eq (get_permission l).
Proof. unfold get_permission. only_reads. Qed.

Lemma get_scheduled_producer_reads n : preserves eq (get_scheduled_producer n).
Proof. unfold get_scheduled_producer. only_reads. Qed.

Hint Resolve get_producer_reads get_permission_reads get_scheduled_producer_reads : reads.

Lemma validate_block_header_reads skip b : preserves eq (validate_block_header skip b).
Proof. unfold validate_block_header. only_reads. Qed.

Lemma fill_schedule_reads votes : forall count slots,
  preserves eq (fill_schedule votes count slots).
Proof.
  induction votes as [|v votes IH]; intros count slots; cbn [fill_schedule]; only_reads.
Qed.

Hint Resolve validate_block_header_reads fill_schedule_reads : reads.

Lemma calculate_producer_schedule_reads : preserves eq _calculate_producer_schedule.
Proof. unfold _calculate_producer_schedule. only_reads. Qed.

Lemma lookup_minimum_permission_reads a s n :
  preserves eq (lookup_minimum_permission a s n).
Proof. unfold lookup_minimum_permission. only_reads. Qed.

Hint Resolve calculate_producer_schedule_reads lookup_minimum_permission_reads : reads.

Lemma check_authorization_reads trx keys allow accounts :
  preserves eq (check_authorization trx keys allow accounts).
Proof. unfold check_authorization. only_reads. Qed.
End reads.

#[export] Hint Resolve get_producer_reads get_permission_reads
  get_scheduled_producer_reads validate_block_header_reads fill_schedule_reads
  calculate_producer_schedule_reads lookup_minimum_permission_reads
  check_authorization_reads : reads.

Section store_only.
Context `{Config, Collaborators}.

Lemma store_only_set_max_size n : preserves store_only (modify_fork_db (fork_set_max_size n)).
Proof.
  intros c. cbn. constructor; cbn; try reflexivity.
  - unfold fork_set_max_size. destruct (fork_head (_fork_db c)); cbn; [|reflexivity].
    intros i Hi. apply list_elem_of_In, filter_In in Hi as [Hi _]. by apply list_elem_of_In.
  - unfold fork_set_max_size. by destruct (fork_head (_fork_db c)).
Qed.

Lemma store_only_on_objects {A} (m : St db_objects A) : preserves store_only (on_objects m).
Proof.
  intros c. unfold on_objects. destruct (m (objects (_db c))); [| |exact I]; by constructor.
Qed.

Hint Resolve store_only_set_max_size store_only_on_objects : preserve.

Lemma store_only_update_global_properties b :
  preserves store_only (update_global_properties b).
Proof. unfold update_global_properties. touches_store_only. Qed.

Lemma store_only_create_block_summary b : preserves store_only (create_block_summary b).
Proof. unfold create_block_summary. touches_store_only. Qed.

Lemma store_only_clear_expired_transactions :
  preserves store_only clear_expired_transactions.
Proof. unfold clear_expired_transactions. touches_store_only. Qed.

Lemma store_only_update_global_dynamic_data b :
  preserves store_only (update_global_dynamic_data b).
Proof. unfold update_global_dynamic_data. touches_store_only. Qed.

Lemma store_only_update_signing_producer p b :
  preserves store_only (update_signing_producer p b).
Proof. unfold update_signing_producer. touches_store_only. Qed.

Lemma store_only_erase_activated fuel n : preserves store_only (erase_activated fuel n).
Proof. unfold erase_activated. touches_store_only. Qed.

Lemma store_only_apply_cycle_trace t : preserves store_only (_apply_cycle_trace t).
Proof. unfold _apply_cycle_trace. touches_store_only. Qed.

Lemma store_only_apply_transaction meta : preserves store_only (_apply_transaction meta).
Proof. unfold _apply_transaction. touches_store_only. Qed.
End store_only.

#[export] Hint Resolve store_only_set_max_size store_only_on_objects
  store_only_update_global_properties store_only_create_block_summary
  store_only_clear_expired_transactions store_only_update_global_dynamic_data
  store_only_update_signing_producer store_only_erase_activated
  store_only_apply_cycle_trace store_only_apply_transaction : preserve.


Ltac bf_field :=
  first [ reflexivity | done | (eexists; reflexivity)
        | match goal with
          | |- exists n, ?s = take n ?s => exists (length s); by rewrite firstn_all
          end ].

Ltac block_frame_step :=
  first
    [ progress intros
    | solve [auto 1 with preserve nocore]
    | solve [apply (preserves_weaken store_only block_frame);
             [apply store_only_block_frame|solve [auto 1 with preserve nocore]]]
    | frame_step ltac:(constructor; cbn; bf_field) ].

Ltac keeps_block_frame := repeat block_frame_step.

Section block_frame.
Context `{Config, Collaborators}.

Lemma block_frame_append_fetched n : preserves block_frame (append_fetched n).
Proof.
  unfold append_fetched. keeps_block_frame. intros c. unfold log_append.
  destruct (log_head (_block_log c)); [destruct (_ =? _)|]; cbn;
    try reflexivity; constructor; cbn; try bf_field; by apply prefix_app_r.
Qed.

Hint Resolve block_frame_append_fetched : preserve.

Lemma block_frame_update_last_irreversible_block fuel :
  preserves block_frame (update_last_irreversible_block fuel).
Proof.
  unfold update_last_irreversible_block.
  change (for_each ?ns (fun block_to_write => _)) with (for_each ns append_fetched).
  keeps_block_frame.
Qed.

Hint Resolve block_frame_update_last_irreversible_block : preserve.

Lemma block_frame_finalize_block fuel trace :
  preserves block_frame (_finalize_block fuel trace).
Proof. unfold _finalize_block. keeps_block_frame. Qed.

Hint Resolve block_frame_finalize_block : preserve.

Lemma block_frame___apply_block fuel b : preserves block_frame (__apply_block fuel b).
Proof. unfold __apply_block. keeps_block_frame. Qed.

(** The scoped settings are put back however the body is left. *)
Lemma block_frame_with_skip_flags {A} skip (m : M A) :
  preserves block_frame m -> preserves block_frame (with_skip_flags skip m).
Proof.
  intros Hm c. unfold with_skip_flags, finally, try_catch, bind, read, modify_state.
  specialize (Hm (set_skip_flags skip c)).
  destruct (m (set_skip_flags skip c)) as [a c'|e c'|]; [| |done];
    destruct Hm; by constructor.
Qed.

Lemma block_frame_with_applying_block {A} (m : M A) :
  preserves block_frame m -> preserves block_frame (with_applying_block m).
Proof.
  intros Hm c. unfold with_applying_block, finally, try_catch, bind, read, modify_state.
  specialize (Hm (set_currently_applying_block true c)).
  destruct (m (set_currently_applying_block true c)) as [a c'|e c'|]; [| |done];
    destruct Hm; by constructor.
Qed.

Lemma block_frame_apply_block fuel b skip : preserves block_frame (_apply_block fuel b skip).
Proof.
  unfold _apply_block. keeps_block_frame.
  all: apply block_frame_with_applying_block, block_frame_with_skip_flags.
  all: apply block_frame___apply_block.
Qed.
End block_frame.

#[export] Hint Resolve block_frame_append_fetched
  block_frame_update_last_irreversible_block block_frame_finalize_block
  block_frame___apply_block block_frame_apply_block : preserve.


#[export] Instance head_kept_refl : Reflexive head_kept.
Proof. by intros c. Qed.
#[export] Instance head_kept_trans : Transitive head_kept.
Proof. unfold head_kept. intros c1 c2 c3. congruence. Qed.
#[export] Instance dgp_kept_refl : Reflexive dgp_kept.
Proof. by intros c. Qed.
#[export] Instance dgp_kept_trans : Transitive dgp_kept.
Proof. unfold dgp_kept. intros c1 c2 c3. congruence. Qed.

Lemma read_Ok_inv {A} (f : chain_controller -> A) s a s' :
  read f s = Ok a s' -> a = f s /\ s' = s.
Proof. by intros [= <- <-]. Qed.

Lemma EOS_ASSERT_Ok_inv {S} cond e (s s' : S) r :
  EOS_ASSERT cond e s = Ok r s' -> cond = true /\ s' = s.
Proof. destruct cond; [by intros [= <-]|discriminate]. Qed.

(** Takes a returning run apart along its binds. *)
Ltac ok_inv H :=
  repeat
    (let a := fresh "a" in let s := fresh "s" in let H1 := fresh "Hrun" in
     apply bind_Ok_inv in H as (a & s & H1 & H);
     try (apply read_Ok_inv in H1 as [-> ->]);
     try (apply EOS_ASSERT_Ok_inv in H1 as [H1 ->])).

Ltac keeps_head :=
  frame_with ltac:(unfold head_kept, head_of; cbn; reflexivity).
Ltac keeps_dgp :=
  frame_with ltac:(unfold dgp_kept; cbn; reflexivity).

Section head.
Context `{Config, Collaborators}.

Lemma update_global_dynamic_data_Ok b c c' :
  update_global_dynamic_data b c = Ok tt c' ->
  let dgp := get_dynamic_global_properties c in
  let missed :=
    (if head_block_num c =? 0 then 1
     else get_slot_at_time c (of_time_point (to_time_point (timestamp b)))) - 1 in
  get_dynamic_global_properties c'
  = mk_dgp (block_num b) (block_id b) (to_time_point (timestamp b)) (producer b)
      (uint64 (current_absolute_slot dgp + (missed + 1)))
      (if missed <? 64 then
         uint64 (uint64 (uint64 (recent_slots_filled dgp * 2) + 1) * 2 ^ missed)
       else 0)
      (add_usage (averge_block_size dgp) (pack_size b) (to_time_point (timestamp b)))
      (dgp_last_irreversible_block_num dgp)
      (block_merkle_root dgp ++ [block_id b]).
Proof.
  unfold update_global_dynamic_data. intros Hrun. ok_inv Hrun.
  destruct (_ =? 0) in Hrun1; [discriminate|]. injection Hrun1 as _ <-.
  match goal with
  | Hloop : for_each ?l ?body c = Ok _ ?c1 |- _ =>
      assert (dgp_kept c c1) as Hkept;
      [assert (preserves dgp_kept (for_each l body)) as Hp by keeps_dgp;
       specialize (Hp c); by rewrite Hloop in Hp|]
  end.
  injection Hrun3 as _ <-. injection Hrun as <-.
  unfold dgp_kept in Hkept. unfold get_dynamic_global_properties. cbn. by rewrite Hkept.
Qed.

Lemma head_kept_append_fetched n : preserves head_kept (append_fetched n).
Proof.
  unfold append_fetched. keeps_head. intros c. unfold log_append.
  destruct (log_head (_block_log c)); [destruct (_ =? _)|]; cbn; reflexivity.
Qed.

Hint Resolve head_kept_append_fetched : preserve.

Lemma head_kept_erase_activated fuel n : preserves head_kept (erase_activated fuel n).
Proof. unfold erase_activated. keeps_head. Qed.

Hint Resolve head_kept_erase_activated : preserve.

Lemma head_kept_update_last_irreversible_block fuel :
  preserves head_kept (update_last_irreversible_block fuel).
Proof.
  unfold update_last_irreversible_block.
  change (for_each ?ns (fun block_to_write => _)) with (for_each ns append_fetched).
  keeps_head.
Qed.

Lemma head_kept_update_signing_producer p b :
  preserves head_kept (update_signing_producer p b).
Proof. unfold update_signing_producer. keeps_head. Qed.

Lemma head_kept_create_block_summary b : preserves head_kept (create_block_summary b).
Proof. unfold create_block_summary. keeps_head. Qed.

Lemma head_kept_clear_expired_transactions : preserves head_kept clear_expired_transactions.
Proof. unfold clear_expired_transactions. keeps_head. Qed.

Lemma preserves_Ok {A} (R : relation chain_controller) (m : M A) c a c' :
  preserves R m -> m c = Ok a c' -> R c c'.
Proof. intros Hp Hm. specialize (Hp c). by rewrite Hm in Hp. Qed.

Lemma preserves_Throw {A} (R : relation chain_controller) (m : M A) c e c' :
  preserves R m -> m c = Throw e c' -> R c c'.
Proof. intros Hp Hm. specialize (Hp c). by rewrite Hm in Hp. Qed.

Lemma validate_block_header_Ok skip b c p c' :
  validate_block_header skip b c = Ok p c' ->
  c' = c /\ head_block_id c = previous b
  /\ head_block_time c < to_time_point (timestamp b).
Proof.
  intros Hrun. split.
  { symmetry. eapply (preserves_Ok eq); [apply validate_block_header_reads|done]. }
  unfold validate_block_header in Hrun.
  apply bind_Ok_inv in Hrun as (? & ? & [-> ->]%read_Ok_inv & Hrun).
  apply bind_Ok_inv in Hrun as (? & ? & [Hprev ->]%EOS_ASSERT_Ok_inv & Hrun).
  apply bind_Ok_inv in Hrun as (? & ? & [-> ->]%read_Ok_inv & Hrun).
  apply bind_Ok_inv in Hrun as (? & ? & [Htime ->]%EOS_ASSERT_Ok_inv & Hrun).
  split; [by apply N.eqb_eq in Hprev|by apply N.ltb_lt in Htime].
Qed.

Lemma head_is_kept b c c' : head_kept c c' -> head_is b c -> head_is b c'.
Proof.
  unfold head_kept, head_of, head_is, head_block_id, head_block_num, head_block_time,
    get_dynamic_global_properties.
  destruct (obj_dgp (objects (_db c))), (obj_dgp (objects (_db c'))). cbn.
  intros [= -> -> -> -> -> -> -> ->]. done.
Qed.

Lemma finalize_block_Ok fuel trace c c' :
  _finalize_block fuel trace c = Ok tt c' ->
  head_block_id c = previous (trace_block trace)
  /\ head_block_time c < to_time_point (timestamp (trace_block trace))
  /\ head_is (trace_block trace) c'.
Proof.
  unfold _finalize_block. cbv zeta. intros Hrun.
  apply bind_Ok_inv in Hrun as (? & ? & [-> ->]%read_Ok_inv & Hrun).
  apply bind_Ok_inv in Hrun as (p & ? & (-> & Hprev & Htime)%validate_block_header_Ok & Hrun).
  apply bind_Ok_inv in Hrun as ([] & c1 & Hugp & Hrun).
  apply bind_Ok_inv in Hrun as ([] & c2 & Hugdd & Hrun).
  apply bind_Ok_inv in Hrun as ([] & c3 & Husp & Hrun).
  apply bind_Ok_inv in Hrun as ([] & c4 & Hlib & Hrun).
  apply bind_Ok_inv in Hrun as ([] & c5 & Hcbs & Hrun).
  split; [done|]. split; [done|].
  apply update_global_dynamic_data_Ok in Hugdd. cbv zeta in Hugdd.
  apply (head_is_kept _ c2).
  - etransitivity; [eapply preserves_Ok; [apply head_kept_update_signing_producer|done]|].
    etransitivity; [eapply preserves_Ok;
                    [apply head_kept_update_last_irreversible_block|done]|].
    etransitivity; [eapply preserves_Ok; [apply head_kept_create_block_summary|done]|].
    eapply preserves_Ok; [apply head_kept_clear_expired_transactions|done].
  - unfold head_is, head_block_id, head_block_num, head_block_time. by rewrite Hugdd.
Qed.

Lemma with_skip_flags_Ok {A} skip (m : M A) c a c' :
  with_skip_flags skip m c = Ok a c' ->
  exists c1, m (set_skip_flags skip c) = Ok a c1 /\ c' = set_skip_flags (_skip_flags c) c1.
Proof.
  unfold with_skip_flags. rewrite bind_read, bind_modify_state.
  intros (c1 & Hm & [= <-])%finally_Ok_inv. eauto.
Qed.

Lemma with_applying_block_Ok {A} (m : M A) c a c' :
  with_applying_block m c = Ok a c' ->
  exists c1, m (set_currently_applying_block true c) = Ok a c1
             /\ c' = set_currently_applying_block (_currently_applying_block c) c1.
Proof.
  unfold with_applying_block. rewrite bind_read, bind_modify_state.
  intros (c1 & Hm & [= <-])%finally_Ok_inv. eauto.
Qed.

Lemma __apply_block_Ok fuel b c c' :
  __apply_block fuel b c = Ok tt c' ->
  head_block_id c = previous b
  /\ head_block_time c < to_time_point (timestamp b)
  /\ head_is b c'.
Proof.
  unfold __apply_block. intros Hrun.
  apply bind_Ok_inv in Hrun as (? & ? & [-> ->]%read_Ok_inv & Hrun).
  apply bind_Ok_inv in Hrun as (p & ? & (-> & Hprev & Htime)%validate_block_header_Ok & Hrun).
  apply bind_Ok_inv in Hrun as ([] & ? & [_ ->]%EOS_ASSERT_Ok_inv & Hrun).
  apply bind_Ok_inv in Hrun as (traces & c1 & _ & Hrun).
  apply bind_Ok_inv in Hrun as ([] & ? & [_ ->]%EOS_ASSERT_Ok_inv & Hrun).
  apply finalize_block_Ok in Hrun as (_ & _ & Hhead). done.
Qed.

Lemma apply_block_Ok fuel b skip c c' :
  _apply_block fuel b skip c = Ok tt c' ->
  head_block_id c = previous b
  /\ head_block_time c < to_time_point (timestamp b)
  /\ head_is b c'.
Proof.
  unfold _apply_block. cbv zeta. intros Hrun.
  apply bind_Ok_inv in Hrun as (? & ? & [-> ->]%read_Ok_inv & Hrun).
  apply bind_Ok_inv in Hrun as (skip' & c0 & Hskip & Hrun).
  assert (c0 = c) as ->.
  { symmetry. eapply (preserves_Ok eq); [|exact Hskip]. only_reads. }
  apply with_applying_block_Ok in Hrun as (c1 & Hrun & ->).
  apply with_skip_flags_Ok in Hrun as (c2 & Hrun & ->).
  apply __apply_block_Ok in Hrun as (Hprev & Htime & Hhead). done.
Qed.
End head.

(** * Authorization of a transaction *)

Section authorization.
Context `{Config, Collaborators}.

Lemma fold_each_Ok_inv {S A B} (body : B -> A -> St S B) (P : A -> Prop) l s :
  (forall acc x r s', body acc x s = Ok r s' -> s' = s /\ P x) ->
  forall acc r s', fold_each l acc body s = Ok r s' -> s' = s /\ Forall P l.
Proof.
  intros Hbody. induction l as [|x l IH]; intros acc r s'; cbn [fold_each].
  - by intros [= _ <-].
  - intros (acc' & s1 & Hx & Hrest)%bind_Ok_inv.
    apply Hbody in Hx as [-> Hx]. apply IH in Hrest as [-> Hl].
    split; [done|by constructor].
Qed.

Lemma check_authorization_Ok trx keys allow c c' :
  check_authorization trx keys allow [] c = Ok tt c' ->
  c' = c
  /\ (flag_set (_skip_flags c) skip_transaction_signatures = false ->
      Forall (fun act => Forall (authority_satisfied c keys) (authorization act))
             (actions trx)).
Proof.
  intros Hrun.
  pose proof (preserves_Ok _ _ _ _ _ (check_authorization_reads trx keys allow []) Hrun)
    as <-.
  split; [done|]. intros Hflag.
  unfold check_authorization in Hrun.
  apply bind_Ok_inv in Hrun as (o & ? & [= <- <-] & Hrun).
  rewrite bind_read in Hrun.
  apply bind_Ok_inv in Hrun as (used & c1 & Hloop & _).
  eapply fold_each_Ok_inv in Hloop; [apply Hloop|]. clear Hloop.
  intros acc act r s' Hinner.
  eapply fold_each_Ok_inv in Hinner; [exact Hinner|]. clear Hinner.
  intros acc' level r' s'' Hbody.
  apply bind_Ok_inv in Hbody as (min_permission & s1 & Hmin & Hbody).
  pose proof (preserves_Ok _ _ _ _ _ (lookup_minimum_permission_reads _ _ _) Hmin) as <-.
  rewrite bind_read in Hbody.
  apply bind_Ok_inv in Hbody as ([] & s2 & Hrel & Hbody).
  assert (s2 = c) as ->.
  { destruct (negb (flag_set (_skip_flags c) skip_authority_check)); [|by injection Hrel].
    apply bind_Ok_inv in Hrel as (p & s3 & Hp & Hrel).
    pose proof (preserves_Ok _ _ _ _ _ (get_permission_reads _) Hp) as <-.
    by apply EOS_ASSERT_Ok_inv in Hrel as [_ ->]. }
  rewrite Hflag in Hbody. cbn [negb] in Hbody.
  destruct (satisfied _ keys [] _ level) as [[ok used']|] eqn:Hsat; [|discriminate].
  apply bind_Ok_inv in Hbody as ([] & s3 & [-> ->]%EOS_ASSERT_Ok_inv & Hbody).
  injection Hbody as _ <-. split; [done|]. by exists used'.
Qed.

End authorization.

(** * Blocks: bookkeeping, application and unwinding *)


Lemma slot_bitmap_bits r m i :
  m < 64 -> i < 64 ->
  N.testbit (uint64 (uint64 (uint64 (r * 2) + 1) * 2 ^ m)) i
  = if i <? m then false
    else if i =? m then true
    else N.testbit r (i - m - 1).
Proof.
  intros Hm Hi. unfold uint64.
  rewrite N.mod_pow2_bits_low by done.
  destruct (N.ltb_spec i m) as [Him|Him]; [by apply N.mul_pow2_bits_low|].
  rewrite N.mul_pow2_bits_high by done.
  rewrite N.mod_pow2_bits_low by lia.
  replace (r * 2) with (2 * r) by lia.
  change (2 ^ 64) with (2 * 2 ^ 63). rewrite N.Div0.mul_mod_distr_l.
  destruct (N.eqb_spec i m) as [->|Hne].
  - rewrite N.sub_diag. apply N.testbit_odd_0.
  - remember (i - m - 1) as j eqn:Hj. replace (i - m) with (N.succ j) by lia.
    rewrite N.testbit_odd_succ by lia. apply N.mod_pow2_bits_low. lia.
Qed.

Section bookkeeping.
Context `{Config, Collaborators}.

(** X13.  A returning [update_global_dynamic_data b] makes [b] the
    head (id, number, time and producer), leaves the irreversible
    height alone, advances the absolute slot by the slots [b] missed
    plus one, and shifts the bitmap of recent slots by as much: the
    missed slots are cleared, the slot of [b] is set, and the older
    bits move up. *)
Theorem update_global_dynamic_data_records_the_slots b c c' :
  update_global_dynamic_data b c = Ok tt c' ->
  head_is b c'
  /\ last_irreversible_block_num c' = last_irreversible_block_num c
  /\ current_absolute_slot (get_dynamic_global_properties c')
     = uint64 (current_absolute_slot (get_dynamic_global_properties c)
               + (missed_slots b c + 1))
  /\ forall i, i < 64 ->
       N.testbit (recent_slots_filled (get_dynamic_global_properties c')) i
       = if i <? missed_slots b c then false
         else if i =? missed_slots b c then true
         else N.testbit (recent_slots_filled (get_dynamic_global_properties c))
                (i - missed_slots b c - 1).
Proof.
  intros Hrun%update_global_dynamic_data_Ok. cbv zeta in Hrun.
  fold (missed_slots b c) in Hrun.
  unfold head_is, head_block_id, head_block_num, head_block_time,
    last_irreversible_block_num.
  rewrite Hrun. cbn. repeat split.
  intros i Hi. destruct (N.ltb_spec (missed_slots b c) 64) as [Hm|Hm].
  - by apply slot_bitmap_bits.
  - rewrite N.bits_0. by destruct (N.ltb_spec i (missed_slots b c)); [|lia].
Qed.

Lemma get_slot_at_head_time c t :
  0 < block_interval_ms -> slot t + 1 < 2 ^ 32 ->
  head_block_time c = to_time_point t ->
  get_slot_at_time c (of_time_point (to_time_point t)) = 0.
Proof.
  intros Hi Ht Hhead. rewrite of_to_time_point by (done || lia).
  unfold get_slot_at_time. rewrite get_slot_time_spec by done. cbn [slot].
  unfold head_slot. rewrite Hhead, of_to_time_point by (done || lia).
  rewrite uint32_small by done.
  by destruct (N.ltb_spec (slot t) (slot t + 1)); [|lia].
Qed.

(** X14.  After [update_global_dynamic_data b], [update_signing_producer]
    writes to the signing producer the number of [b] and the current
    absolute slot, exactly: the head time is then the time of [b], so
    the slot difference it adds is 0.  Nothing else of the producer
    index changes. *)
Theorem signing_producer_gets_the_new_slot b p c c1 c2 :
  0 < block_interval_ms -> slot (timestamp b) + 1 < 2 ^ 32 ->
  update_global_dynamic_data b c = Ok tt c1 ->
  update_signing_producer p b c1 = Ok tt c2 ->
  producer_index (objects (_db c2))
  = alter (fun w => mk_producer (owner w) (signing_key w) (block_num b)
                      (current_absolute_slot (get_dynamic_global_properties c1))
                      (total_missed w))
          (owner p) (producer_index (objects (_db c1))).
Proof.
  intros Hi Hs Hugdd Husp.
  apply update_global_dynamic_data_Ok in Hugdd. cbv zeta in Hugdd.
  assert (head_block_time c1 = to_time_point (timestamp b)) as Hhead
    by (unfold head_block_time; by rewrite Hugdd).
  unfold update_signing_producer in Husp.
  rewrite !bind_read, get_slot_at_head_time in Husp by done.
  injection Husp as <-. cbn.
  assert (uint64 (current_absolute_slot (get_dynamic_global_properties c1) + 0)
          = current_absolute_slot (get_dynamic_global_properties c1)) as ->; [|done].
  rewrite N.add_0_r, Hugdd. cbn. unfold uint64. apply N.Div0.mod_mod.
Qed.
End bookkeeping.


#[export] Instance charges_others_refl n : Reflexive (charges_others n).
Proof. by intros c. Qed.
#[export] Instance charges_others_trans n : Transitive (charges_others n).
Proof. intros c1 c2 c3 [] []. constructor; [congruence|]. intros. congruence. Qed.

Section blocks.
Context `{Config, Collaborators}.

Lemma preserves_bind_get_producer {A} (R : relation chain_controller)
    `{!Reflexive R} n (k : producer_object -> M A) :
  (forall p, owner p = n -> preserves R (k p)) ->
  preserves R (p <- get_producer n ;; k p).
Proof.
  intros Hk c. unfold bind. rewrite get_producer_registered.
  destruct (registered (objects (_db c)) n) as [p|] eqn:Hp; [|reflexivity].
  apply Hk. by eapply registered_owner.
Qed.

Lemma charges_others_missed b i :
  preserves (charges_others (producer b))
    (scheduled <- get_scheduled_producer (i + 1) ;;
     producer_missed <- get_producer scheduled ;;
     if negb (owner producer_missed =? producer b) then
       modify_objects (fun o =>
         set_producer_index
           (alter (fun w => mk_producer (owner w) (signing_key w)
                              (last_confirmed_block_num w) (last_aslot w)
                              (uint32 (total_missed w + 1)))
                  scheduled (producer_index o)) o)
     else ret tt).
Proof.
  apply preserves_bind; try exact _.
  { apply preserves_of_reads; [exact _|apply get_scheduled_producer_reads]. }
  intros scheduled. apply preserves_bind_get_producer; [exact _|]. intros p Hp.
  destruct (N.eqb_spec (owner p) (producer b)) as [Heq|Hne]; cbn [negb];
    [apply preserves_ret; exact _|].
  apply preserves_modify_state. intros c. constructor; cbn.
  - apply lookup_alter_ne. congruence.
  - intros n. destruct (decide (n = scheduled)) as [->|Hn].
    + rewrite lookup_alter_eq. by destruct (producer_index _ !! scheduled).
    + by rewrite lookup_alter_ne.
Qed.

Hint Resolve charges_others_missed : preserve.

Lemma charges_others_update_global_dynamic_data b :
  preserves (charges_others (producer b)) (update_global_dynamic_data b).
Proof.
  unfold update_global_dynamic_data.
  frame_with ltac:(by constructor).
Qed.

(** X15.  The loop of [update_global_dynamic_data] that charges missed
    blocks never charges the producer of the block itself: its object
    is as it was, and every producer keeps its key, its last confirmed
    block and its last slot. *)
Theorem the_block_producer_misses_nothing b c c' :
  update_global_dynamic_data b c = Ok tt c' -> charges_others (producer b) c c'.
Proof. apply preserves_Ok, charges_others_update_global_dynamic_data. Qed.

(** X16.  Whether [_apply_block] returns or throws, it leaves a frame
    untouched: the undo records below its own, the fork database, the
    pending block and its session, the checkpoints and the handlers
    are as they were, the skip flags and the replaying marks are
    restored, and the log is only appended to. *)
Theorem applying_a_block_keeps_the_frame fuel b skip :
  preserves block_frame (_apply_block fuel b skip).
Proof. apply block_frame_apply_block. Qed.

(** X17.  [_apply_block] returns only for a block whose [previous] is
    the head and whose time is after the head's; the block is then
    the head. *)
Theorem a_block_is_applied_on_its_parent fuel b skip c c' :
  _apply_block fuel b skip c = Ok tt c' ->
  head_block_id c = previous b
  /\ head_block_time c < to_time_point (timestamp b)
  /\ head_is b c'.
Proof. apply apply_block_Ok. Qed.

(** X18.  [pop_block] undoes a block applied in a session: if no
    session of a pending block was open when the block was applied,
    the block is known and an undo record is left, [pop_block]
    returns, the objects and the revision are those from before the
    block, and the undo records are a prefix of those from before (the
    application may have committed some). *)
Theorem popping_an_applied_block_restores_the_store fuel b skip c c1 :
  apply_in_session fuel b skip c = Ok tt c1 ->
  _pending_block_session c = None ->
  undo_stack (_db c1) <> [] ->
  is_Some (fetch_block_by_id c1 (block_id b)) ->
  exists c2,
    pop_block c1 = Ok tt c2
    /\ objects (_db c2) = objects (_db c)
    /\ revision (_db c2) = revision (_db c)
    /\ exists n, undo_stack (_db c2) = take n (undo_stack (_db c)).
Proof.
  intros Hrun%apply_in_session_Ok Hsession Hstack Hknown.
  pose proof (preserves_Ok _ _ _ _ _ (block_frame_apply_block fuel b skip) Hrun) as Hframe.
  apply apply_block_Ok in Hrun as (_ & _ & Hhead & _).
  destruct Hframe as [[n Hn] Hrev _ _ _ _ _ Hs _ _ _ _ _ _]. cbn in Hn, Hrev, Hs.
  rewrite Hsession in Hs.
  assert (pop_block c1
          = Ok tt (set_db undo (set_fork_db fork_pop_block
                                  (set_pending_block_session None c1)))) as Hpop.
  { unfold pop_block, reset_pending_block_session, bind, read. rewrite Hs.
    cbn -[fetch_block_by_id fork_pop_block undo].
    assert (fetch_block_by_id (set_pending_block_session None c1)
              (head_block_id (set_pending_block_session None c1))
            = fetch_block_by_id c1 (block_id b)) as ->
      by (change (head_block_id (set_pending_block_session None c1))
            with (head_block_id c1); by rewrite Hhead).
    by rewrite bool_decide_eq_true_2 by done. }
  eexists. split; [exact Hpop|]. cbn -[fork_pop_block].
  unfold undo. destruct n as [|n]; [by rewrite Hn in Hstack|].
  rewrite Hn. cbn. repeat split; [rewrite Hrev; lia|by exists n].
Qed.
End blocks.


#[export] Instance same_undo_refl : Reflexive same_undo.
Proof. intros c. by split. Qed.
#[export] Instance same_undo_trans : Transitive same_undo.
Proof. intros c1 c2 c3 [] []. split; congruence. Qed.
#[export] Instance summary_kept_refl sid : Reflexive (summary_kept sid).
Proof. intros c Hc. exact Hc. Qed.
#[export] Instance summary_kept_trans sid : Transitive (summary_kept sid).
Proof. unfold summary_kept. intros c1 c2 c3. auto. Qed.

Lemma store_only_same_undo c c' : store_only c c' -> same_undo c c'.
Proof. by intros []. Qed.

Ltac same_undo_step :=
  first
    [ progress intros
    | solve [auto 1 with preserve nocore]
    | solve [apply (preserves_weaken store_only same_undo);
             [apply store_only_same_undo|solve [auto 1 with preserve nocore]]]
    | frame_step ltac:(by split) ].

Ltac keeps_undo := repeat same_undo_step.

Ltac keeps_summary :=
  frame_with ltac:(unfold summary_kept, has_summary; cbn; done).

Section unwinding.
Context `{Config, Collaborators}.

Lemma unwinds_bind {A B} (P : chain_controller -> Prop) (m : M A) (k : A -> M B) :
  preserves same_undo m ->
  preserves (fun c c' => P c -> P c') m ->
  (forall a, unwinds P (k a)) ->
  unwinds P (bind m k).
Proof.
  intros Hm HP Hk c e c' Hc. unfold bind. specialize (Hm c). specialize (HP c).
  destruct (m c) as [a c1|e1 c1|]; [|by intros [= <- <-]|done].
  intros Hrun. etransitivity; [exact Hm|]. eapply Hk; [|exact Hrun]. auto.
Qed.

Lemma unwinds_of_preserves {A} P (m : M A) : preserves same_undo m -> unwinds P m.
Proof. intros Hm c e c' _ Hrun. by eapply preserves_Throw. Qed.

Lemma unwinds_bind_any {A B} (m : M A) (k : A -> M B) :
  preserves same_undo m ->
  (forall a, unwinds (fun _ => True) (k a)) ->
  unwinds (fun _ => True) (bind m k).
Proof.
  intros Hm Hk c e c' _. unfold bind. specialize (Hm c).
  destruct (m c) as [a c1|e1 c1|]; [|by intros [= <- <-]|done].
  intros Hrun. etransitivity; [exact Hm|]. by eapply Hk.
Qed.

Lemma unwinds_weaken {A} (P : chain_controller -> Prop) (m : M A) :
  unwinds (fun _ => True) m -> unwinds P m.
Proof. intros Hm c e c' _. by apply Hm. Qed.

Lemma unwinds_modify_state P f : unwinds P (modify_state f).
Proof. intros c e c' _. discriminate. Qed.

Lemma same_undo_append_fetched n : preserves same_undo (append_fetched n).
Proof.
  unfold append_fetched. keeps_undo. intros c. unfold log_append.
  destruct (log_head (_block_log c)); [destruct (_ =? _)|]; cbn; by split.
Qed.

Hint Resolve same_undo_append_fetched : preserve.

Lemma update_last_irreversible_block_unwinds fuel :
  unwinds (fun _ => True) (update_last_irreversible_block fuel).
Proof.
  unfold update_last_irreversible_block.
  change (for_each ?ns (fun block_to_write => _)) with (for_each ns append_fetched).
  repeat (apply unwinds_bind_any; [solve [keeps_undo]|intros]).
  apply unwinds_modify_state.
Qed.

(** *** The block summaries stay *)

Hypothesis contracts : contracts_keep_summaries.

Lemma summary_kept_on_objects sid trx act :
  preserves (summary_kept sid) (on_objects (exec trx act)).
Proof.
  intros c. unfold on_objects. pose proof (contracts trx act sid (objects (_db c))) as Hc.
  destruct (exec trx act (objects (_db c))); [| |done]; exact Hc.
Qed.

Hint Resolve summary_kept_on_objects : preserve.

Lemma summary_kept_apply_transaction sid meta :
  preserves (summary_kept sid) (_apply_transaction meta).
Proof. unfold _apply_transaction. keeps_summary. Qed.

Lemma summary_kept_apply_cycle_trace sid t :
  preserves (summary_kept sid) (_apply_cycle_trace t).
Proof. unfold _apply_cycle_trace. keeps_summary. Qed.

Lemma summary_kept_update_global_properties sid b :
  preserves (summary_kept sid) (update_global_properties b).
Proof. unfold update_global_properties. keeps_summary. Qed.

Lemma summary_kept_update_global_dynamic_data sid b :
  preserves (summary_kept sid) (update_global_dynamic_data b).
Proof. unfold update_global_dynamic_data. keeps_summary. Qed.

Lemma summary_kept_update_signing_producer sid p b :
  preserves (summary_kept sid) (update_signing_producer p b).
Proof. unfold update_signing_producer. keeps_summary. Qed.

Lemma summary_kept_erase_activated sid fuel n :
  preserves (summary_kept sid) (erase_activated fuel n).
Proof. unfold erase_activated. keeps_summary. Qed.

Lemma summary_kept_append_fetched sid n : preserves (summary_kept sid) (append_fetched n).
Proof.
  unfold append_fetched. keeps_summary. intros c. unfold log_append.
  destruct (log_head (_block_log c)); [destruct (_ =? _)|]; cbn; by intros ?.
Qed.

Hint Resolve summary_kept_apply_transaction summary_kept_apply_cycle_trace
  summary_kept_update_global_properties summary_kept_update_global_dynamic_data
  summary_kept_update_signing_producer summary_kept_erase_activated
  summary_kept_append_fetched : preserve.

Lemma summary_kept_update_last_irreversible_block sid fuel :
  preserves (summary_kept sid) (update_last_irreversible_block fuel).
Proof.
  unfold update_last_irreversible_block.
  change (for_each ?ns (fun block_to_write => _)) with (for_each ns append_fetched).
  keeps_summary.
Qed.

Lemma unwinds_bind_summary {A B} b (m : M A) (k : A -> M B) :
  preserves same_undo m ->
  preserves (summary_kept (N.land (block_num b) 65535)) m ->
  (forall a, unwinds (summary_of b) (k a)) ->
  unwinds (summary_of b) (bind m k).
Proof. apply unwinds_bind. Qed.

Lemma finalize_block_unwinds fuel trace :
  unwinds (summary_of (trace_block trace)) (_finalize_block fuel trace).
Proof.
  unfold _finalize_block. cbv zeta.
  do 5 (apply unwinds_bind_summary; [solve [keeps_undo]|solve [keeps_summary]|intros]).
  intros c e c' Hc. unfold bind.
  pose proof (summary_kept_update_last_irreversible_block
                (N.land (block_num (trace_block trace)) 65535) fuel c) as Hkept.
  pose proof (update_last_irreversible_block_unwinds fuel c) as Hun.
  destruct (update_last_irreversible_block fuel c) as [[] c1|e1 c1|];
    [| |intros; discriminate].
  - specialize (Hkept Hc). unfold create_block_summary, bind, the_objects.
    destruct Hkept as [id Hid]. unfold has_summary in Hid. by rewrite Hid.
  - intros [= <- <-]. by eapply Hun.
Qed.

Lemma __apply_block_unwinds fuel b : unwinds (summary_of b) (__apply_block fuel b).
Proof.
  unfold __apply_block.
  do 5 (apply unwinds_bind_summary; [solve [keeps_undo]|solve [keeps_summary]|intros]).
  apply (finalize_block_unwinds fuel (mk_block_trace b _)).
Qed.

Lemma with_skip_flags_unwinds {A} b skip (m : M A) :
  unwinds (summary_of b) m -> unwinds (summary_of b) (with_skip_flags skip m).
Proof.
  intros Hm c e c' Hc. unfold with_skip_flags, finally, try_catch, bind, read, modify_state.
  specialize (Hm (set_skip_flags skip c)).
  destruct (m (set_skip_flags skip c)) as [a c1|e1 c1|]; [done| |done].
  intros [= <- <-]. by apply (Hm e1 c1).
Qed.

Lemma with_applying_block_unwinds {A} b (m : M A) :
  unwinds (summary_of b) m -> unwinds (summary_of b) (with_applying_block m).
Proof.
  intros Hm c e c' Hc.
  unfold with_applying_block, finally, try_catch, bind, read, modify_state.
  specialize (Hm (set_currently_applying_block true c)).
  destruct (m (set_currently_applying_block true c)) as [a c1|e1 c1|]; [done| |done].
  intros [= <- <-]. by apply (Hm e1 c1).
Qed.

Lemma apply_block_unwinds fuel b skip : unwinds (summary_of b) (_apply_block fuel b skip).
Proof.
  unfold _apply_block. cbv zeta.
  do 2 (apply unwinds_bind_summary; [solve [keeps_undo]|solve [keeps_summary]|intros]).
  apply with_applying_block_unwinds, with_skip_flags_unwinds, __apply_block_unwinds.
Qed.

Lemma apply_in_session_Throw fuel b skip c e c' :
  apply_in_session fuel b skip c = Throw e c' ->
  exists c1, _apply_block fuel b skip (set_db start_undo_session c) = Throw e c1
             /\ c' = set_db undo c1.
Proof.
  unfold apply_in_session, modify_db. rewrite bind_modify_state.
  unfold bind, try_catch.
  destruct (_apply_block fuel b skip (set_db start_undo_session c)) as [[] c1|e1 c1|];
    [discriminate| |discriminate].
  cbn. intros [= <- <-]. eauto.
Qed.

Lemma apply_in_session_unwound fuel b skip c e c' :
  summary_of b c ->
  apply_in_session fuel b skip c = Throw e c' ->
  objects (_db c') = objects (_db c)
  /\ undo_stack (_db c') = undo_stack (_db c)
  /\ revision (_db c') = revision (_db c)
  /\ _block_log c `prefix_of` _block_log c'.
Proof.
  intros Hsum (c1 & Hrun & ->)%apply_in_session_Throw.
  pose proof (apply_block_unwinds fuel b skip (set_db start_undo_session c) _ _ Hsum Hrun)
    as [Hstack Hrev].
  pose proof (preserves_Throw _ _ _ _ _ (block_frame_apply_block fuel b skip) Hrun)
    as Hframe.
  cbn in Hstack, Hrev. cbn. unfold undo. rewrite Hstack. cbn.
  repeat split; [rewrite Hrev; lia|]. apply Hframe.
Qed.
End unwinding.

(** * A failing block, and the schedule of the next round *)

Lemma find_filter_out {A} (p q : A -> bool) (l : list A) :
  (forall x, p x = true -> q x = false) ->
  List.find p (List.filter q l) = None.
Proof.
  intros Hpq. induction l as [|x l IH]; [done|]. cbn.
  destruct (q x) eqn:Hq; [|done]. cbn. destruct (p x) eqn:Hp; [|done].
  apply Hpq in Hp. congruence.
Qed.

Lemma modify_back_snoc {A} (f : A -> A) (l : list A) x :
  modify_back f (l ++ [x]) = l ++ [f x].
Proof.
  unfold modify_back. rewrite length_app. cbn.
  replace (length l + 1)%nat with (S (length l)) by lia.
  rewrite alter_app_r_alt by lia. by rewrite Nat.sub_diag.
Qed.

Section pushing.
Context `{Config, Collaborators}.

Lemma fork_remove_forgets id f : fetch_block (fork_remove id f) id = None.
Proof.
  unfold fetch_block, fork_remove. cbn. apply find_filter_out.
  intros i ->. reflexivity.
Qed.

(** X19.  A block whose application throws is undone: [apply_in_session]
    leaves the objects, the undo records and the revision as they were
    before the block, and the block log is only appended to, provided
    the block summary the block would write exists and contract code
    deletes none. *)
Theorem a_failing_block_is_unwound fuel b skip c e c' :
  contracts_keep_summaries ->
  summary_of b c ->
  apply_in_session fuel b skip c = Throw e c' ->
  objects (_db c') = objects (_db c)
  /\ undo_stack (_db c') = undo_stack (_db c)
  /\ revision (_db c') = revision (_db c)
  /\ _block_log c `prefix_of` _block_log c'.
Proof. intros Hexec. by apply apply_in_session_unwound. Qed.

(** X20.  When [_push_block] throws for a block that goes on the head
    (the fork database is skipped, or it names the head as the parent
    of its new head), the store is as it was and the block is removed
    from the fork database, provided the block summary the block
    would write exists and contract code deletes none. *)
Theorem a_bad_block_on_the_head_is_forgotten fuel b c e c' :
  contracts_keep_summaries ->
  summary_of b c ->
  flag_set (_skip_flags c) skip_fork_db = true
  \/ previous (data (fork_push_block b (_fork_db c)).1) = head_block_id c ->
  _push_block fuel b c = Throw e c' ->
  objects (_db c') = objects (_db c)
  /\ undo_stack (_db c') = undo_stack (_db c)
  /\ revision (_db c') = revision (_db c)
  /\ fetch_block (_fork_db c') (block_id b) = None.
Proof.
  intros Hexec Hsum Hpath.
  assert (forall c0 : chain_controller,
            objects (_db c0) = objects (_db c) ->
            undo_stack (_db c0) = undo_stack (_db c) ->
            revision (_db c0) = revision (_db c) ->
            (r <- try_catch (apply_in_session fuel b (_skip_flags c)) ;;
             match r with
             | inr _ => ret false
             | inl e => modify_fork_db (fork_remove (block_id b)) ;; throw e
             end) c0 = Throw e c' ->
            objects (_db c') = objects (_db c)
            /\ undo_stack (_db c') = undo_stack (_db c)
            /\ revision (_db c') = revision (_db c)
            /\ fetch_block (_fork_db c') (block_id b) = None) as Hhead.
  { intros c0 Ho Hs Hr. unfold bind at 1. unfold try_catch.
    destruct (apply_in_session fuel b (_skip_flags c) c0) as [[] c1|e1 c1|] eqn:Hrun;
      [discriminate| |discriminate].
    cbn. intros [= <- <-]. cbn.
    eapply apply_in_session_unwound in Hrun as (Ho1 & Hs1 & Hr1 & _); [|done|].
    - repeat split; [congruence..|apply fork_remove_forgets].
    - unfold summary_of in *. by rewrite Ho. }
  unfold _push_block. rewrite bind_read. cbv zeta.
  destruct (flag_set (_skip_flags c) skip_fork_db) eqn:Hflag; cbn [negb].
  { by apply Hhead. }
  destruct Hpath as [?|Hprev]; [discriminate|].
  unfold bind at 1. destruct (fork_push_block b (_fork_db c)) as [h f] eqn:Hpush.
  rewrite bind_read. cbn in Hprev. change (head_block_id (set_fork_db _ c))
    with (head_block_id c).
  rewrite Hprev, N.eqb_refl. cbn [negb]. by apply Hhead.
Qed.

(** ** The producer schedule at a start of round *)

Lemma fill_schedule_length votes : forall count slots c r c',
  fill_schedule votes count slots c = Ok r c' -> length r = length slots.
Proof.
  induction votes as [|v votes IH]; intros count slots c r c'; cbn [fill_schedule].
  { by intros [= <- _]. }
  case_bool_decide; [|by intros [= <- _]].
  intros (p & c1 & _ & Hrest)%bind_Ok_inv.
  apply IH in Hrest. by rewrite Hrest, length_insert.
Qed.

(** X21.  [_calculate_producer_schedule] changes nothing and returns
    a schedule of [producer_count] producers; it is either the head
    schedule itself or differs from it in the producers and has the
    next version. *)
Theorem calculated_schedule c s c' :
  _calculate_producer_schedule c = Ok s c' ->
  c' = c
  /\ length (producers s) = N.to_nat producer_count
  /\ (s = _head_producer_schedule c
      \/ producers s <> producers (_head_producer_schedule c)
         /\ version s = uint32 (version (_head_producer_schedule c) + 1)).
Proof.
  intros Hrun. split.
  { symmetry. eapply (preserves_Ok eq); [apply calculate_producer_schedule_reads|done]. }
  unfold _calculate_producer_schedule in Hrun.
  apply bind_Ok_inv in Hrun as (o & c1 & [= <- <-] & Hrun).
  apply bind_Ok_inv in Hrun as (slots & c1 & Hfill & Hrun).
  assert (c1 = c) as ->.
  { symmetry. eapply (preserves_Ok eq); [apply fill_schedule_reads|done]. }
  apply fill_schedule_length in Hfill. rewrite length_replicate in Hfill.
  rewrite bind_read in Hrun. case_bool_decide as Hsame; injection Hrun as <-; cbn.
  - split; [done|]. by left.
  - split; [done|]. right. split; [|done]. intros Hp. apply Hsame.
    destruct (_head_producer_schedule c). cbn in *. by subst.
Qed.

(** X22.  [update_global_properties] does nothing for a block that
    does not start a round.  For one that does, it returns only if a
    schedule announced by the block is the calculated one and a
    changed schedule is announced; the calculated schedule is then
    the last pending one, registered at the number of the block,
    while the active producers stay. *)
Theorem update_global_properties_at_a_start_of_round b c c' :
  update_global_properties b c = Ok tt c' ->
  if is_start_of_round (block_num b) then
    exists schedule,
      _calculate_producer_schedule c = Ok schedule c
      /\ (forall np, new_producers b = Some np -> np = schedule)
      /\ (schedule <> _head_producer_schedule c -> is_Some (new_producers b))
      /\ _head_producer_schedule c' = schedule
      /\ list.last (pending_of c') = Some (block_num b, schedule)
      /\ active_producers (get_global_properties c')
         = active_producers (get_global_properties c)
  else c' = c.
Proof.
  unfold update_global_properties.
  destruct (is_start_of_round (block_num b)); [|by intros [= <-]].
  intros Hrun.
  apply bind_Ok_inv in Hrun as (schedule & c1 & Hcalc & Hrun).
  assert (c1 = c) as ->.
  { symmetry. eapply (preserves_Ok eq); [apply calculate_producer_schedule_reads|done]. }
  exists schedule. split; [done|].
  apply bind_Ok_inv in Hrun as ([] & c1 & Hnew & Hrun).
  assert (c1 = c /\ forall np, new_producers b = Some np -> np = schedule) as [-> Hnp].
  { destruct (new_producers b) as [np|].
    - apply EOS_ASSERT_Ok_inv in Hnew as [Heq ->]. split; [done|].
      intros ? [= <-]. by apply bool_decide_eq_true in Heq.
    - injection Hnew as <-. by split. }
  split; [done|].
  rewrite bind_read in Hrun.
  apply bind_Ok_inv in Hrun as ([] & c1 & Hchanged & Hrun).
  assert (c1 = c /\ (schedule <> _head_producer_schedule c -> is_Some (new_producers b)))
    as [-> Hch].
  { case_bool_decide as Hsame; cbn [negb] in Hchanged.
    - injection Hchanged as <-. split; [done|]. by intros [].
    - apply EOS_ASSERT_Ok_inv in Hchanged as [Hsome ->]. split; [done|].
      intros _. by apply bool_decide_eq_true in Hsome. }
  split; [done|].
  unfold modify_objects in Hrun. rewrite bind_modify_state, bind_read in Hrun.
  unfold bind, the_objects in Hrun. cbn in Hrun.
  destruct (permission_index (objects (_db c)) !! (producers_account_name, active_name));
    [|discriminate].
  injection Hrun as <-.
  unfold _head_producer_schedule, pending_of, get_global_properties. cbn.
  assert (forall pending : list (block_num_type * producer_schedule_type),
            list.last
              match list.last pending with
              | Some back =>
                  if back.1 =? block_num b
                  then modify_back (fun _ => (back.1, schedule)) pending
                  else pending ++ [(block_num b, schedule)]
              | None => pending ++ [(block_num b, schedule)]
              end = Some (block_num b, schedule)) as Hlast.
  { intros pending. destruct (list.last pending) as [back|] eqn:Hback;
      [|by rewrite last_snoc].
    destruct (N.eqb_spec back.1 (block_num b)) as [Heq|]; [|by rewrite last_snoc].
    apply last_Some in Hback as [l ->]. by rewrite modify_back_snoc, last_snoc, Heq. }
  rewrite Hlast. done.
Qed.
End pushing.

(** * The pending block: pushed transactions and generated blocks *)

#[export] Instance objects_kept_refl : Reflexive objects_kept.
Proof. by intros c. Qed.
#[export] Instance objects_kept_trans : Transitive objects_kept.
Proof. unfold objects_kept. intros c1 c2 c3. congruence. Qed.

Ltac keeps_objects := frame_with ltac:(reflexivity).

#[export] Instance open_kept_refl : Reflexive open_kept.
Proof. intros c. by split. Qed.
#[export] Instance open_kept_trans : Transitive open_kept.
Proof. intros c1 c2 c3 [] []. split; [by etransitivity|congruence]. Qed.

Lemma store_only_open_kept c c' : store_only c c' -> open_kept c c'.
Proof. intros Hso. split; [by apply store_only_same_undo|by destruct Hso]. Qed.

Ltac open_kept_step :=
  first
    [ progress intros
    | solve [auto 1 with preserve nocore]
    | solve [apply (preserves_weaken store_only open_kept);
             [apply store_only_open_kept|solve [auto 1 with preserve nocore]]]
    | frame_step ltac:(by split) ].

Ltac keeps_session := repeat open_kept_step.

(** Takes the first step off a returning run and adds what it keeps
    to [Hkept]. *)
Ltac session_step Hrun Hkept :=
  let a := fresh "a" in
  let s := fresh "s" in
  let Hstep := fresh "Hstep" in
  apply bind_Ok_inv in Hrun as (a & s & Hstep & Hrun);
  eapply (preserves_Ok open_kept) in Hstep; [|solve [keeps_session]];
  apply (transitivity Hkept) in Hstep; clear Hkept; rename Hstep into Hkept.

Section pending.
Context `{Config, Collaborators}.

Lemma require_account_reads n : preserves eq (require_account n).
Proof. unfold require_account. only_reads. Qed.

Hint Resolve require_account_reads : reads.

Lemma require_scope_reads s : preserves eq (require_scope s).
Proof. unfold require_scope. only_reads. Qed.

Hint Resolve require_scope_reads : reads.

Lemma validate_referenced_accounts_reads trx :
  preserves eq (validate_referenced_accounts trx).
Proof. unfold validate_referenced_accounts. only_reads. Qed.

Lemma check_transaction_authorization_reads trx allow :
  preserves eq (check_transaction_authorization trx allow).
Proof. unfold check_transaction_authorization. apply check_authorization_reads. Qed.

Hint Resolve validate_referenced_accounts_reads check_transaction_authorization_reads
  : reads.

Lemma same_undo_schedule_pending trx : preserves same_undo (schedule_pending trx).
Proof. intros c. unfold schedule_pending. by destruct (schedule trx (_pending_cycle c)). Qed.

Lemma same_undo_on_pending_block f : preserves same_undo (on_pending_block f).
Proof. unfold on_pending_block. keeps_undo. Qed.

Lemma same_undo_on_pending_cycle_trace f : preserves same_undo (on_pending_cycle_trace f).
Proof. unfold on_pending_cycle_trace. keeps_undo. Qed.

Hint Resolve same_undo_schedule_pending same_undo_on_pending_block
  same_undo_on_pending_cycle_trace : preserve.

Lemma same_undo_start_pending_shard : preserves same_undo _start_pending_shard.
Proof. unfold _start_pending_shard. keeps_undo. Qed.

Hint Resolve same_undo_start_pending_shard : preserve.

Lemma same_undo_start_pending_cycle : preserves same_undo _start_pending_cycle.
Proof. unfold _start_pending_cycle. keeps_undo. Qed.

Lemma same_undo_finalize_pending_cycle : preserves same_undo _finalize_pending_cycle.
Proof. unfold _finalize_pending_cycle. keeps_undo. Qed.

Hint Resolve same_undo_start_pending_cycle same_undo_finalize_pending_cycle : preserve.

Lemma objects_kept_on_pending_block f : preserves objects_kept (on_pending_block f).
Proof. unfold on_pending_block. keeps_objects. Qed.

Lemma objects_kept_on_pending_cycle_trace f :
  preserves objects_kept (on_pending_cycle_trace f).
Proof. unfold on_pending_cycle_trace. keeps_objects. Qed.

Hint Resolve objects_kept_on_pending_block objects_kept_on_pending_cycle_trace : preserve.

Lemma objects_kept_start_pending_shard : preserves objects_kept _start_pending_shard.
Proof. unfold _start_pending_shard. keeps_objects. Qed.

Hint Resolve objects_kept_start_pending_shard : preserve.

Lemma objects_kept_start_pending_cycle : preserves objects_kept _start_pending_cycle.
Proof. unfold _start_pending_cycle. keeps_objects. Qed.

Hint Resolve objects_kept_start_pending_cycle : preserve.

Lemma objects_kept_start_pending_block : preserves objects_kept _start_pending_block.
Proof. unfold _start_pending_block. keeps_objects. Qed.

Lemma open_kept_schedule_pending trx : preserves open_kept (schedule_pending trx).
Proof. intros c. unfold schedule_pending. by destruct (schedule trx (_pending_cycle c)). Qed.

Lemma open_kept_on_pending_block f : preserves open_kept (on_pending_block f).
Proof. unfold on_pending_block. keeps_session. Qed.

Lemma open_kept_on_pending_cycle_trace f :
  preserves open_kept (on_pending_cycle_trace f).
Proof. unfold on_pending_cycle_trace. keeps_session. Qed.

Hint Resolve open_kept_schedule_pending open_kept_on_pending_block
  open_kept_on_pending_cycle_trace : preserve.

Lemma open_kept_start_pending_shard : preserves open_kept _start_pending_shard.
Proof. unfold _start_pending_shard. keeps_session. Qed.

Hint Resolve open_kept_start_pending_shard : preserve.

Lemma open_kept_start_pending_cycle : preserves open_kept _start_pending_cycle.
Proof. unfold _start_pending_cycle. keeps_session. Qed.

Lemma open_kept_finalize_pending_cycle : preserves open_kept _finalize_pending_cycle.
Proof. unfold _finalize_pending_cycle. keeps_session. Qed.

Hint Resolve open_kept_start_pending_cycle open_kept_finalize_pending_cycle
  : preserve.

Lemma start_pending_block_session c c' :
  _start_pending_block c = Ok tt c' ->
  _pending_block_session c' = Some (mk_session true).
Proof.
  unfold _start_pending_block. intros Hrun.
  apply bind_Ok_inv in Hrun as (? & ? & [-> ->]%read_Ok_inv & Hrun).
  apply bind_Ok_inv in Hrun as ([] & ? & [_ ->]%EOS_ASSERT_Ok_inv & Hrun).
  rewrite !bind_modify_state in Hrun. unfold modify_db in Hrun.
  rewrite !bind_modify_state in Hrun.
  apply bind_Ok_inv in Hrun as ([] & c1 & Hb & Hrun).
  rewrite bind_modify_state in Hrun.
  pose proof (preserves_Ok _ _ _ _ _ (open_kept_on_pending_block _) Hb) as [_ Hs1].
  pose proof (preserves_Ok _ _ _ _ _ open_kept_start_pending_cycle Hrun) as [_ Hs2].
  cbn in *. congruence.
Qed.

Lemma start_pending_block_Ok c c' :
  _start_pending_block c = Ok tt c' ->
  undo_stack (_db c') = objects (_db c) :: undo_stack (_db c)
  /\ revision (_db c') = revision (_db c) + 1.
Proof.
  unfold _start_pending_block. intros Hrun.
  apply bind_Ok_inv in Hrun as (? & ? & [-> ->]%read_Ok_inv & Hrun).
  apply bind_Ok_inv in Hrun as ([] & ? & [_ ->]%EOS_ASSERT_Ok_inv & Hrun).
  rewrite !bind_modify_state in Hrun. unfold modify_db in Hrun.
  rewrite !bind_modify_state in Hrun.
  apply bind_Ok_inv in Hrun as ([] & c1 & Hb & Hrun).
  rewrite bind_modify_state in Hrun.
  pose proof (preserves_Ok _ _ _ _ _ (same_undo_on_pending_block _) Hb) as [Hs1 Hr1].
  pose proof (preserves_Ok _ _ _ _ _ same_undo_start_pending_cycle Hrun) as [Hs2 Hr2].
  cbn in *. split; congruence.
Qed.

Lemma push_transaction_body_unwinds trx (body : M transaction_trace) :
  body = (validate_referenced_accounts trx ;;
          check_transaction_authorization trx false ;;
          shardnum <- schedule_pending trx ;;
          back_region <-
            (r <- read pending_back_region ;;
             match r with
             | Some r => ret r
             | None => throw undefined
             end) ;;
          let cyclenum :=
            uint64 (N.of_nat (length (cycles_summary back_region)) + 2 ^ 64 - 1) in
          let cyclenum := if shardnum =? no_shard then uint64 (cyclenum + 1) else cyclenum in
          let mtrx := make_metadata trx get_chain_id (region back_region) cyclenum 0 in
          result <- _apply_transaction mtrx ;;
          shardnum <-
            (if shardnum =? no_shard then
               _finalize_pending_cycle ;;
               _start_pending_cycle ;;
               schedule_pending trx
             else ret shardnum) ;;
          bcycle <-
            (r <- read pending_back_cycle ;;
             match r with
             | Some bcycle => ret bcycle
             | None => throw undefined
             end) ;;
          when (N.of_nat (length bcycle) <=? shardnum) _start_pending_shard ;;
          let tid := trx_id trx in
          bcycle <-
            (r <- read pending_back_cycle ;;
             match r with
             | Some bcycle => ret bcycle
             | None => throw undefined
             end) ;;
          (if bool_decide (N.to_nat shardnum < length bcycle)%nat then
             on_pending_block
               (with_regions (modify_back (with_cycles (modify_back
                  (alter (fun shard => shard ++ [mk_receipt executed tid])
                         (N.to_nat shardnum))))))
           else throw out_of_range) ;;
          pct <- read _pending_cycle_trace ;;
          match pct with
          | Some t =>
              if bool_decide (N.to_nat shardnum < length (shard_traces t))%nat then
                on_pending_cycle_trace (fun t =>
                  mk_cycle_trace (alter (shard_append result) (N.to_nat shardnum)
                                        (shard_traces t)))
              else throw out_of_range
          | None => throw undefined
          end ;;
          on_pending_block (with_input_transactions (fun l => l ++ [trx])) ;;
          modify_db squash ;;
          ret result) ->
  unwinds (fun _ => True) body
  /\ (forall c t c', body c = Ok t c' ->
        exists b, _pending_block c' = Some b
                  /\ list.last (input_transactions b) = Some trx)
  /\ (forall c t c', body c = Ok t c' ->
        exists c0, open_kept c c0 /\ c' = set_db squash c0).
Proof.
  intros ->. split; [|split].
  - cbv zeta.
    do 13 (apply unwinds_bind_any; [solve [keeps_undo]|intros]).
    intros c e c' _. discriminate.
  - cbv zeta. intros c t c' Hrun.
    do 12 (apply bind_Ok_inv in Hrun as (? & ? & _ & Hrun)).
    apply bind_Ok_inv in Hrun as ([] & c1 & Hinput & Hrun).
    injection Hrun as _ <-.
    unfold on_pending_block in Hinput. rewrite bind_read in Hinput.
    destruct (_pending_block _) as [b|]; [|discriminate].
    injection Hinput as <-. eexists. split; [reflexivity|]. cbn. apply last_snoc.
  - cbv zeta. intros c t c' Hrun.
    assert (open_kept c c) as Hkept by reflexivity.
    revert Hrun Hkept. generalize c at 1 3. intros s Hrun Hkept.
    do 13 (session_step Hrun Hkept).
    injection Hrun as _ <-. eauto.
Qed.

(** X24.  [_push_transaction] is all or nothing on the objects: when
    it throws, the objects are as they were, and with a pending block
    already open so are the undo records and the revision; when it
    returns, the transaction is the last input transaction of the
    pending block. *)
Theorem pushing_a_transaction trx c :
  (forall e c', _push_transaction trx c = Throw e c' ->
     objects (_db c') = objects (_db c)
     /\ (is_Some (_pending_block c) -> same_undo c c'))
  /\ (forall t c', _push_transaction trx c = Ok t c' ->
        exists b, _pending_block c' = Some b
                  /\ list.last (input_transactions b) = Some trx).
Proof.
  unfold _push_transaction. rewrite bind_read.
  match goal with
  | |- context [try_catch ?m] =>
      destruct (push_transaction_body_unwinds trx m eq_refl) as (Hun & Hok & _);
      generalize dependent m; intros body Hun Hok
  end.
  assert (forall c1 : chain_controller,
            (forall e c',
               (modify_db start_undo_session ;;
                r <- try_catch body ;;
                match r with
                | inr result => ret result
                | inl e => modify_db undo ;; throw e
                end) c1 = Throw e c' ->
               objects (_db c') = objects (_db c1) /\ same_undo c1 c')
            /\ (forall t c',
                  (modify_db start_undo_session ;;
                   r <- try_catch body ;;
                   match r with
                   | inr result => ret result
                   | inl e => modify_db undo ;; throw e
                   end) c1 = Ok t c' ->
                  exists b, _pending_block c' = Some b
                            /\ list.last (input_transactions b) = Some trx)) as Hsession.
  { intros c1. unfold modify_db at 1 3. rewrite !bind_modify_state.
    unfold bind, try_catch.
    pose proof (Hun (set_db start_undo_session c1)) as Hun1.
    pose proof (Hok (set_db start_undo_session c1)) as Hok1.
    destruct (body (set_db start_undo_session c1)) as [t c2|e c2|]; cbn.
    - split; [discriminate|]. intros ? ? [= <- <-]. by eapply Hok1.
    - split; [|discriminate]. intros ? ? [= <- <-].
      destruct (Hun1 e c2 I eq_refl) as [Hs Hr]. cbn in Hs, Hr.
      unfold same_undo. cbn. unfold undo. rewrite Hs. cbn.
      split; [done|]. split; [done|]. rewrite Hr. lia.
    - split; discriminate. }
  destruct (_pending_block c) as [pb|] eqn:Hpb.
  - rewrite bool_decide_eq_true_2 by done. cbn [negb when]. rewrite bind_ret.
    destruct (Hsession c) as [Hthrow Hok1]. split; [|done].
    intros e c' Hrun. destruct (Hthrow e c' Hrun). done.
  - rewrite bool_decide_eq_false_2 by (by intros [? ?]). cbn [negb when].
    pose proof (objects_kept_start_pending_block c) as Hstart.
    destruct (_start_pending_block c) as [[] c1|e c1|] eqn:Hst; cbn in Hstart;
      unfold objects_kept in Hstart.
    + rewrite (bind_ok _ _ _ _ _ Hst).
      destruct (Hsession c1) as [Hthrow Hok1]. split; [|exact Hok1].
      intros e c' Hrun. destruct (Hthrow e c' Hrun) as [Ho _].
      split; [congruence|]. by intros [? ?].
    + rewrite (bind_throw _ _ _ _ _ Hst).
      split; [|discriminate]. intros ? ? [= <- <-]. split; [exact Hstart|]. by intros [? ?].
    + rewrite (bind_diverge _ _ _ Hst). split; discriminate.
Qed.
End pending.

#[export] Instance header_kept_refl : Reflexive header_kept.
Proof. intros c b Hb. eauto. Qed.
#[export] Instance header_kept_trans : Transitive header_kept.
Proof.
  intros c1 c2 c3 H12 H23 b Hb.
  destruct (H12 b Hb) as (b2 & Hb2 & ? & ? & ?).
  destruct (H23 b2 Hb2) as (b3 & Hb3 & ? & ? & ?).
  exists b3. repeat split; congruence.
Qed.

Section generating.
Context `{Config, Collaborators}.

Lemma header_kept_on_pending_block f :
  (forall b, previous (f b) = previous b /\ timestamp (f b) = timestamp b
             /\ producer (f b) = producer b) ->
  preserves header_kept (on_pending_block f).
Proof.
  intros Hf c. unfold on_pending_block, bind, read.
  destruct (_pending_block c) as [b|] eqn:Hb; [|cbn; reflexivity].
  cbn. unfold header_kept. intros b0. rewrite Hb. intros [= <-]. exists (f b). cbn.
  split; [done|]. apply Hf.
Qed.

Lemma dgp_kept_apply_cycle_trace t : preserves dgp_kept (_apply_cycle_trace t).
Proof. unfold _apply_cycle_trace. keeps_dgp. Qed.

Lemma dgp_kept_on_pending_block f : preserves dgp_kept (on_pending_block f).
Proof. unfold on_pending_block. keeps_dgp. Qed.

Lemma dgp_kept_on_pending_cycle_trace f : preserves dgp_kept (on_pending_cycle_trace f).
Proof. unfold on_pending_cycle_trace. keeps_dgp. Qed.

Hint Resolve dgp_kept_apply_cycle_trace dgp_kept_on_pending_block
  dgp_kept_on_pending_cycle_trace : preserve.

Lemma dgp_kept_finalize_pending_cycle : preserves dgp_kept _finalize_pending_cycle.
Proof. unfold _finalize_pending_cycle. keeps_dgp. Qed.

Lemma dgp_kept_start_pending_block : preserves dgp_kept _start_pending_block.
Proof.
  apply (preserves_weaken objects_kept dgp_kept);
    [|apply objects_kept_start_pending_block].
  unfold objects_kept, dgp_kept. intros c c' Ho. by rewrite Ho.
Qed.

Lemma on_pending_block_Ok f c c' :
  on_pending_block f c = Ok tt c' ->
  exists b, _pending_block c = Some b /\ c' = set_pending_block (Some (f b)) c.
Proof.
  unfold on_pending_block. rewrite bind_read.
  destruct (_pending_block c) as [b|]; [|discriminate]. intros [= <-]. eauto.
Qed.

Lemma generate_block_Ok fuel when_ producer_ key c b c' :
  _generate_block fuel when_ producer_ key c = Ok b c' ->
  0 < get_slot_at_time c when_
  /\ get_scheduled_producer (get_slot_at_time c when_) c = Ok producer_ c
  /\ previous b = head_block_id c
  /\ timestamp b = when_
  /\ producer b = producer_
  /\ head_is b c'
  /\ _pending_block c' = None
  /\ _pending_block_trace c' = None
  /\ _pending_block_session c' = None.
Proof.
  unfold _generate_block. intros Hrun.
  apply bind_Ok_inv in Hrun as (skip & ? & [-> ->]%read_Ok_inv & Hrun).
  apply bind_Ok_inv in Hrun as (slot_num & ? & [-> ->]%read_Ok_inv & Hrun).
  apply bind_Ok_inv in Hrun as ([] & ? & [Hslot ->]%EOS_ASSERT_Ok_inv & Hrun).
  apply bind_Ok_inv in Hrun as (scheduled & c0 & Hsched & Hrun).
  assert (c0 = c) as ->.
  { symmetry. eapply (preserves_Ok eq); [apply get_scheduled_producer_reads|done]. }
  apply bind_Ok_inv in Hrun as ([] & ? & [Hmine ->]%EOS_ASSERT_Ok_inv & Hrun).
  apply N.eqb_eq in Hmine. subst scheduled.
  apply bind_Ok_inv in Hrun as (producer_obj & c0 & Hobj & Hrun).
  rewrite get_producer_registered in Hobj.
  destruct (registered (objects (_db c)) producer_) as [p|] eqn:Hreg; [|discriminate].
  injection Hobj as <- <-. apply registered_owner in Hreg.
  rewrite bind_read in Hrun.
  apply bind_Ok_inv in Hrun as ([] & c1 & Hstart & Hrun).
  assert (dgp_kept c c1) as Hdgp1.
  { eapply preserves_Ok; [|exact Hstart]. apply preserves_when; try exact _.
    apply dgp_kept_start_pending_block. }
  apply bind_Ok_inv in Hrun as ([] & c2 & Hcycle & Hrun).
  pose proof (preserves_Ok _ _ _ _ _ dgp_kept_finalize_pending_cycle Hcycle) as Hdgp2.
  apply bind_Ok_inv in Hrun as ([] & c3 & Hkey & Hrun).
  assert (c3 = c2) as ->.
  { symmetry. eapply (preserves_Ok eq); [|exact Hkey]. only_reads. }
  rewrite !bind_read in Hrun.
  apply bind_Ok_inv in Hrun as ([] & c3 & Hheader & Hrun).
  apply on_pending_block_Ok in Hheader as (b0 & Hb0 & ->).
  apply bind_Ok_inv in Hrun as ([] & c4 & Htrace & Hrun).
  rewrite bind_read in Hrun.
  apply bind_Ok_inv in Hrun as ([] & c5 & Hround & Hrun).
  apply bind_Ok_inv in Hrun as ([] & c6 & Hsign & Hrun).
  rewrite !bind_read in Hrun.
  assert (header_kept (set_pending_block (Some (mk_block
            (head_block_id c2) when_ (owner p)
            (calculate_transaction_merkle_root (mk_block (head_block_id c2) when_
               (owner p) (transaction_mroot b0) (action_mroot b0)
               (merkle (block_merkle_root (get_dynamic_global_properties c2)))
               (new_producers b0) (producer_signature b0) (regions b0)
               (input_transactions b0)))
            (match _pending_block_trace c2 with
             | Some t => calculate_action_merkle_root t
             | None => action_mroot b0
             end)
            (merkle (block_merkle_root (get_dynamic_global_properties c2)))
            (new_producers b0) (producer_signature b0) (regions b0)
            (input_transactions b0))) c2) c6) as Hkept.
  { etransitivity; [eapply preserves_Ok; [|exact Htrace]|].
    { frame_with ltac:(idtac). }
    etransitivity; [eapply preserves_Ok; [|exact Hround]|].
    { frame_with ltac:(idtac). by apply header_kept_on_pending_block. }
    eapply preserves_Ok; [|exact Hsign].
    frame_with ltac:(idtac). by apply header_kept_on_pending_block. }
  destruct (Hkept _ eq_refl) as (b6 & Hb6 & Hprev & Htime & Hprod). cbn in Hprev, Htime, Hprod.
  rewrite Hb6 in Hrun.
  destruct (_pending_block_trace c6) as [t|]; [|discriminate].
  apply bind_Ok_inv in Hrun as ([] & c7 & Hfinal & Hrun).
  apply finalize_block_Ok in Hfinal as (_ & _ & Hhead). cbn [trace_block] in Hhead.
  rewrite bind_read in Hrun.
  destruct (_pending_block_session c7) as [session|]; [|discriminate].
  rewrite !bind_modify_state in Hrun.
  apply bind_Ok_inv in Hrun as ([] & c8 & Hreset & Hrun).
  apply bind_Ok_inv in Hrun as ([] & c9 & Hfork & Hrun).
  injection Hrun as <- <-.
  assert (c8 = set_pending_block_session None
                 (set_pending_block None (set_pending_block_trace None
                    (set_pending_block_session (Some (mk_session false)) c7)))) as ->.
  { unfold reset_pending_block_session in Hreset. rewrite bind_read in Hreset.
    cbn in Hreset. by injection Hreset as <-. }
  assert (head_is b6 c9 /\ _pending_block c9 = None /\ _pending_block_trace c9 = None
          /\ _pending_block_session c9 = None) as (? & ? & ? & ?).
  { destruct (negb (flag_set _ skip_fork_db)); cbn in Hfork; injection Hfork as <-; done. }
  apply N.ltb_lt in Hslot.
  assert (head_block_id c2 = head_block_id c) as Hhid.
  { unfold dgp_kept in Hdgp1, Hdgp2. unfold head_block_id, get_dynamic_global_properties.
    congruence. }
  unfold head_is in *. intuition congruence.
Qed.

(** X25.  [_generate_block] returns only in a slot after the head's for
    which the given producer is scheduled; the block it returns is on
    the head, carries the given time and producer, and is the new
    head, and no pending block is left. *)
Theorem a_generated_block_becomes_the_head fuel when_ producer_ key c b c' :
  _generate_block fuel when_ producer_ key c = Ok b c' ->
  0 < get_slot_at_time c when_
  /\ get_scheduled_producer (get_slot_at_time c when_) c = Ok producer_ c
  /\ previous b = head_block_id c
  /\ timestamp b = when_
  /\ producer b = producer_
  /\ head_is b c'
  /\ _pending_block c' = None
  /\ _pending_block_trace c' = None
  /\ _pending_block_session c' = None.
Proof. apply generate_block_Ok. Qed.
End generating.

(** ** Clearing the pending block *)

Section clearing.
Context `{Config, Collaborators}.

(** X29.  A returning [_push_transaction] squashes its own session into
    that of the pending block: with a pending block open, the undo
    records, the revision and the block session are as before.  When
    it opened the pending block itself, [clear_pending] takes the store
    back: the objects, the undo records and the revision are those
    from before the transaction, and no pending block is left. *)
Theorem clear_pending_undoes_a_pushed_transaction trx c t c1 :
  _push_transaction trx c = Ok t c1 ->
  (is_Some (_pending_block c) -> open_kept c c1)
  /\ (_pending_block c = None ->
      exists c2,
        clear_pending c1 = Ok tt c2
        /\ objects (_db c2) = objects (_db c)
        /\ same_undo c c2
        /\ _pending_block c2 = None
        /\ _pending_block_trace c2 = None
        /\ _pending_block_session c2 = None).
Proof.
  unfold _push_transaction. rewrite bind_read.
  match goal with
  | |- context [try_catch ?m] =>
      destruct (push_transaction_body_unwinds trx m eq_refl) as (_ & _ & Hsq);
      generalize dependent m; intros body Hsq
  end.
  assert (forall c0 : chain_controller,
            (modify_db start_undo_session ;;
             r <- try_catch body ;;
             match r with
             | inr result => ret result
             | inl e => modify_db undo ;; throw e
             end) c0 = Ok t c1 ->
            open_kept c0 c1) as Hsession.
  { intros c0. unfold modify_db at 1. rewrite bind_modify_state.
    unfold bind, try_catch.
    pose proof (Hsq (set_db start_undo_session c0)) as Hsq0.
    destruct (body (set_db start_undo_session c0)) as [t0 c2|e c2|]; cbn; [|done..].
    intros [= <- <-]. destruct (Hsq0 _ _ eq_refl) as (c3 & [[Hs Hr] Hp] & ->).
    cbn in Hs, Hr, Hp. unfold open_kept, same_undo. cbn. unfold squash. rewrite Hs. cbn.
    repeat split; [rewrite Hr; lia|done]. }
  destruct (_pending_block c) as [pb|] eqn:Hpb.
  - rewrite bool_decide_eq_true_2 by done. cbn [negb when]. rewrite bind_ret.
    intros Hrun. split; [|done]. intros _. by apply Hsession.
  - rewrite bool_decide_eq_false_2 by (by intros [? ?]). cbn [negb when].
    intros ([] & c0 & Hstart & Hrun)%bind_Ok_inv. split; [by intros [? ?]|]. intros _.
    apply Hsession in Hrun as [[Hs Hr] Hp].
    pose proof (preserves_Ok _ _ _ _ _ objects_kept_start_pending_block Hstart) as Ho.
    pose proof (start_pending_block_session _ _ Hstart) as Hopen.
    apply start_pending_block_Ok in Hstart as [Hs0 Hr0].
    unfold objects_kept in Ho.
    exists (set_pending_block_session None
              (set_db undo (set_pending_block None (set_pending_block_trace None c1)))).
    split.
    { unfold clear_pending. rewrite !bind_modify_state.
      unfold reset_pending_block_session. rewrite bind_read. cbn.
      rewrite Hp, Hopen. reflexivity. }
    cbn. unfold same_undo, undo. cbn. rewrite Hs, Hs0. cbn.
    repeat split; [rewrite Hr, Hr0; lia].
Qed.
End clearing.

(** * Replaying the log *)

Lemma for_each_snoc_Ok {S A} (l : list A) (x : A) (body : A -> St S unit) s s' :
  for_each (l ++ [x]) body s = Ok tt s' ->
  exists s1, for_each l body s = Ok tt s1 /\ body x s1 = Ok tt s'.
Proof.
  revert s. induction l as [|y l IH]; intros s; cbn [for_each app].
  - intros ([] & s1 & Hx & [= <-])%bind_Ok_inv. eauto.
  - intros ([] & s1 & Hy & Hrest)%bind_Ok_inv.
    apply IH in Hrest as (s2 & Hl & Hx). exists s2. split; [|done].
    unfold bind. by rewrite Hy.
Qed.

Lemma N_range_snoc first k :
  N_range first (S k) = N_range first k ++ [first + N.of_nat k].
Proof. unfold N_range. by rewrite seq_S, map_app. Qed.

Section replaying.
Context `{Config, Collaborators}.

Lemma read_block_by_num_Some log n b :
  read_block_by_num log n = Some b -> block_num b = n.
Proof.
  unfold read_block_by_num. intros [_ Hn]%find_some. by apply N.eqb_eq in Hn.
Qed.

(** X23.  [replay] clears the replaying mark whether it returns or
    throws.  With an empty log it does nothing else.  Otherwise, when
    it returns, the revision of the store is the head number; the head
    number is that of the last block of the log if that number is not
    0, and if it is 0 (block numbers are 32-bit, and the number after
    2^32 - 1 is 0) no block is applied and the objects are as they
    were. *)
Theorem replay_ends_at_the_log_head fuel c :
  (forall e c', replay fuel c = Throw e c' -> _currently_replaying_blocks c' = false)
  /\ (forall c', replay fuel c = Ok tt c' ->
        _currently_replaying_blocks c' = false
        /\ match log_head (_block_log c) with
           | None => c' = set_currently_replaying_blocks false c
           | Some last_block =>
               revision (_db c') = head_block_num c'
               /\ (0 < block_num last_block -> head_block_num c' = block_num last_block)
               /\ (block_num last_block = 0 -> objects (_db c') = objects (_db c))
           end).
Proof.
  unfold replay. rewrite bind_modify_state. split.
  - intros e c'.
    match goal with
    | |- finally ?m _ ?s = _ -> _ =>
        generalize m; intros body; unfold finally, try_catch, bind; destruct (body s)
    end; cbn; intros Hrun; try discriminate; by injection Hrun as _ <-.
  - intros c' (c1 & Hrun & [= <-])%finally_Ok_inv. split; [done|].
    rewrite bind_read in Hrun.
    change (_block_log (set_currently_replaying_blocks true c)) with (_block_log c) in Hrun.
    destruct (log_head (_block_log c)) as [last_block|]; [|by injection Hrun as <-].
    cbv zeta in Hrun.
    apply bind_Ok_inv in Hrun as ([] & c2 & Hloop & Hrun).
    rewrite bind_read in Hrun. injection Hrun as <-. split; [done|]. split.
    + intros Hpos. change (head_block_num (set_currently_replaying_blocks false _))
        with (head_block_num c2). cbn.
      destruct (N.to_nat (block_num last_block)) as [|k] eqn:Hk; [lia|].
      rewrite N_range_snoc in Hloop.
      apply for_each_snoc_Ok in Hloop as (c3 & _ & Hlast).
      rewrite bind_read in Hlast.
      destruct (read_block_by_num (_block_log c3) (1 + N.of_nat k)) as [b|] eqn:Hb;
        [|discriminate].
      apply read_block_by_num_Some in Hb.
      apply apply_block_Ok in Hlast as (_ & _ & _ & Hnum & _).
      rewrite Hnum, Hb. lia.
    + intros Hzero. rewrite Hzero in Hloop. by injection Hloop as <-.
Qed.
End replaying.

(** * Checkpoints *)

(** [rbegin()] is the entry of the greatest key. *)
Lemma checkpoints_rbegin_list (l : list (N * block_id_type)) :
  match foldr (fun kv acc =>
                 match acc with
                 | Some kv' => if kv'.1 <? kv.1 then Some kv else acc
                 | None => Some kv
                 end) None l with
  | Some kv => kv ∈ l /\ forall kv', kv' ∈ l -> kv'.1 <= kv.1
  | None => l = []
  end.
Proof.
  induction l as [|kv l IH]; [done|]. cbn.
  destruct (foldr _ None l) as [top|].
  - destruct IH as [Hin Hmax].
    destruct (N.ltb_spec top.1 kv.1) as [Hlt|Hge].
    + split; [by left|]. intros kv' [->|Hkv']%elem_of_cons; [done|].
      apply Hmax in Hkv'. lia.
    + split; [by right|]. intros kv' [->|Hkv']%elem_of_cons; [done|by apply Hmax].
  - subst l. split; [by left|]. by intros kv' ->%list_elem_of_singleton.
Qed.

Lemma checkpoints_rbegin_spec (m : gmap N block_id_type) :
  match checkpoints_rbegin m with
  | Some kv => m !! kv.1 = Some kv.2 /\ forall k id, m !! k = Some id -> k <= kv.1
  | None => m = ∅
  end.
Proof.
  unfold checkpoints_rbegin. pose proof (checkpoints_rbegin_list (map_to_list m)) as Hl.
  destruct (foldr _ None (map_to_list m)) as [[k id]|].
  - destruct Hl as [Hin Hmax]. split; [by apply elem_of_map_to_list|].
    intros k' id' Hk'. by apply (Hmax (k', id')), elem_of_map_to_list.
  - by apply map_to_list_empty_iff.
Qed.

Lemma checkpoints_rbegin_last (m : gmap N block_id_type) k id :
  m !! k = Some id -> (forall k' id', m !! k' = Some id' -> k' <= k) ->
  checkpoints_rbegin m = Some (k, id).
Proof.
  intros Hk Hmax. pose proof (checkpoints_rbegin_spec m) as Hm.
  destruct (checkpoints_rbegin m) as [[k0 id0]|]; [|by subst m].
  cbn in Hm. destruct Hm as [Hk0 Hmax0].
  assert (k0 = k) as -> by (apply Hmax in Hk0; apply Hmax0 in Hk; lia).
  congruence.
Qed.

Section checkpoints.
Context `{Config, Collaborators}.

(** X26.  What the checkpoints do to a block.  Without checkpoints,
    or when the id stored at the highest checkpoint is zero,
    [_apply_block] applies the block with the flags it was given.
    Otherwise a block whose number is checkpointed under another id is
    refused with an assertion failure and nothing changes; a block
    that matches its checkpoint or lies at or below the highest one is
    applied with all checks skipped, and a block above it with the
    flags given. *)
Theorem checkpoints_decide_the_checks fuel b skip c :
  let apply_with skip := with_applying_block (with_skip_flags skip (__apply_block fuel b)) c in
  (_checkpoints c = ∅ -> _apply_block fuel b skip c = apply_with skip)
  /\ forall last id,
       _checkpoints c !! last = Some id ->
       (forall k id', _checkpoints c !! k = Some id' -> k <= last) ->
       _apply_block fuel b skip c
       = if id =? 0 then apply_with skip
         else match _checkpoints c !! block_num b with
              | Some expected =>
                  if block_id b =? expected then apply_with (2 ^ 32 - 1)
                  else Throw assert_exception c
              | None =>
                  apply_with (if block_num b <=? last then 2 ^ 32 - 1 else skip)
              end.
Proof.
  cbv zeta. unfold _apply_block. rewrite bind_read. split.
  - intros ->. done.
  - intros last id Hlast Hmax. rewrite (checkpoints_rbegin_last _ _ _ Hlast Hmax). cbn.
    destruct (id =? 0); cbn; [done|].
    destruct (_checkpoints c !! block_num b) as [expected|] eqn:Hb; cbn.
    + destruct (block_id b =? expected); cbn; [|done].
      apply Hmax in Hb. by destruct (N.leb_spec (block_num b) last); [|lia].
    + done.
Qed.

(** X27.  [add_checkpoints] always returns and touches the checkpoints
    only: a new entry replaces the old one of the same height and the
    other entries stay.  Afterwards [before_last_checkpoint] holds
    exactly if some checkpoint, new or old, is at or above the head. *)
Theorem before_the_last_added_checkpoint checkpts c :
  exists c',
    add_checkpoints checkpts c = Ok tt c'
    /\ objects (_db c') = objects (_db c)
    /\ (forall n, _checkpoints c' !! n
                  = match checkpts !! n with
                    | Some id => Some id
                    | None => _checkpoints c !! n
                    end)
    /\ (before_last_checkpoint c' = true
        <-> exists k, head_block_num c <= k
                      /\ (is_Some (checkpts !! k) \/ is_Some (_checkpoints c !! k))).
Proof.
  eexists. split; [reflexivity|]. cbn. split; [done|].
  assert (forall n, (checkpts ∪ _checkpoints c) !! n
                    = match checkpts !! n with
                      | Some id => Some id
                      | None => _checkpoints c !! n
                      end) as Hlookup.
  { intros n. destruct (checkpts !! n) eqn:Hn;
      [by apply lookup_union_Some_l|by rewrite lookup_union_r]. }
  split; [done|].
  unfold before_last_checkpoint. cbn.
  change (head_block_num (set_checkpoints _ c)) with (head_block_num c).
  pose proof (checkpoints_rbegin_spec (checkpts ∪ _checkpoints c)) as Hm.
  destruct (checkpoints_rbegin (checkpts ∪ _checkpoints c)) as [[k id]|]; cbn in *.
  - destruct Hm as [Hk Hmax]. rewrite N.leb_le. split.
    + intros Hle. exists k. split; [done|]. rewrite Hlookup in Hk.
      destruct (checkpts !! k); [by left|by right].
    + intros (k' & Hle & Hk').
      assert (is_Some ((checkpts ∪ _checkpoints c) !! k')) as [id' Hid'].
      { rewrite Hlookup. destruct (checkpts !! k'); [done|]. by destruct Hk' as [[]|]. }
      apply Hmax in Hid'. lia.
  - split; [done|]. intros (k' & _ & Hk'). exfalso.
    assert (is_Some ((checkpts ∪ _checkpoints c) !! k')) as [id' Hid'].
    { rewrite Hlookup. destruct (checkpts !! k'); [done|]. by destruct Hk' as [[]|]. }
    by rewrite Hm in Hid'.
Qed.
End checkpoints.

(** * What pushing a block leaves alone *)

#[export] Instance push_frame_refl : Reflexive push_frame.
Proof. intros c. constructor; try done. by left. Qed.
#[export] Instance push_frame_trans : Transitive push_frame.
Proof.
  intros c1 c2 c3 [] []. constructor; try congruence.
  - etransitivity; eassumption.
  - destruct pf_pending_block_session1 as [->|]; [done|by right].
Qed.

Lemma block_frame_push_frame c c' : block_frame c c' -> push_frame c c'.
Proof. intros []. constructor; try done. by left. Qed.

Ltac pf_field := first [ reflexivity | done | by left | by right ].

Ltac push_frame_step :=
  first
    [ progress intros
    | solve [auto 1 with preserve nocore]
    | solve [apply (preserves_weaken block_frame push_frame);
             [apply block_frame_push_frame|solve [auto 1 with preserve nocore]]]
    | frame_step ltac:(constructor; cbn; pf_field) ].

Ltac keeps_push_frame := repeat push_frame_step.

Section pushing_frame.
Context `{Config, Collaborators}.

Lemma push_frame_reset_pending_block_session :
  preserves push_frame reset_pending_block_session.
Proof. unfold reset_pending_block_session. keeps_push_frame. Qed.

Hint Resolve push_frame_reset_pending_block_session : preserve.

Lemma push_frame_pop_block : preserves push_frame pop_block.
Proof. unfold pop_block. keeps_push_frame. Qed.

Hint Resolve push_frame_pop_block : preserve.

Lemma push_frame_apply_in_session fuel b skip :
  preserves push_frame (apply_in_session fuel b skip).
Proof. unfold apply_in_session. keeps_push_frame. Qed.

Hint Resolve push_frame_apply_in_session : preserve.

Lemma push_frame_pop_to fuel id : preserves push_frame (pop_to fuel id).
Proof. unfold pop_to. keeps_push_frame. Qed.

Hint Resolve push_frame_pop_to : preserve.

Lemma push_frame_push_fork_blocks fuel skip second fork_point new_branch :
  preserves push_frame (push_fork_blocks fuel skip new_branch second fork_point).
Proof.
  induction new_branch as [|ritr rest IH]; cbn [push_fork_blocks]; keeps_push_frame.
Qed.

Hint Resolve push_frame_push_fork_blocks : preserve.

Lemma push_frame_push_block fuel b :
  preserves push_frame (_push_block fuel b).
Proof.
  unfold _push_block. keeps_push_frame.
  - intros c. destruct (fork_push_block b (_fork_db c)). constructor; cbn; pf_field.
  - intros c. by destruct (fetch_branch_from _ _ _).
Qed.

(** X28.  Whether [_push_block] returns or throws, and whichever way
    it takes (the block goes on the head, is only stored, or makes the
    controller switch forks, with or without success), the pending
    block, its trace and its cycle, the skip flags, the checkpoints
    and the marks are as they were, no block session is opened, and
    the block log is only appended to. *)
Theorem pushing_a_block_keeps_the_frame fuel b :
  preserves push_frame (_push_block fuel b).
Proof. apply push_frame_push_block. Qed.
End pushing_frame.

(** * The irreversible height along the public operations *)

Section operations.
Context `{Config, Collaborators}.
Hypothesis contracts : contracts_keep_lib.

Lemma operates_keeps_lib c c' :
  _pending_block_session c = None ->
  operates c c' ->
  never_lowers_lib c c' /\ _pending_block_session c' = None.
Proof.
  intros Hclosed [fuel Hrun|fuel b skip Hrun|fuel when_ producer_ key skip b Hrun].
  - pose proof (preserves_Ok _ _ _ _ _ (on_top_update_last_irreversible_block fuel) Hrun)
      as [Hlib _ Hsession _ _ _].
    split; [exact Hlib|congruence].
  - apply with_skip_flags_Ok in Hrun as (c1 & Hrun & ->).
    unfold without_pending_transactions in Hrun.
    apply bind_Ok_inv in Hrun as ([] & c0 & Hclear & Hrun).
    unfold clear_pending in Hclear. rewrite !bind_modify_state in Hclear.
    rewrite reset_closed_session in Hclear by (cbn; rewrite Hclosed; discriminate).
    injection Hclear as <-.
    pose proof (preserves_Ok _ _ _ _ _ (push_frame_push_block fuel b) Hrun) as Hframe.
    apply (push_block_without_switch_keeps_lib contracts) in Hrun.
    split; [exact Hrun|].
    destruct (pf_pending_block_session _ _ Hframe) as [Hs|Hs]; cbn in Hs |- *; exact Hs.
  - apply with_skip_flags_Ok in Hrun as (c1 & Hrun & ->).
    pose proof (preserves_Ok _ _ _ _ _
                  (generate_block_keeps_lib fuel when_ producer_ key) Hrun)
      as Hlib.
    apply generate_block_Ok in Hrun as (_ & _ & _ & _ & _ & _ & _ & _ & Hs).
    split; [exact Hlib|exact Hs].
Qed.

End operations.

(** * The further properties on the three-producer chain *)

Module MoreFacts.
Import Toy Three More.

(** X1, instance.  On top of [b3] the time of slot 2 is in slot 2. *)
Lemma slot_of_slot_time_witness :
  get_slot_at_time at_b3 (get_slot_time at_b3 2) = 2.
Proof. apply slot_of_slot_time; vm_compute; reflexivity. Defined.

(** X2, instance.  [b3] is in slot 99: the timestamp 99 is in slot 0
    and the timestamp 100 is the time of its slot. *)
Lemma slot_time_of_slot_witness :
  get_slot_at_time at_b3 (mk_timestamp 99) = 0
  /\ get_slot_time at_b3 (get_slot_at_time at_b3 (mk_timestamp 100)) = mk_timestamp 100.
Proof.
  split.
  - apply (slot_time_of_slot at_b3 (mk_timestamp 99)); vm_compute; (reflexivity || discriminate).
  - apply (slot_time_of_slot at_b3 (mk_timestamp 100)); vm_compute; reflexivity.
Defined.

(** X3, instance.  With three blocks per round, slot 4 is scheduled
    as slot 1 is. *)
Lemma get_scheduled_producer_periodic_witness :
  get_scheduled_producer (1 + blocks_per_round) at_b3 = get_scheduled_producer 1 at_b3.
Proof. apply get_scheduled_producer_periodic; vm_compute; reflexivity. Defined.

(** X7, instance.  The summary of [X], block 4, is written on top of
    [b3]; a transaction that refers to block 65540 is checked against
    the id of [X]. *)
Lemma summary_is_what_tapos_checks_witness :
  let c' := state_of (create_block_summary X at_b3) at_b3 in
  let trx := mk_trx (97 * 500000) 65540 0 [] [alice] [] [] in
  validate_tapos trx c'
  = if should_check_tapos at_b3 then
      if verify_reference_block trx (block_id X) then Ok tt c'
      else Throw transaction_exception c'
    else Ok tt c'.
Proof.
  apply (summary_is_what_tapos_checks X); vm_compute; reflexivity.
Defined.

(** X10, instance.  On top of [b3] three of the recent slots are
    filled and the rate is within [percent_100]. *)
Lemma producer_participation_rate_bounded_witness :
  producer_participation_rate at_b3 <= percent_100.
Proof.
  apply (producer_participation_rate_bounded at_b3). vm_compute. reflexivity.
Defined.
(** X13, instance.  [Y] skips two slots on top of [b3]. *)
Lemma update_global_dynamic_data_records_the_slots_witness :
  let c' := state_of (update_global_dynamic_data Y at_b3) at_b3 in
  head_is Y c'
  /\ last_irreversible_block_num c' = last_irreversible_block_num at_b3
  /\ current_absolute_slot (get_dynamic_global_properties c')
     = uint64 (current_absolute_slot (get_dynamic_global_properties at_b3)
               + (missed_slots Y at_b3 + 1))
  /\ forall i, i < 64 ->
       N.testbit (recent_slots_filled (get_dynamic_global_properties c')) i
       = if i <? missed_slots Y at_b3 then false
         else if i =? missed_slots Y at_b3 then true
         else N.testbit (recent_slots_filled (get_dynamic_global_properties at_b3))
                (i - missed_slots Y at_b3 - 1).
Proof.
  apply (update_global_dynamic_data_records_the_slots Y at_b3). vm_compute. reflexivity.
Defined.

(** X14, instance.  [Y] by A on top of [b3]: A's object gets height 4
    and the absolute slot 9. *)
Lemma signing_producer_gets_the_new_slot_witness :
  let c1 := state_of (update_global_dynamic_data Y at_b3) at_b3 in
  let c2 := state_of (update_signing_producer producer_A Y c1) at_b3 in
  producer_index (objects (_db c2))
  = alter (fun w => mk_producer (owner w) (signing_key w) (block_num Y)
                      (current_absolute_slot (get_dynamic_global_properties c1))
                      (total_missed w))
          (owner producer_A) (producer_index (objects (_db c1))).
Proof.
  apply (signing_producer_gets_the_new_slot Y producer_A at_b3); vm_compute; reflexivity.
Defined.

(** X15, instance.  [Y] by A skips the slots of B and C; A is not
    charged. *)
Lemma the_block_producer_misses_nothing_witness :
  charges_others (producer Y) at_b3
    (state_of (update_global_dynamic_data Y at_b3) at_b3).
Proof. apply (the_block_producer_misses_nothing Y at_b3). vm_compute. reflexivity. Defined.

(** X17, instance.  [X] on top of [b3]. *)
Lemma a_block_is_applied_on_its_parent_witness :
  head_block_id at_b3 = previous X
  /\ head_block_time at_b3 < to_time_point (timestamp X)
  /\ head_is X (state_of (_apply_block 8 X 0 at_b3) at_b3).
Proof. apply (a_block_is_applied_on_its_parent 8 X 0 at_b3). vm_compute. reflexivity. Defined.

(** X18, instance.  [X] is applied in a session on top of [b3] and
    popped again. *)
Lemma popping_an_applied_block_restores_the_store_witness :
  exists c2,
    pop_block (state_of (apply_in_session 8 X 0 with_X) with_X) = Ok tt c2
    /\ objects (_db c2) = objects (_db with_X)
    /\ revision (_db c2) = revision (_db with_X)
    /\ exists n, undo_stack (_db c2) = take n (undo_stack (_db with_X)).
Proof.
  apply (popping_an_applied_block_restores_the_store 8 X 0 with_X).
  - vm_compute. reflexivity.
  - reflexivity.
  - vm_compute. discriminate.
  - exists X. vm_compute. reflexivity.
Defined.

(** X19, instance.  [X_bad] fails on top of [b3] after its cycles were
    applied. *)
Lemma a_failing_block_is_unwound_witness :
  let c' := state_of (apply_in_session 8 X_bad 0 at_b3) at_b3 in
  objects (_db c') = objects (_db at_b3)
  /\ undo_stack (_db c') = undo_stack (_db at_b3)
  /\ revision (_db c') = revision (_db at_b3)
  /\ _block_log at_b3 `prefix_of` _block_log c'.
Proof.
  apply (a_failing_block_is_unwound 8 X_bad 0 at_b3 assert_exception).
  - intros trx act sid o Ho. exact Ho.
  - exists 0. vm_compute. reflexivity.
  - vm_compute. reflexivity.
Defined.

(** X20, instance.  [X_bad] is pushed on top of [b3]. *)
Lemma a_bad_block_on_the_head_is_forgotten_witness :
  let c' := state_of (_push_block 8 X_bad at_b3) at_b3 in
  objects (_db c') = objects (_db at_b3)
  /\ undo_stack (_db c') = undo_stack (_db at_b3)
  /\ revision (_db c') = revision (_db at_b3)
  /\ fetch_block (_fork_db c') (block_id X_bad) = None.
Proof.
  apply (a_bad_block_on_the_head_is_forgotten 8 X_bad at_b3 assert_exception).
  - intros trx act sid o Ho. exact Ho.
  - exists 0. vm_compute. reflexivity.
  - right. vm_compute. reflexivity.
  - vm_compute. reflexivity.
Defined.

(** X21, instance.  On top of [b3] the calculated schedule is the head
    schedule. *)
Lemma calculated_schedule_witness :
  at_b3 = at_b3
  /\ length (producers abc) = N.to_nat producer_count
  /\ (abc = _head_producer_schedule at_b3
      \/ producers abc <> producers (_head_producer_schedule at_b3)
         /\ version abc = uint32 (version (_head_producer_schedule at_b3) + 1)).
Proof. apply (calculated_schedule at_b3 abc at_b3). vm_compute. reflexivity. Defined.

(** X22, instance.  [b3] starts a round on top of [b2]. *)
Lemma update_global_properties_at_a_start_of_round_witness :
  let c' := state_of (update_global_properties b3 at_b2) at_b2 in
  if is_start_of_round (block_num b3) then
    exists schedule,
      _calculate_producer_schedule at_b2 = Ok schedule at_b2
      /\ (forall np, new_producers b3 = Some np -> np = schedule)
      /\ (schedule <> _head_producer_schedule at_b2 -> is_Some (new_producers b3))
      /\ _head_producer_schedule c' = schedule
      /\ list.last (pending_of c') = Some (block_num b3, schedule)
      /\ active_producers (get_global_properties c')
         = active_producers (get_global_properties at_b2)
  else c' = at_b2.
Proof.
  apply (update_global_properties_at_a_start_of_round b3 at_b2). vm_compute. reflexivity.
Defined.

(** X25, instance.  B generates the block of the slot after [b3]. *)
Lemma a_generated_block_becomes_the_head_witness :
  let r := _generate_block 8 (mk_timestamp 100) B B at_b3 in
  let b := match r with Ok b _ => b | _ => b3 end in
  let c' := state_of r at_b3 in
  0 < get_slot_at_time at_b3 (mk_timestamp 100)
  /\ get_scheduled_producer (get_slot_at_time at_b3 (mk_timestamp 100)) at_b3 = Ok B at_b3
  /\ previous b = head_block_id at_b3
  /\ timestamp b = mk_timestamp 100
  /\ producer b = B
  /\ head_is b c'
  /\ _pending_block c' = None
  /\ _pending_block_trace c' = None
  /\ _pending_block_session c' = None.
Proof.
  apply (a_generated_block_becomes_the_head 8 (mk_timestamp 100) B B at_b3).
  vm_compute. reflexivity.
Defined.
(** X29, instance.  [alice]'s transfer is pushed on the empty chain,
    which opens the pending block, and the pending block is cleared. *)
Lemma clear_pending_undoes_a_pushed_transaction_witness :
  let c1 := state_of (_push_transaction (transfer 0) at_genesis) at_genesis in
  (is_Some (_pending_block at_genesis) -> open_kept at_genesis c1)
  /\ (_pending_block at_genesis = None ->
      exists c2,
        clear_pending c1 = Ok tt c2
        /\ objects (_db c2) = objects (_db at_genesis)
        /\ same_undo at_genesis c2
        /\ _pending_block c2 = None
        /\ _pending_block_trace c2 = None
        /\ _pending_block_session c2 = None).
Proof.
  apply (clear_pending_undoes_a_pushed_transaction (transfer 0) at_genesis
           (mk_trx_trace (id_of_trx (transfer 0))
              [mk_action_trace currency
                 (mk_action currency 5 [mk_level alice 1] [1; 2; 3]) [] 0 0 0] [])).
  vm_compute. reflexivity.
Defined.
End MoreFacts.
